(** * ShuMao: the pinyin transliterator and the dictionary search pipeline

    A shallow embedding of [convert.py] ([decode_pinyin], [parse_line]) and
    of the [search] view of [app.py] (strategy union, merge, scoring, sort,
    pagination, enrichment), followed by the properties of the
    specification that concern them.

    Python strings are sequences of Unicode code points: a string is a
    [list N].  The data store is consumed through a record of query
    functions; a query either returns rows or raises. *)

From Stdlib Require Import ZArith NArith QArith Qround List Bool Lia.
From Stdlib Require Import Permutation Sorted String Ascii.
From stdpp Require Import base option gmap.
Import ListNotations.

Close Scope Q_scope.
Open Scope Z_scope.

(* ===================================================================== *)
(** ** Python strings                                                     *)
(* ===================================================================== *)

Module PyStr.

(** A code point, and a [str] as Python indexes it. *)
Definition char := N.
Definition str := list char.

(** Source literals are written in UTF-8; [u8] decodes the bytes of a
    literal into its code points (sequences of one to four bytes). *)
Fixpoint utf8_decode (bs : list N) : str :=
  match bs with
  | [] => []
  | b0 :: r0 =>
    if (b0 <? 0x80)%N then b0 :: utf8_decode r0
    else match r0 with
    | [] => []
    | b1 :: r1 =>
      if (b0 <? 0xE0)%N
      then ((b0 mod 0x20) * 0x40 + b1 mod 0x40)%N :: utf8_decode r1
      else match r1 with
      | [] => []
      | b2 :: r2 =>
        if (b0 <? 0xF0)%N
        then ((b0 mod 0x10) * 0x1000 + (b1 mod 0x40) * 0x40
              + b2 mod 0x40)%N :: utf8_decode r2
        else match r2 with
        | [] => []
        | b3 :: r3 =>
          ((b0 mod 0x08) * 0x40000 + (b1 mod 0x40) * 0x1000
           + (b2 mod 0x40) * 0x40 + b3 mod 0x40)%N :: utf8_decode r3
        end
      end
    end
  end.

Definition u8 (s : string) : str :=
  utf8_decode (List.map N_of_ascii (list_ascii_of_string s)).

Definition eqb (s t : str) : bool := bool_decide (s = t).

(** *** The character database

    Python takes the character predicates and the case mappings from the
    Unicode character database.  The tables are those of CPython 3.11
    (Unicode 14.0), written as ranges of code points. *)

Definition in_range (lo hi c : N) : bool := ((lo <=? c) && (c <=? hi))%N.

(** Membership in a list of ranges, and in a list of runs (first, last,
    step). *)
Definition in_ranges (t : list (N * N)) (c : char) : bool :=
  existsb (fun r => in_range (fst r) (snd r) c) t.

Definition in_run (r : N * N * N) (c : char) : bool :=
  let '(lo, hi, step) := r in
  in_range lo hi c && ((c - lo) mod step =? 0)%N.

Definition in_runs (t : list (N * N * N)) (c : char) : bool :=
  existsb (fun r => in_run r c) t.

(** The image of a character under a mapping given as runs (first, last,
    step, image of the first). *)
Fixpoint image (t : list (N * N * N * N)) (c : char) : option char :=
  match t with
  | [] => None
  | (lo, hi, step, img) :: t' =>
    if in_run (lo, hi, step) c then Some (img + (c - lo))%N
    else image t' c
  end.

Fixpoint assoc {A} (t : list (N * A)) (c : char) : option A :=
  match t with
  | [] => None
  | (k, v) :: t' => if (k =? c)%N then Some v else assoc t' c
  end.

(** The digit zero of each run of ten decimal digits (category Nd): the
    characters that [int] reads, a digit being worth its distance to the
    zero of its run. *)
Definition decimal_zeros : list N :=
  [ 0x30; 0x660; 0x6F0; 0x7C0; 0x966; 0x9E6; 0xA66; 0xAE6; 0xB66; 0xBE6;
    0xC66; 0xCE6; 0xD66; 0xDE6; 0xE50; 0xED0; 0xF20; 0x1040; 0x1090; 0x17E0;
    0x1810; 0x1946; 0x19D0; 0x1A80; 0x1A90; 0x1B50; 0x1BB0; 0x1C40; 0x1C50;
    0xA620; 0xA8D0; 0xA900; 0xA9D0; 0xA9F0; 0xAA50; 0xABF0; 0xFF10; 0x104A0;
    0x10D30; 0x11066; 0x110F0; 0x11136; 0x111D0; 0x112F0; 0x11450; 0x114D0;
    0x11650; 0x116C0; 0x11730; 0x118E0; 0x11950; 0x11C50; 0x11D50; 0x11DA0;
    0x16A60; 0x16AC0; 0x16B50; 0x1D7CE; 0x1D7D8; 0x1D7E2; 0x1D7EC; 0x1D7F6;
    0x1E140; 0x1E2F0; 0x1E950; 0x1FBF0 ]%N.

(** The ranges of the characters for which [isdigit] holds: the decimal
    digits and the other digits (superscripts, circled digits, ...). *)
Definition digit_ranges : list (N * N) :=
  [ (0x30, 0x39); (0xB2, 0xB3); (0xB9, 0xB9); (0x660, 0x669);
    (0x6F0, 0x6F9); (0x7C0, 0x7C9); (0x966, 0x96F); (0x9E6, 0x9EF);
    (0xA66, 0xA6F); (0xAE6, 0xAEF); (0xB66, 0xB6F); (0xBE6, 0xBEF);
    (0xC66, 0xC6F); (0xCE6, 0xCEF); (0xD66, 0xD6F); (0xDE6, 0xDEF);
    (0xE50, 0xE59); (0xED0, 0xED9); (0xF20, 0xF29); (0x1040, 0x1049);
    (0x1090, 0x1099); (0x1369, 0x1371); (0x17E0, 0x17E9); (0x1810, 0x1819);
    (0x1946, 0x194F); (0x19D0, 0x19DA); (0x1A80, 0x1A89); (0x1A90, 0x1A99);
    (0x1B50, 0x1B59); (0x1BB0, 0x1BB9); (0x1C40, 0x1C49); (0x1C50, 0x1C59);
    (0x2070, 0x2070); (0x2074, 0x2079); (0x2080, 0x2089); (0x2460, 0x2468);
    (0x2474, 0x247C); (0x2488, 0x2490); (0x24EA, 0x24EA); (0x24F5, 0x24FD);
    (0x24FF, 0x24FF); (0x2776, 0x277E); (0x2780, 0x2788); (0x278A, 0x2792);
    (0xA620, 0xA629); (0xA8D0, 0xA8D9); (0xA900, 0xA909); (0xA9D0, 0xA9D9);
    (0xA9F0, 0xA9F9); (0xAA50, 0xAA59); (0xABF0, 0xABF9); (0xFF10, 0xFF19);
    (0x104A0, 0x104A9); (0x10A40, 0x10A43); (0x10D30, 0x10D39);
    (0x10E60, 0x10E68); (0x11052, 0x1105A); (0x11066, 0x1106F);
    (0x110F0, 0x110F9); (0x11136, 0x1113F); (0x111D0, 0x111D9);
    (0x112F0, 0x112F9); (0x11450, 0x11459); (0x114D0, 0x114D9);
    (0x11650, 0x11659); (0x116C0, 0x116C9); (0x11730, 0x11739);
    (0x118E0, 0x118E9); (0x11950, 0x11959); (0x11C50, 0x11C59);
    (0x11D50, 0x11D59); (0x11DA0, 0x11DA9); (0x16A60, 0x16A69);
    (0x16AC0, 0x16AC9); (0x16B50, 0x16B59); (0x1D7CE, 0x1D7FF);
    (0x1E140, 0x1E149); (0x1E2F0, 0x1E2F9); (0x1E950, 0x1E959);
    (0x1F100, 0x1F10A); (0x1FBF0, 0x1FBF9) ]%N.

(** The characters with the property Uppercase, as runs (first, last,
    step). *)
Definition uppercase_runs : list (N * N * N) :=
  [ (0x41, 0x5A, 1); (0xC0, 0xD6, 1); (0xD8, 0xDE, 1); (0x100, 0x136, 2);
    (0x139, 0x147, 2); (0x14A, 0x178, 2); (0x179, 0x17D, 2);
    (0x181, 0x182, 1); (0x184, 0x184, 1); (0x186, 0x187, 1);
    (0x189, 0x18B, 1); (0x18E, 0x191, 1); (0x193, 0x194, 1);
    (0x196, 0x198, 1); (0x19C, 0x19D, 1); (0x19F, 0x1A0, 1);
    (0x1A2, 0x1A6, 2); (0x1A7, 0x1A7, 1); (0x1A9, 0x1A9, 1);
    (0x1AC, 0x1AC, 1); (0x1AE, 0x1AF, 1); (0x1B1, 0x1B3, 1);
    (0x1B5, 0x1B5, 1); (0x1B7, 0x1B8, 1); (0x1BC, 0x1BC, 1);
    (0x1C4, 0x1C4, 1); (0x1C7, 0x1C7, 1); (0x1CA, 0x1CA, 1);
    (0x1CD, 0x1DB, 2); (0x1DE, 0x1EE, 2); (0x1F1, 0x1F1, 1);
    (0x1F4, 0x1F4, 1); (0x1F6, 0x1F8, 1); (0x1FA, 0x232, 2);
    (0x23A, 0x23B, 1); (0x23D, 0x23E, 1); (0x241, 0x241, 1);
    (0x243, 0x246, 1); (0x248, 0x24E, 2); (0x370, 0x370, 1);
    (0x372, 0x372, 1); (0x376, 0x376, 1); (0x37F, 0x37F, 1);
    (0x386, 0x386, 1); (0x388, 0x38A, 1); (0x38C, 0x38C, 1);
    (0x38E, 0x38F, 1); (0x391, 0x3A1, 1); (0x3A3, 0x3AB, 1);
    (0x3CF, 0x3CF, 1); (0x3D2, 0x3D4, 1); (0x3D8, 0x3EE, 2);
    (0x3F4, 0x3F4, 1); (0x3F7, 0x3F7, 1); (0x3F9, 0x3FA, 1);
    (0x3FD, 0x42F, 1); (0x460, 0x480, 2); (0x48A, 0x4C0, 2);
    (0x4C1, 0x4CD, 2); (0x4D0, 0x52E, 2); (0x531, 0x556, 1);
    (0x10A0, 0x10C5, 1); (0x10C7, 0x10C7, 1); (0x10CD, 0x10CD, 1);
    (0x13A0, 0x13F5, 1); (0x1C90, 0x1CBA, 1); (0x1CBD, 0x1CBF, 1);
    (0x1E00, 0x1E94, 2); (0x1E9E, 0x1EFE, 2); (0x1F08, 0x1F0F, 1);
    (0x1F18, 0x1F1D, 1); (0x1F28, 0x1F2F, 1); (0x1F38, 0x1F3F, 1);
    (0x1F48, 0x1F4D, 1); (0x1F59, 0x1F5F, 2); (0x1F68, 0x1F6F, 1);
    (0x1FB8, 0x1FBB, 1); (0x1FC8, 0x1FCB, 1); (0x1FD8, 0x1FDB, 1);
    (0x1FE8, 0x1FEC, 1); (0x1FF8, 0x1FFB, 1); (0x2102, 0x2102, 1);
    (0x2107, 0x2107, 1); (0x210B, 0x210D, 1); (0x2110, 0x2112, 1);
    (0x2115, 0x2115, 1); (0x2119, 0x211D, 1); (0x2124, 0x212A, 2);
    (0x212B, 0x212D, 1); (0x2130, 0x2133, 1); (0x213E, 0x213F, 1);
    (0x2145, 0x2145, 1); (0x2160, 0x216F, 1); (0x2183, 0x2183, 1);
    (0x24B6, 0x24CF, 1); (0x2C00, 0x2C2F, 1); (0x2C60, 0x2C60, 1);
    (0x2C62, 0x2C64, 1); (0x2C67, 0x2C6D, 2); (0x2C6E, 0x2C70, 1);
    (0x2C72, 0x2C72, 1); (0x2C75, 0x2C75, 1); (0x2C7E, 0x2C80, 1);
    (0x2C82, 0x2CE2, 2); (0x2CEB, 0x2CEB, 1); (0x2CED, 0x2CED, 1);
    (0x2CF2, 0x2CF2, 1); (0xA640, 0xA66C, 2); (0xA680, 0xA69A, 2);
    (0xA722, 0xA72E, 2); (0xA732, 0xA76E, 2); (0xA779, 0xA77D, 2);
    (0xA77E, 0xA786, 2); (0xA78B, 0xA78B, 1); (0xA78D, 0xA78D, 1);
    (0xA790, 0xA790, 1); (0xA792, 0xA792, 1); (0xA796, 0xA7AA, 2);
    (0xA7AB, 0xA7AE, 1); (0xA7B0, 0xA7B4, 1); (0xA7B6, 0xA7C4, 2);
    (0xA7C5, 0xA7C7, 1); (0xA7C9, 0xA7C9, 1); (0xA7D0, 0xA7D0, 1);
    (0xA7D6, 0xA7D6, 1); (0xA7D8, 0xA7D8, 1); (0xA7F5, 0xA7F5, 1);
    (0xFF21, 0xFF3A, 1); (0x10400, 0x10427, 1); (0x104B0, 0x104D3, 1);
    (0x10570, 0x1057A, 1); (0x1057C, 0x1058A, 1); (0x1058C, 0x10592, 1);
    (0x10594, 0x10595, 1); (0x10C80, 0x10CB2, 1); (0x118A0, 0x118BF, 1);
    (0x16E40, 0x16E5F, 1); (0x1D400, 0x1D419, 1); (0x1D434, 0x1D44D, 1);
    (0x1D468, 0x1D481, 1); (0x1D49C, 0x1D49C, 1); (0x1D49E, 0x1D49F, 1);
    (0x1D4A2, 0x1D4A2, 1); (0x1D4A5, 0x1D4A6, 1); (0x1D4A9, 0x1D4AC, 1);
    (0x1D4AE, 0x1D4B5, 1); (0x1D4D0, 0x1D4E9, 1); (0x1D504, 0x1D505, 1);
    (0x1D507, 0x1D50A, 1); (0x1D50D, 0x1D514, 1); (0x1D516, 0x1D51C, 1);
    (0x1D538, 0x1D539, 1); (0x1D53B, 0x1D53E, 1); (0x1D540, 0x1D544, 1);
    (0x1D546, 0x1D546, 1); (0x1D54A, 0x1D550, 1); (0x1D56C, 0x1D585, 1);
    (0x1D5A0, 0x1D5B9, 1); (0x1D5D4, 0x1D5ED, 1); (0x1D608, 0x1D621, 1);
    (0x1D63C, 0x1D655, 1); (0x1D670, 0x1D689, 1); (0x1D6A8, 0x1D6C0, 1);
    (0x1D6E2, 0x1D6FA, 1); (0x1D71C, 0x1D734, 1); (0x1D756, 0x1D76E, 1);
    (0x1D790, 0x1D7A8, 1); (0x1D7CA, 0x1D7CA, 1); (0x1E900, 0x1E921, 1);
    (0x1F130, 0x1F149, 1); (0x1F150, 0x1F169, 1); (0x1F170, 0x1F189, 1) ]%N.

(** The characters with the property Cased, as runs (first, last, step). *)
Definition cased_runs : list (N * N * N) :=
  [ (0x41, 0x5A, 1); (0x61, 0x7A, 1); (0xAA, 0xAA, 1); (0xB5, 0xB5, 1);
    (0xBA, 0xBA, 1); (0xC0, 0xD6, 1); (0xD8, 0xF6, 1); (0xF8, 0x1BA, 1);
    (0x1BC, 0x1BF, 1); (0x1C4, 0x293, 1); (0x295, 0x2B8, 1);
    (0x2C0, 0x2C1, 1); (0x2E0, 0x2E4, 1); (0x345, 0x345, 1);
    (0x370, 0x373, 1); (0x376, 0x377, 1); (0x37A, 0x37D, 1);
    (0x37F, 0x37F, 1); (0x386, 0x386, 1); (0x388, 0x38A, 1);
    (0x38C, 0x38C, 1); (0x38E, 0x3A1, 1); (0x3A3, 0x3F5, 1);
    (0x3F7, 0x481, 1); (0x48A, 0x52F, 1); (0x531, 0x556, 1);
    (0x560, 0x588, 1); (0x10A0, 0x10C5, 1); (0x10C7, 0x10C7, 1);
    (0x10CD, 0x10CD, 1); (0x10D0, 0x10FA, 1); (0x10FD, 0x10FF, 1);
    (0x13A0, 0x13F5, 1); (0x13F8, 0x13FD, 1); (0x1C80, 0x1C88, 1);
    (0x1C90, 0x1CBA, 1); (0x1CBD, 0x1CBF, 1); (0x1D00, 0x1DBF, 1);
    (0x1E00, 0x1F15, 1); (0x1F18, 0x1F1D, 1); (0x1F20, 0x1F45, 1);
    (0x1F48, 0x1F4D, 1); (0x1F50, 0x1F57, 1); (0x1F59, 0x1F5F, 2);
    (0x1F60, 0x1F7D, 1); (0x1F80, 0x1FB4, 1); (0x1FB6, 0x1FBC, 1);
    (0x1FBE, 0x1FBE, 1); (0x1FC2, 0x1FC4, 1); (0x1FC6, 0x1FCC, 1);
    (0x1FD0, 0x1FD3, 1); (0x1FD6, 0x1FDB, 1); (0x1FE0, 0x1FEC, 1);
    (0x1FF2, 0x1FF4, 1); (0x1FF6, 0x1FFC, 1); (0x2071, 0x2071, 1);
    (0x207F, 0x207F, 1); (0x2090, 0x209C, 1); (0x2102, 0x2102, 1);
    (0x2107, 0x2107, 1); (0x210A, 0x2113, 1); (0x2115, 0x2115, 1);
    (0x2119, 0x211D, 1); (0x2124, 0x212A, 2); (0x212B, 0x212D, 1);
    (0x212F, 0x2134, 1); (0x2139, 0x2139, 1); (0x213C, 0x213F, 1);
    (0x2145, 0x2149, 1); (0x214E, 0x214E, 1); (0x2160, 0x217F, 1);
    (0x2183, 0x2184, 1); (0x24B6, 0x24E9, 1); (0x2C00, 0x2CE4, 1);
    (0x2CEB, 0x2CEE, 1); (0x2CF2, 0x2CF3, 1); (0x2D00, 0x2D25, 1);
    (0x2D27, 0x2D27, 1); (0x2D2D, 0x2D2D, 1); (0xA640, 0xA66D, 1);
    (0xA680, 0xA69D, 1); (0xA722, 0xA787, 1); (0xA78B, 0xA78E, 1);
    (0xA790, 0xA7CA, 1); (0xA7D0, 0xA7D1, 1); (0xA7D3, 0xA7D3, 1);
    (0xA7D5, 0xA7D9, 1); (0xA7F5, 0xA7F6, 1); (0xA7F8, 0xA7FA, 1);
    (0xAB30, 0xAB5A, 1); (0xAB5C, 0xAB68, 1); (0xAB70, 0xABBF, 1);
    (0xFB00, 0xFB06, 1); (0xFB13, 0xFB17, 1); (0xFF21, 0xFF3A, 1);
    (0xFF41, 0xFF5A, 1); (0x10400, 0x1044F, 1); (0x104B0, 0x104D3, 1);
    (0x104D8, 0x104FB, 1); (0x10570, 0x1057A, 1); (0x1057C, 0x1058A, 1);
    (0x1058C, 0x10592, 1); (0x10594, 0x10595, 1); (0x10597, 0x105A1, 1);
    (0x105A3, 0x105B1, 1); (0x105B3, 0x105B9, 1); (0x105BB, 0x105BC, 1);
    (0x10780, 0x10780, 1); (0x10783, 0x10785, 1); (0x10787, 0x107B0, 1);
    (0x107B2, 0x107BA, 1); (0x10C80, 0x10CB2, 1); (0x10CC0, 0x10CF2, 1);
    (0x118A0, 0x118DF, 1); (0x16E40, 0x16E7F, 1); (0x1D400, 0x1D454, 1);
    (0x1D456, 0x1D49C, 1); (0x1D49E, 0x1D49F, 1); (0x1D4A2, 0x1D4A2, 1);
    (0x1D4A5, 0x1D4A6, 1); (0x1D4A9, 0x1D4AC, 1); (0x1D4AE, 0x1D4B9, 1);
    (0x1D4BB, 0x1D4BB, 1); (0x1D4BD, 0x1D4C3, 1); (0x1D4C5, 0x1D505, 1);
    (0x1D507, 0x1D50A, 1); (0x1D50D, 0x1D514, 1); (0x1D516, 0x1D51C, 1);
    (0x1D51E, 0x1D539, 1); (0x1D53B, 0x1D53E, 1); (0x1D540, 0x1D544, 1);
    (0x1D546, 0x1D546, 1); (0x1D54A, 0x1D550, 1); (0x1D552, 0x1D6A5, 1);
    (0x1D6A8, 0x1D6C0, 1); (0x1D6C2, 0x1D6DA, 1); (0x1D6DC, 0x1D6FA, 1);
    (0x1D6FC, 0x1D714, 1); (0x1D716, 0x1D734, 1); (0x1D736, 0x1D74E, 1);
    (0x1D750, 0x1D76E, 1); (0x1D770, 0x1D788, 1); (0x1D78A, 0x1D7A8, 1);
    (0x1D7AA, 0x1D7C2, 1); (0x1D7C4, 0x1D7CB, 1); (0x1DF00, 0x1DF09, 1);
    (0x1DF0B, 0x1DF1E, 1); (0x1E900, 0x1E943, 1); (0x1F130, 0x1F149, 1);
    (0x1F150, 0x1F169, 1); (0x1F170, 0x1F189, 1) ]%N.

(** The ranges of the characters with the property Case_Ignorable. *)
Definition case_ignorable_ranges : list (N * N) :=
  [ (0x27, 0x27); (0x2E, 0x2E); (0x3A, 0x3A); (0x5E, 0x5E); (0x60, 0x60);
    (0xA8, 0xA8); (0xAD, 0xAD); (0xAF, 0xAF); (0xB4, 0xB4); (0xB7, 0xB8);
    (0x2B0, 0x36F); (0x374, 0x375); (0x37A, 0x37A); (0x384, 0x385);
    (0x387, 0x387); (0x483, 0x489); (0x559, 0x559); (0x55F, 0x55F);
    (0x591, 0x5BD); (0x5BF, 0x5BF); (0x5C1, 0x5C2); (0x5C4, 0x5C5);
    (0x5C7, 0x5C7); (0x5F4, 0x5F4); (0x600, 0x605); (0x610, 0x61A);
    (0x61C, 0x61C); (0x640, 0x640); (0x64B, 0x65F); (0x670, 0x670);
    (0x6D6, 0x6DD); (0x6DF, 0x6E8); (0x6EA, 0x6ED); (0x70F, 0x70F);
    (0x711, 0x711); (0x730, 0x74A); (0x7A6, 0x7B0); (0x7EB, 0x7F5);
    (0x7FA, 0x7FA); (0x7FD, 0x7FD); (0x816, 0x82D); (0x859, 0x85B);
    (0x888, 0x888); (0x890, 0x891); (0x898, 0x89F); (0x8C9, 0x902);
    (0x93A, 0x93A); (0x93C, 0x93C); (0x941, 0x948); (0x94D, 0x94D);
    (0x951, 0x957); (0x962, 0x963); (0x971, 0x971); (0x981, 0x981);
    (0x9BC, 0x9BC); (0x9C1, 0x9C4); (0x9CD, 0x9CD); (0x9E2, 0x9E3);
    (0x9FE, 0x9FE); (0xA01, 0xA02); (0xA3C, 0xA3C); (0xA41, 0xA42);
    (0xA47, 0xA48); (0xA4B, 0xA4D); (0xA51, 0xA51); (0xA70, 0xA71);
    (0xA75, 0xA75); (0xA81, 0xA82); (0xABC, 0xABC); (0xAC1, 0xAC5);
    (0xAC7, 0xAC8); (0xACD, 0xACD); (0xAE2, 0xAE3); (0xAFA, 0xAFF);
    (0xB01, 0xB01); (0xB3C, 0xB3C); (0xB3F, 0xB3F); (0xB41, 0xB44);
    (0xB4D, 0xB4D); (0xB55, 0xB56); (0xB62, 0xB63); (0xB82, 0xB82);
    (0xBC0, 0xBC0); (0xBCD, 0xBCD); (0xC00, 0xC00); (0xC04, 0xC04);
    (0xC3C, 0xC3C); (0xC3E, 0xC40); (0xC46, 0xC48); (0xC4A, 0xC4D);
    (0xC55, 0xC56); (0xC62, 0xC63); (0xC81, 0xC81); (0xCBC, 0xCBC);
    (0xCBF, 0xCBF); (0xCC6, 0xCC6); (0xCCC, 0xCCD); (0xCE2, 0xCE3);
    (0xD00, 0xD01); (0xD3B, 0xD3C); (0xD41, 0xD44); (0xD4D, 0xD4D);
    (0xD62, 0xD63); (0xD81, 0xD81); (0xDCA, 0xDCA); (0xDD2, 0xDD4);
    (0xDD6, 0xDD6); (0xE31, 0xE31); (0xE34, 0xE3A); (0xE46, 0xE4E);
    (0xEB1, 0xEB1); (0xEB4, 0xEBC); (0xEC6, 0xEC6); (0xEC8, 0xECD);
    (0xF18, 0xF19); (0xF35, 0xF35); (0xF37, 0xF37); (0xF39, 0xF39);
    (0xF71, 0xF7E); (0xF80, 0xF84); (0xF86, 0xF87); (0xF8D, 0xF97);
    (0xF99, 0xFBC); (0xFC6, 0xFC6); (0x102D, 0x1030); (0x1032, 0x1037);
    (0x1039, 0x103A); (0x103D, 0x103E); (0x1058, 0x1059); (0x105E, 0x1060);
    (0x1071, 0x1074); (0x1082, 0x1082); (0x1085, 0x1086); (0x108D, 0x108D);
    (0x109D, 0x109D); (0x10FC, 0x10FC); (0x135D, 0x135F); (0x1712, 0x1714);
    (0x1732, 0x1733); (0x1752, 0x1753); (0x1772, 0x1773); (0x17B4, 0x17B5);
    (0x17B7, 0x17BD); (0x17C6, 0x17C6); (0x17C9, 0x17D3); (0x17D7, 0x17D7);
    (0x17DD, 0x17DD); (0x180B, 0x180F); (0x1843, 0x1843); (0x1885, 0x1886);
    (0x18A9, 0x18A9); (0x1920, 0x1922); (0x1927, 0x1928); (0x1932, 0x1932);
    (0x1939, 0x193B); (0x1A17, 0x1A18); (0x1A1B, 0x1A1B); (0x1A56, 0x1A56);
    (0x1A58, 0x1A5E); (0x1A60, 0x1A60); (0x1A62, 0x1A62); (0x1A65, 0x1A6C);
    (0x1A73, 0x1A7C); (0x1A7F, 0x1A7F); (0x1AA7, 0x1AA7); (0x1AB0, 0x1ACE);
    (0x1B00, 0x1B03); (0x1B34, 0x1B34); (0x1B36, 0x1B3A); (0x1B3C, 0x1B3C);
    (0x1B42, 0x1B42); (0x1B6B, 0x1B73); (0x1B80, 0x1B81); (0x1BA2, 0x1BA5);
    (0x1BA8, 0x1BA9); (0x1BAB, 0x1BAD); (0x1BE6, 0x1BE6); (0x1BE8, 0x1BE9);
    (0x1BED, 0x1BED); (0x1BEF, 0x1BF1); (0x1C2C, 0x1C33); (0x1C36, 0x1C37);
    (0x1C78, 0x1C7D); (0x1CD0, 0x1CD2); (0x1CD4, 0x1CE0); (0x1CE2, 0x1CE8);
    (0x1CED, 0x1CED); (0x1CF4, 0x1CF4); (0x1CF8, 0x1CF9); (0x1D2C, 0x1D6A);
    (0x1D78, 0x1D78); (0x1D9B, 0x1DFF); (0x1FBD, 0x1FBD); (0x1FBF, 0x1FC1);
    (0x1FCD, 0x1FCF); (0x1FDD, 0x1FDF); (0x1FED, 0x1FEF); (0x1FFD, 0x1FFE);
    (0x200B, 0x200F); (0x2018, 0x2019); (0x2024, 0x2024); (0x2027, 0x2027);
    (0x202A, 0x202E); (0x2060, 0x2064); (0x2066, 0x206F); (0x2071, 0x2071);
    (0x207F, 0x207F); (0x2090, 0x209C); (0x20D0, 0x20F0); (0x2C7C, 0x2C7D);
    (0x2CEF, 0x2CF1); (0x2D6F, 0x2D6F); (0x2D7F, 0x2D7F); (0x2DE0, 0x2DFF);
    (0x2E2F, 0x2E2F); (0x3005, 0x3005); (0x302A, 0x302D); (0x3031, 0x3035);
    (0x303B, 0x303B); (0x3099, 0x309E); (0x30FC, 0x30FE); (0xA015, 0xA015);
    (0xA4F8, 0xA4FD); (0xA60C, 0xA60C); (0xA66F, 0xA672); (0xA674, 0xA67D);
    (0xA67F, 0xA67F); (0xA69C, 0xA69F); (0xA6F0, 0xA6F1); (0xA700, 0xA721);
    (0xA770, 0xA770); (0xA788, 0xA78A); (0xA7F2, 0xA7F4); (0xA7F8, 0xA7F9);
    (0xA802, 0xA802); (0xA806, 0xA806); (0xA80B, 0xA80B); (0xA825, 0xA826);
    (0xA82C, 0xA82C); (0xA8C4, 0xA8C5); (0xA8E0, 0xA8F1); (0xA8FF, 0xA8FF);
    (0xA926, 0xA92D); (0xA947, 0xA951); (0xA980, 0xA982); (0xA9B3, 0xA9B3);
    (0xA9B6, 0xA9B9); (0xA9BC, 0xA9BD); (0xA9CF, 0xA9CF); (0xA9E5, 0xA9E6);
    (0xAA29, 0xAA2E); (0xAA31, 0xAA32); (0xAA35, 0xAA36); (0xAA43, 0xAA43);
    (0xAA4C, 0xAA4C); (0xAA70, 0xAA70); (0xAA7C, 0xAA7C); (0xAAB0, 0xAAB0);
    (0xAAB2, 0xAAB4); (0xAAB7, 0xAAB8); (0xAABE, 0xAABF); (0xAAC1, 0xAAC1);
    (0xAADD, 0xAADD); (0xAAEC, 0xAAED); (0xAAF3, 0xAAF4); (0xAAF6, 0xAAF6);
    (0xAB5B, 0xAB5F); (0xAB69, 0xAB6B); (0xABE5, 0xABE5); (0xABE8, 0xABE8);
    (0xABED, 0xABED); (0xFB1E, 0xFB1E); (0xFBB2, 0xFBC2); (0xFE00, 0xFE0F);
    (0xFE13, 0xFE13); (0xFE20, 0xFE2F); (0xFE52, 0xFE52); (0xFE55, 0xFE55);
    (0xFEFF, 0xFEFF); (0xFF07, 0xFF07); (0xFF0E, 0xFF0E); (0xFF1A, 0xFF1A);
    (0xFF3E, 0xFF3E); (0xFF40, 0xFF40); (0xFF70, 0xFF70); (0xFF9E, 0xFF9F);
    (0xFFE3, 0xFFE3); (0xFFF9, 0xFFFB); (0x101FD, 0x101FD);
    (0x102E0, 0x102E0); (0x10376, 0x1037A); (0x10780, 0x10785);
    (0x10787, 0x107B0); (0x107B2, 0x107BA); (0x10A01, 0x10A03);
    (0x10A05, 0x10A06); (0x10A0C, 0x10A0F); (0x10A38, 0x10A3A);
    (0x10A3F, 0x10A3F); (0x10AE5, 0x10AE6); (0x10D24, 0x10D27);
    (0x10EAB, 0x10EAC); (0x10F46, 0x10F50); (0x10F82, 0x10F85);
    (0x11001, 0x11001); (0x11038, 0x11046); (0x11070, 0x11070);
    (0x11073, 0x11074); (0x1107F, 0x11081); (0x110B3, 0x110B6);
    (0x110B9, 0x110BA); (0x110BD, 0x110BD); (0x110C2, 0x110C2);
    (0x110CD, 0x110CD); (0x11100, 0x11102); (0x11127, 0x1112B);
    (0x1112D, 0x11134); (0x11173, 0x11173); (0x11180, 0x11181);
    (0x111B6, 0x111BE); (0x111C9, 0x111CC); (0x111CF, 0x111CF);
    (0x1122F, 0x11231); (0x11234, 0x11234); (0x11236, 0x11237);
    (0x1123E, 0x1123E); (0x112DF, 0x112DF); (0x112E3, 0x112EA);
    (0x11300, 0x11301); (0x1133B, 0x1133C); (0x11340, 0x11340);
    (0x11366, 0x1136C); (0x11370, 0x11374); (0x11438, 0x1143F);
    (0x11442, 0x11444); (0x11446, 0x11446); (0x1145E, 0x1145E);
    (0x114B3, 0x114B8); (0x114BA, 0x114BA); (0x114BF, 0x114C0);
    (0x114C2, 0x114C3); (0x115B2, 0x115B5); (0x115BC, 0x115BD);
    (0x115BF, 0x115C0); (0x115DC, 0x115DD); (0x11633, 0x1163A);
    (0x1163D, 0x1163D); (0x1163F, 0x11640); (0x116AB, 0x116AB);
    (0x116AD, 0x116AD); (0x116B0, 0x116B5); (0x116B7, 0x116B7);
    (0x1171D, 0x1171F); (0x11722, 0x11725); (0x11727, 0x1172B);
    (0x1182F, 0x11837); (0x11839, 0x1183A); (0x1193B, 0x1193C);
    (0x1193E, 0x1193E); (0x11943, 0x11943); (0x119D4, 0x119D7);
    (0x119DA, 0x119DB); (0x119E0, 0x119E0); (0x11A01, 0x11A0A);
    (0x11A33, 0x11A38); (0x11A3B, 0x11A3E); (0x11A47, 0x11A47);
    (0x11A51, 0x11A56); (0x11A59, 0x11A5B); (0x11A8A, 0x11A96);
    (0x11A98, 0x11A99); (0x11C30, 0x11C36); (0x11C38, 0x11C3D);
    (0x11C3F, 0x11C3F); (0x11C92, 0x11CA7); (0x11CAA, 0x11CB0);
    (0x11CB2, 0x11CB3); (0x11CB5, 0x11CB6); (0x11D31, 0x11D36);
    (0x11D3A, 0x11D3A); (0x11D3C, 0x11D3D); (0x11D3F, 0x11D45);
    (0x11D47, 0x11D47); (0x11D90, 0x11D91); (0x11D95, 0x11D95);
    (0x11D97, 0x11D97); (0x11EF3, 0x11EF4); (0x13430, 0x13438);
    (0x16AF0, 0x16AF4); (0x16B30, 0x16B36); (0x16B40, 0x16B43);
    (0x16F4F, 0x16F4F); (0x16F8F, 0x16F9F); (0x16FE0, 0x16FE1);
    (0x16FE3, 0x16FE4); (0x1AFF0, 0x1AFF3); (0x1AFF5, 0x1AFFB);
    (0x1AFFD, 0x1AFFE); (0x1BC9D, 0x1BC9E); (0x1BCA0, 0x1BCA3);
    (0x1CF00, 0x1CF2D); (0x1CF30, 0x1CF46); (0x1D167, 0x1D169);
    (0x1D173, 0x1D182); (0x1D185, 0x1D18B); (0x1D1AA, 0x1D1AD);
    (0x1D242, 0x1D244); (0x1DA00, 0x1DA36); (0x1DA3B, 0x1DA6C);
    (0x1DA75, 0x1DA75); (0x1DA84, 0x1DA84); (0x1DA9B, 0x1DA9F);
    (0x1DAA1, 0x1DAAF); (0x1E000, 0x1E006); (0x1E008, 0x1E018);
    (0x1E01B, 0x1E021); (0x1E023, 0x1E024); (0x1E026, 0x1E02A);
    (0x1E130, 0x1E13D); (0x1E2AE, 0x1E2AE); (0x1E2EC, 0x1E2EF);
    (0x1E8D0, 0x1E8D6); (0x1E944, 0x1E94B); (0x1F3FB, 0x1F3FF);
    (0xE0001, 0xE0001); (0xE0020, 0xE007F); (0xE0100, 0xE01EF) ]%N.

(** The lowercase mapping, as runs (first, last, step, image of the
    first): a character of the run maps to the image shifted by its
    distance to the first. *)
Definition lowercase_map : list (N * N * N * N) :=
  [ (0x41, 0x5A, 1, 0x61); (0xC0, 0xD6, 1, 0xE0); (0xD8, 0xDE, 1, 0xF8);
    (0x100, 0x12E, 2, 0x101); (0x132, 0x136, 2, 0x133);
    (0x139, 0x147, 2, 0x13A); (0x14A, 0x176, 2, 0x14B);
    (0x178, 0x178, 1, 0xFF); (0x179, 0x17D, 2, 0x17A);
    (0x181, 0x181, 1, 0x253); (0x182, 0x184, 2, 0x183);
    (0x186, 0x186, 1, 0x254); (0x187, 0x187, 1, 0x188);
    (0x189, 0x18A, 1, 0x256); (0x18B, 0x18B, 1, 0x18C);
    (0x18E, 0x18E, 1, 0x1DD); (0x18F, 0x18F, 1, 0x259);
    (0x190, 0x190, 1, 0x25B); (0x191, 0x191, 1, 0x192);
    (0x193, 0x193, 1, 0x260); (0x194, 0x194, 1, 0x263);
    (0x196, 0x196, 1, 0x269); (0x197, 0x197, 1, 0x268);
    (0x198, 0x198, 1, 0x199); (0x19C, 0x19C, 1, 0x26F);
    (0x19D, 0x19D, 1, 0x272); (0x19F, 0x19F, 1, 0x275);
    (0x1A0, 0x1A4, 2, 0x1A1); (0x1A6, 0x1A6, 1, 0x280);
    (0x1A7, 0x1A7, 1, 0x1A8); (0x1A9, 0x1A9, 1, 0x283);
    (0x1AC, 0x1AC, 1, 0x1AD); (0x1AE, 0x1AE, 1, 0x288);
    (0x1AF, 0x1AF, 1, 0x1B0); (0x1B1, 0x1B2, 1, 0x28A);
    (0x1B3, 0x1B5, 2, 0x1B4); (0x1B7, 0x1B7, 1, 0x292);
    (0x1B8, 0x1B8, 1, 0x1B9); (0x1BC, 0x1BC, 1, 0x1BD);
    (0x1C4, 0x1C4, 1, 0x1C6); (0x1C5, 0x1C5, 1, 0x1C6);
    (0x1C7, 0x1C7, 1, 0x1C9); (0x1C8, 0x1C8, 1, 0x1C9);
    (0x1CA, 0x1CA, 1, 0x1CC); (0x1CB, 0x1DB, 2, 0x1CC);
    (0x1DE, 0x1EE, 2, 0x1DF); (0x1F1, 0x1F1, 1, 0x1F3);
    (0x1F2, 0x1F4, 2, 0x1F3); (0x1F6, 0x1F6, 1, 0x195);
    (0x1F7, 0x1F7, 1, 0x1BF); (0x1F8, 0x21E, 2, 0x1F9);
    (0x220, 0x220, 1, 0x19E); (0x222, 0x232, 2, 0x223);
    (0x23A, 0x23A, 1, 0x2C65); (0x23B, 0x23B, 1, 0x23C);
    (0x23D, 0x23D, 1, 0x19A); (0x23E, 0x23E, 1, 0x2C66);
    (0x241, 0x241, 1, 0x242); (0x243, 0x243, 1, 0x180);
    (0x244, 0x244, 1, 0x289); (0x245, 0x245, 1, 0x28C);
    (0x246, 0x24E, 2, 0x247); (0x370, 0x372, 2, 0x371);
    (0x376, 0x376, 1, 0x377); (0x37F, 0x37F, 1, 0x3F3);
    (0x386, 0x386, 1, 0x3AC); (0x388, 0x38A, 1, 0x3AD);
    (0x38C, 0x38C, 1, 0x3CC); (0x38E, 0x38F, 1, 0x3CD);
    (0x391, 0x3A1, 1, 0x3B1); (0x3A3, 0x3AB, 1, 0x3C3);
    (0x3CF, 0x3CF, 1, 0x3D7); (0x3D8, 0x3EE, 2, 0x3D9);
    (0x3F4, 0x3F4, 1, 0x3B8); (0x3F7, 0x3F7, 1, 0x3F8);
    (0x3F9, 0x3F9, 1, 0x3F2); (0x3FA, 0x3FA, 1, 0x3FB);
    (0x3FD, 0x3FF, 1, 0x37B); (0x400, 0x40F, 1, 0x450);
    (0x410, 0x42F, 1, 0x430); (0x460, 0x480, 2, 0x461);
    (0x48A, 0x4BE, 2, 0x48B); (0x4C0, 0x4C0, 1, 0x4CF);
    (0x4C1, 0x4CD, 2, 0x4C2); (0x4D0, 0x52E, 2, 0x4D1);
    (0x531, 0x556, 1, 0x561); (0x10A0, 0x10C5, 1, 0x2D00);
    (0x10C7, 0x10C7, 1, 0x2D27); (0x10CD, 0x10CD, 1, 0x2D2D);
    (0x13A0, 0x13EF, 1, 0xAB70); (0x13F0, 0x13F5, 1, 0x13F8);
    (0x1C90, 0x1CBA, 1, 0x10D0); (0x1CBD, 0x1CBF, 1, 0x10FD);
    (0x1E00, 0x1E94, 2, 0x1E01); (0x1E9E, 0x1E9E, 1, 0xDF);
    (0x1EA0, 0x1EFE, 2, 0x1EA1); (0x1F08, 0x1F0F, 1, 0x1F00);
    (0x1F18, 0x1F1D, 1, 0x1F10); (0x1F28, 0x1F2F, 1, 0x1F20);
    (0x1F38, 0x1F3F, 1, 0x1F30); (0x1F48, 0x1F4D, 1, 0x1F40);
    (0x1F59, 0x1F5F, 2, 0x1F51); (0x1F68, 0x1F6F, 1, 0x1F60);
    (0x1F88, 0x1F8F, 1, 0x1F80); (0x1F98, 0x1F9F, 1, 0x1F90);
    (0x1FA8, 0x1FAF, 1, 0x1FA0); (0x1FB8, 0x1FB9, 1, 0x1FB0);
    (0x1FBA, 0x1FBB, 1, 0x1F70); (0x1FBC, 0x1FBC, 1, 0x1FB3);
    (0x1FC8, 0x1FCB, 1, 0x1F72); (0x1FCC, 0x1FCC, 1, 0x1FC3);
    (0x1FD8, 0x1FD9, 1, 0x1FD0); (0x1FDA, 0x1FDB, 1, 0x1F76);
    (0x1FE8, 0x1FE9, 1, 0x1FE0); (0x1FEA, 0x1FEB, 1, 0x1F7A);
    (0x1FEC, 0x1FEC, 1, 0x1FE5); (0x1FF8, 0x1FF9, 1, 0x1F78);
    (0x1FFA, 0x1FFB, 1, 0x1F7C); (0x1FFC, 0x1FFC, 1, 0x1FF3);
    (0x2126, 0x2126, 1, 0x3C9); (0x212A, 0x212A, 1, 0x6B);
    (0x212B, 0x212B, 1, 0xE5); (0x2132, 0x2132, 1, 0x214E);
    (0x2160, 0x216F, 1, 0x2170); (0x2183, 0x2183, 1, 0x2184);
    (0x24B6, 0x24CF, 1, 0x24D0); (0x2C00, 0x2C2F, 1, 0x2C30);
    (0x2C60, 0x2C60, 1, 0x2C61); (0x2C62, 0x2C62, 1, 0x26B);
    (0x2C63, 0x2C63, 1, 0x1D7D); (0x2C64, 0x2C64, 1, 0x27D);
    (0x2C67, 0x2C6B, 2, 0x2C68); (0x2C6D, 0x2C6D, 1, 0x251);
    (0x2C6E, 0x2C6E, 1, 0x271); (0x2C6F, 0x2C6F, 1, 0x250);
    (0x2C70, 0x2C70, 1, 0x252); (0x2C72, 0x2C72, 1, 0x2C73);
    (0x2C75, 0x2C75, 1, 0x2C76); (0x2C7E, 0x2C7F, 1, 0x23F);
    (0x2C80, 0x2CE2, 2, 0x2C81); (0x2CEB, 0x2CED, 2, 0x2CEC);
    (0x2CF2, 0x2CF2, 1, 0x2CF3); (0xA640, 0xA66C, 2, 0xA641);
    (0xA680, 0xA69A, 2, 0xA681); (0xA722, 0xA72E, 2, 0xA723);
    (0xA732, 0xA76E, 2, 0xA733); (0xA779, 0xA77B, 2, 0xA77A);
    (0xA77D, 0xA77D, 1, 0x1D79); (0xA77E, 0xA786, 2, 0xA77F);
    (0xA78B, 0xA78B, 1, 0xA78C); (0xA78D, 0xA78D, 1, 0x265);
    (0xA790, 0xA792, 2, 0xA791); (0xA796, 0xA7A8, 2, 0xA797);
    (0xA7AA, 0xA7AA, 1, 0x266); (0xA7AB, 0xA7AB, 1, 0x25C);
    (0xA7AC, 0xA7AC, 1, 0x261); (0xA7AD, 0xA7AD, 1, 0x26C);
    (0xA7AE, 0xA7AE, 1, 0x26A); (0xA7B0, 0xA7B0, 1, 0x29E);
    (0xA7B1, 0xA7B1, 1, 0x287); (0xA7B2, 0xA7B2, 1, 0x29D);
    (0xA7B3, 0xA7B3, 1, 0xAB53); (0xA7B4, 0xA7C2, 2, 0xA7B5);
    (0xA7C4, 0xA7C4, 1, 0xA794); (0xA7C5, 0xA7C5, 1, 0x282);
    (0xA7C6, 0xA7C6, 1, 0x1D8E); (0xA7C7, 0xA7C9, 2, 0xA7C8);
    (0xA7D0, 0xA7D0, 1, 0xA7D1); (0xA7D6, 0xA7D8, 2, 0xA7D7);
    (0xA7F5, 0xA7F5, 1, 0xA7F6); (0xFF21, 0xFF3A, 1, 0xFF41);
    (0x10400, 0x10427, 1, 0x10428); (0x104B0, 0x104D3, 1, 0x104D8);
    (0x10570, 0x1057A, 1, 0x10597); (0x1057C, 0x1058A, 1, 0x105A3);
    (0x1058C, 0x10592, 1, 0x105B3); (0x10594, 0x10595, 1, 0x105BB);
    (0x10C80, 0x10CB2, 1, 0x10CC0); (0x118A0, 0x118BF, 1, 0x118C0);
    (0x16E40, 0x16E5F, 1, 0x16E60); (0x1E900, 0x1E921, 1, 0x1E922) ]%N.

(** The uppercase mapping of one character to one character, as runs. *)
Definition uppercase_map : list (N * N * N * N) :=
  [ (0x61, 0x7A, 1, 0x41); (0xB5, 0xB5, 1, 0x39C); (0xE0, 0xF6, 1, 0xC0);
    (0xF8, 0xFE, 1, 0xD8); (0xFF, 0xFF, 1, 0x178); (0x101, 0x12F, 2, 0x100);
    (0x131, 0x131, 1, 0x49); (0x133, 0x137, 2, 0x132);
    (0x13A, 0x148, 2, 0x139); (0x14B, 0x177, 2, 0x14A);
    (0x17A, 0x17E, 2, 0x179); (0x17F, 0x17F, 1, 0x53);
    (0x180, 0x180, 1, 0x243); (0x183, 0x185, 2, 0x182);
    (0x188, 0x188, 1, 0x187); (0x18C, 0x18C, 1, 0x18B);
    (0x192, 0x192, 1, 0x191); (0x195, 0x195, 1, 0x1F6);
    (0x199, 0x199, 1, 0x198); (0x19A, 0x19A, 1, 0x23D);
    (0x19E, 0x19E, 1, 0x220); (0x1A1, 0x1A5, 2, 0x1A0);
    (0x1A8, 0x1A8, 1, 0x1A7); (0x1AD, 0x1AD, 1, 0x1AC);
    (0x1B0, 0x1B0, 1, 0x1AF); (0x1B4, 0x1B6, 2, 0x1B3);
    (0x1B9, 0x1B9, 1, 0x1B8); (0x1BD, 0x1BD, 1, 0x1BC);
    (0x1BF, 0x1BF, 1, 0x1F7); (0x1C5, 0x1C5, 1, 0x1C4);
    (0x1C6, 0x1C6, 1, 0x1C4); (0x1C8, 0x1C8, 1, 0x1C7);
    (0x1C9, 0x1C9, 1, 0x1C7); (0x1CB, 0x1CB, 1, 0x1CA);
    (0x1CC, 0x1CC, 1, 0x1CA); (0x1CE, 0x1DC, 2, 0x1CD);
    (0x1DD, 0x1DD, 1, 0x18E); (0x1DF, 0x1EF, 2, 0x1DE);
    (0x1F2, 0x1F2, 1, 0x1F1); (0x1F3, 0x1F3, 1, 0x1F1);
    (0x1F5, 0x1F5, 1, 0x1F4); (0x1F9, 0x21F, 2, 0x1F8);
    (0x223, 0x233, 2, 0x222); (0x23C, 0x23C, 1, 0x23B);
    (0x23F, 0x240, 1, 0x2C7E); (0x242, 0x242, 1, 0x241);
    (0x247, 0x24F, 2, 0x246); (0x250, 0x250, 1, 0x2C6F);
    (0x251, 0x251, 1, 0x2C6D); (0x252, 0x252, 1, 0x2C70);
    (0x253, 0x253, 1, 0x181); (0x254, 0x254, 1, 0x186);
    (0x256, 0x257, 1, 0x189); (0x259, 0x259, 1, 0x18F);
    (0x25B, 0x25B, 1, 0x190); (0x25C, 0x25C, 1, 0xA7AB);
    (0x260, 0x260, 1, 0x193); (0x261, 0x261, 1, 0xA7AC);
    (0x263, 0x263, 1, 0x194); (0x265, 0x265, 1, 0xA78D);
    (0x266, 0x266, 1, 0xA7AA); (0x268, 0x268, 1, 0x197);
    (0x269, 0x269, 1, 0x196); (0x26A, 0x26A, 1, 0xA7AE);
    (0x26B, 0x26B, 1, 0x2C62); (0x26C, 0x26C, 1, 0xA7AD);
    (0x26F, 0x26F, 1, 0x19C); (0x271, 0x271, 1, 0x2C6E);
    (0x272, 0x272, 1, 0x19D); (0x275, 0x275, 1, 0x19F);
    (0x27D, 0x27D, 1, 0x2C64); (0x280, 0x280, 1, 0x1A6);
    (0x282, 0x282, 1, 0xA7C5); (0x283, 0x283, 1, 0x1A9);
    (0x287, 0x287, 1, 0xA7B1); (0x288, 0x288, 1, 0x1AE);
    (0x289, 0x289, 1, 0x244); (0x28A, 0x28B, 1, 0x1B1);
    (0x28C, 0x28C, 1, 0x245); (0x292, 0x292, 1, 0x1B7);
    (0x29D, 0x29D, 1, 0xA7B2); (0x29E, 0x29E, 1, 0xA7B0);
    (0x345, 0x345, 1, 0x399); (0x371, 0x373, 2, 0x370);
    (0x377, 0x377, 1, 0x376); (0x37B, 0x37D, 1, 0x3FD);
    (0x3AC, 0x3AC, 1, 0x386); (0x3AD, 0x3AF, 1, 0x388);
    (0x3B1, 0x3C1, 1, 0x391); (0x3C2, 0x3C2, 1, 0x3A3);
    (0x3C3, 0x3CB, 1, 0x3A3); (0x3CC, 0x3CC, 1, 0x38C);
    (0x3CD, 0x3CE, 1, 0x38E); (0x3D0, 0x3D0, 1, 0x392);
    (0x3D1, 0x3D1, 1, 0x398); (0x3D5, 0x3D5, 1, 0x3A6);
    (0x3D6, 0x3D6, 1, 0x3A0); (0x3D7, 0x3D7, 1, 0x3CF);
    (0x3D9, 0x3EF, 2, 0x3D8); (0x3F0, 0x3F0, 1, 0x39A);
    (0x3F1, 0x3F1, 1, 0x3A1); (0x3F2, 0x3F2, 1, 0x3F9);
    (0x3F3, 0x3F3, 1, 0x37F); (0x3F5, 0x3F5, 1, 0x395);
    (0x3F8, 0x3F8, 1, 0x3F7); (0x3FB, 0x3FB, 1, 0x3FA);
    (0x430, 0x44F, 1, 0x410); (0x450, 0x45F, 1, 0x400);
    (0x461, 0x481, 2, 0x460); (0x48B, 0x4BF, 2, 0x48A);
    (0x4C2, 0x4CE, 2, 0x4C1); (0x4CF, 0x4CF, 1, 0x4C0);
    (0x4D1, 0x52F, 2, 0x4D0); (0x561, 0x586, 1, 0x531);
    (0x10D0, 0x10FA, 1, 0x1C90); (0x10FD, 0x10FF, 1, 0x1CBD);
    (0x13F8, 0x13FD, 1, 0x13F0); (0x1C80, 0x1C80, 1, 0x412);
    (0x1C81, 0x1C81, 1, 0x414); (0x1C82, 0x1C82, 1, 0x41E);
    (0x1C83, 0x1C84, 1, 0x421); (0x1C85, 0x1C85, 1, 0x422);
    (0x1C86, 0x1C86, 1, 0x42A); (0x1C87, 0x1C87, 1, 0x462);
    (0x1C88, 0x1C88, 1, 0xA64A); (0x1D79, 0x1D79, 1, 0xA77D);
    (0x1D7D, 0x1D7D, 1, 0x2C63); (0x1D8E, 0x1D8E, 1, 0xA7C6);
    (0x1E01, 0x1E95, 2, 0x1E00); (0x1E9B, 0x1E9B, 1, 0x1E60);
    (0x1EA1, 0x1EFF, 2, 0x1EA0); (0x1F00, 0x1F07, 1, 0x1F08);
    (0x1F10, 0x1F15, 1, 0x1F18); (0x1F20, 0x1F27, 1, 0x1F28);
    (0x1F30, 0x1F37, 1, 0x1F38); (0x1F40, 0x1F45, 1, 0x1F48);
    (0x1F51, 0x1F57, 2, 0x1F59); (0x1F60, 0x1F67, 1, 0x1F68);
    (0x1F70, 0x1F71, 1, 0x1FBA); (0x1F72, 0x1F75, 1, 0x1FC8);
    (0x1F76, 0x1F77, 1, 0x1FDA); (0x1F78, 0x1F79, 1, 0x1FF8);
    (0x1F7A, 0x1F7B, 1, 0x1FEA); (0x1F7C, 0x1F7D, 1, 0x1FFA);
    (0x1FB0, 0x1FB1, 1, 0x1FB8); (0x1FBE, 0x1FBE, 1, 0x399);
    (0x1FD0, 0x1FD1, 1, 0x1FD8); (0x1FE0, 0x1FE1, 1, 0x1FE8);
    (0x1FE5, 0x1FE5, 1, 0x1FEC); (0x214E, 0x214E, 1, 0x2132);
    (0x2170, 0x217F, 1, 0x2160); (0x2184, 0x2184, 1, 0x2183);
    (0x24D0, 0x24E9, 1, 0x24B6); (0x2C30, 0x2C5F, 1, 0x2C00);
    (0x2C61, 0x2C61, 1, 0x2C60); (0x2C65, 0x2C65, 1, 0x23A);
    (0x2C66, 0x2C66, 1, 0x23E); (0x2C68, 0x2C6C, 2, 0x2C67);
    (0x2C73, 0x2C73, 1, 0x2C72); (0x2C76, 0x2C76, 1, 0x2C75);
    (0x2C81, 0x2CE3, 2, 0x2C80); (0x2CEC, 0x2CEE, 2, 0x2CEB);
    (0x2CF3, 0x2CF3, 1, 0x2CF2); (0x2D00, 0x2D25, 1, 0x10A0);
    (0x2D27, 0x2D27, 1, 0x10C7); (0x2D2D, 0x2D2D, 1, 0x10CD);
    (0xA641, 0xA66D, 2, 0xA640); (0xA681, 0xA69B, 2, 0xA680);
    (0xA723, 0xA72F, 2, 0xA722); (0xA733, 0xA76F, 2, 0xA732);
    (0xA77A, 0xA77C, 2, 0xA779); (0xA77F, 0xA787, 2, 0xA77E);
    (0xA78C, 0xA78C, 1, 0xA78B); (0xA791, 0xA793, 2, 0xA790);
    (0xA794, 0xA794, 1, 0xA7C4); (0xA797, 0xA7A9, 2, 0xA796);
    (0xA7B5, 0xA7C3, 2, 0xA7B4); (0xA7C8, 0xA7CA, 2, 0xA7C7);
    (0xA7D1, 0xA7D1, 1, 0xA7D0); (0xA7D7, 0xA7D9, 2, 0xA7D6);
    (0xA7F6, 0xA7F6, 1, 0xA7F5); (0xAB53, 0xAB53, 1, 0xA7B3);
    (0xAB70, 0xABBF, 1, 0x13A0); (0xFF41, 0xFF5A, 1, 0xFF21);
    (0x10428, 0x1044F, 1, 0x10400); (0x104D8, 0x104FB, 1, 0x104B0);
    (0x10597, 0x105A1, 1, 0x10570); (0x105A3, 0x105B1, 1, 0x1057C);
    (0x105B3, 0x105B9, 1, 0x1058C); (0x105BB, 0x105BC, 1, 0x10594);
    (0x10CC0, 0x10CF2, 1, 0x10C80); (0x118C0, 0x118DF, 1, 0x118A0);
    (0x16E60, 0x16E7F, 1, 0x16E40); (0x1E922, 0x1E943, 1, 0x1E900) ]%N.

(** The characters whose uppercase form has two or three characters. *)
Definition uppercase_special : list (N * list N) :=
  [ (0xDF, [0x53; 0x53]); (0x149, [0x2BC; 0x4E]); (0x1F0, [0x4A; 0x30C]);
    (0x390, [0x399; 0x308; 0x301]); (0x3B0, [0x3A5; 0x308; 0x301]);
    (0x587, [0x535; 0x552]); (0x1E96, [0x48; 0x331]);
    (0x1E97, [0x54; 0x308]); (0x1E98, [0x57; 0x30A]);
    (0x1E99, [0x59; 0x30A]); (0x1E9A, [0x41; 0x2BE]);
    (0x1F50, [0x3A5; 0x313]); (0x1F52, [0x3A5; 0x313; 0x300]);
    (0x1F54, [0x3A5; 0x313; 0x301]); (0x1F56, [0x3A5; 0x313; 0x342]);
    (0x1F80, [0x1F08; 0x399]); (0x1F81, [0x1F09; 0x399]);
    (0x1F82, [0x1F0A; 0x399]); (0x1F83, [0x1F0B; 0x399]);
    (0x1F84, [0x1F0C; 0x399]); (0x1F85, [0x1F0D; 0x399]);
    (0x1F86, [0x1F0E; 0x399]); (0x1F87, [0x1F0F; 0x399]);
    (0x1F88, [0x1F08; 0x399]); (0x1F89, [0x1F09; 0x399]);
    (0x1F8A, [0x1F0A; 0x399]); (0x1F8B, [0x1F0B; 0x399]);
    (0x1F8C, [0x1F0C; 0x399]); (0x1F8D, [0x1F0D; 0x399]);
    (0x1F8E, [0x1F0E; 0x399]); (0x1F8F, [0x1F0F; 0x399]);
    (0x1F90, [0x1F28; 0x399]); (0x1F91, [0x1F29; 0x399]);
    (0x1F92, [0x1F2A; 0x399]); (0x1F93, [0x1F2B; 0x399]);
    (0x1F94, [0x1F2C; 0x399]); (0x1F95, [0x1F2D; 0x399]);
    (0x1F96, [0x1F2E; 0x399]); (0x1F97, [0x1F2F; 0x399]);
    (0x1F98, [0x1F28; 0x399]); (0x1F99, [0x1F29; 0x399]);
    (0x1F9A, [0x1F2A; 0x399]); (0x1F9B, [0x1F2B; 0x399]);
    (0x1F9C, [0x1F2C; 0x399]); (0x1F9D, [0x1F2D; 0x399]);
    (0x1F9E, [0x1F2E; 0x399]); (0x1F9F, [0x1F2F; 0x399]);
    (0x1FA0, [0x1F68; 0x399]); (0x1FA1, [0x1F69; 0x399]);
    (0x1FA2, [0x1F6A; 0x399]); (0x1FA3, [0x1F6B; 0x399]);
    (0x1FA4, [0x1F6C; 0x399]); (0x1FA5, [0x1F6D; 0x399]);
    (0x1FA6, [0x1F6E; 0x399]); (0x1FA7, [0x1F6F; 0x399]);
    (0x1FA8, [0x1F68; 0x399]); (0x1FA9, [0x1F69; 0x399]);
    (0x1FAA, [0x1F6A; 0x399]); (0x1FAB, [0x1F6B; 0x399]);
    (0x1FAC, [0x1F6C; 0x399]); (0x1FAD, [0x1F6D; 0x399]);
    (0x1FAE, [0x1F6E; 0x399]); (0x1FAF, [0x1F6F; 0x399]);
    (0x1FB2, [0x1FBA; 0x399]); (0x1FB3, [0x391; 0x399]);
    (0x1FB4, [0x386; 0x399]); (0x1FB6, [0x391; 0x342]);
    (0x1FB7, [0x391; 0x342; 0x399]); (0x1FBC, [0x391; 0x399]);
    (0x1FC2, [0x1FCA; 0x399]); (0x1FC3, [0x397; 0x399]);
    (0x1FC4, [0x389; 0x399]); (0x1FC6, [0x397; 0x342]);
    (0x1FC7, [0x397; 0x342; 0x399]); (0x1FCC, [0x397; 0x399]);
    (0x1FD2, [0x399; 0x308; 0x300]); (0x1FD3, [0x399; 0x308; 0x301]);
    (0x1FD6, [0x399; 0x342]); (0x1FD7, [0x399; 0x308; 0x342]);
    (0x1FE2, [0x3A5; 0x308; 0x300]); (0x1FE3, [0x3A5; 0x308; 0x301]);
    (0x1FE4, [0x3A1; 0x313]); (0x1FE6, [0x3A5; 0x342]);
    (0x1FE7, [0x3A5; 0x308; 0x342]); (0x1FF2, [0x1FFA; 0x399]);
    (0x1FF3, [0x3A9; 0x399]); (0x1FF4, [0x38F; 0x399]);
    (0x1FF6, [0x3A9; 0x342]); (0x1FF7, [0x3A9; 0x342; 0x399]);
    (0x1FFC, [0x3A9; 0x399]); (0xFB00, [0x46; 0x46]);
    (0xFB01, [0x46; 0x49]); (0xFB02, [0x46; 0x4C]);
    (0xFB03, [0x46; 0x46; 0x49]); (0xFB04, [0x46; 0x46; 0x4C]);
    (0xFB05, [0x53; 0x54]); (0xFB06, [0x53; 0x54]);
    (0xFB13, [0x544; 0x546]); (0xFB14, [0x544; 0x535]);
    (0xFB15, [0x544; 0x53B]); (0xFB16, [0x54E; 0x546]);
    (0xFB17, [0x544; 0x53D]) ]%N.

Definition mem (c : char) (s : str) : bool := existsb (N.eqb c) s.

(** [c.isdigit()] *)
Definition isdigit (c : char) : bool := in_ranges digit_ranges c.

(** The value of a decimal digit. *)
Fixpoint decimal_in (zeros : list N) (c : char) : option Z :=
  match zeros with
  | [] => None
  | z :: zeros' =>
    if in_range z (z + 9) c then Some (Z.of_N (c - z))
    else decimal_in zeros' c
  end.

Definition decimal (c : char) : option Z := decimal_in decimal_zeros c.

(** [c.isspace()], which is also what [\s] matches in a [str] pattern. *)
Definition isspace (c : char) : bool :=
  in_range 0x09 0x0D c || in_range 0x1C 0x20 c
  || (c =? 0x85)%N || (c =? 0xA0)%N || (c =? 0x1680)%N
  || in_range 0x2000 0x200A c || (c =? 0x2028)%N || (c =? 0x2029)%N
  || (c =? 0x202F)%N || (c =? 0x205F)%N || (c =? 0x3000)%N.

(** [c.isupper()] for a one-character string *)
Definition isupper (c : char) : bool := in_runs uppercase_runs c.

Definition cased (c : char) : bool := in_runs cased_runs c.
Definition case_ignorable (c : char) : bool :=
  in_ranges case_ignorable_ranges c.

(** The lowercase form of one character out of context: one character,
    but for the capital I with a dot above, which gives an i and a
    combining dot. *)
Definition lower_char (c : char) : str :=
  if (c =? 0x130)%N then [0x69; 0x307]%N
  else [default c (image lowercase_map c)].

Fixpoint skip_ignorable (s : str) : str :=
  match s with
  | c :: s' => if case_ignorable c then skip_ignorable s' else s
  | [] => []
  end.

(** A capital sigma is final when a cased character stands before it,
    and none after it, characters that case ignores being skipped on
    both sides.  [before] is the text before the sigma, read backwards. *)
Definition final_sigma (before after : str) : bool :=
  match skip_ignorable before with
  | c :: _ =>
    cased c && match skip_ignorable after with
               | d :: _ => negb (cased d)
               | [] => true
               end
  | [] => false
  end.

(** [s.lower()]: character by character, the capital sigma by its
    context. *)
Fixpoint lower_from (before s : str) : str :=
  match s with
  | [] => []
  | c :: s' =>
    (if (c =? 0x3A3)%N
     then [if final_sigma before s' then 0x3C2%N else 0x3C3%N]
     else lower_char c) ++ lower_from (c :: before) s'
  end.

Definition lower_str (s : str) : str := lower_from [] s.

(** [s.upper()]: character by character, some characters giving two or
    three. *)
Definition upper_char (c : char) : str :=
  match assoc uppercase_special c with
  | Some cs => cs
  | None => [default c (image uppercase_map c)]
  end.

Definition upper_str (s : str) : str := flat_map upper_char s.

(** *** Sequence operations *)

(** [s.split(sep)] for a one-character separator: never empty, keeps the
    empty pieces. *)
Fixpoint split (sep : char) (s : str) : list str :=
  match s with
  | [] => [[]]
  | c :: s' =>
    if (c =? sep)%N then [] :: split sep s'
    else match split sep s' with
         | w :: ws => (c :: w) :: ws
         | [] => [[c]]
         end
  end.

(** [sep.join(l)] *)
Fixpoint join (sep : str) (l : list str) : str :=
  match l with
  | [] => []
  | [w] => w
  | w :: ws => w ++ sep ++ join sep ws
  end.

(** [s.replace(ab, r)] for a two-character [ab] and a one-character [r]:
    the occurrences are taken left to right and do not overlap. *)
Fixpoint replace2 (a b r : char) (s : str) : str :=
  match s with
  | x :: ((y :: s') as t) =>
    if ((x =? a) && (y =? b))%N then r :: replace2 a b r s'
    else x :: replace2 a b r t
  | _ => s
  end.

(** [ab in s] for a two-character [ab]. *)
Fixpoint contains2 (a b : char) (s : str) : bool :=
  match s with
  | x :: ((y :: _) as t) => ((x =? a) && (y =? b))%N || contains2 a b t
  | _ => false
  end.

(** [s.find(c)]: the first index of [c], or -1. *)
Fixpoint find (c : char) (s : str) : Z :=
  match s with
  | [] => -1
  | x :: s' =>
    if (x =? c)%N then 0
    else let i := find c s' in if i <? 0 then -1 else i + 1
  end.

(** [s.strip()] *)
Fixpoint lstrip (s : str) : str :=
  match s with
  | c :: s' => if isspace c then lstrip s' else s
  | [] => []
  end.

Definition strip (s : str) : str := rev (lstrip (rev (lstrip s))).

(** [x in s] on strings: [x] occurs in [s] as a piece. *)
Fixpoint prefix_of (x s : str) : bool :=
  match x, s with
  | [], _ => true
  | a :: x', b :: s' => (a =? b)%N && prefix_of x' s'
  | _ :: _, [] => false
  end.

Fixpoint str_in (x s : str) : bool :=
  prefix_of x s
  || match s with
     | _ :: s' => str_in x s'
     | [] => false
     end.

(** [int(s)] in base 10; [None] is [ValueError].  The text is trimmed of
    white space (the ASCII separators U+001C to U+001F do not count as
    such here); what is left is an optional sign and decimal digits of
    any script, with single underscores allowed between digits, and no
    more digits than the limit of the interpreter. *)
Definition int_space (c : char) : bool :=
  isspace c && negb (in_range 0x1C 0x1F c).

Fixpoint lstrip_by (p : char -> bool) (s : str) : str :=
  match s with
  | c :: s' => if p c then lstrip_by p s' else s
  | [] => []
  end.

Definition strip_by (p : char -> bool) (s : str) : str :=
  rev (lstrip_by p (rev (lstrip_by p s))).

Definition int_max_str_digits : nat := 4300.

Fixpoint digits_value (acc : Z) (count : nat) (after_digit : bool)
    (s : str) : option Z :=
  match s with
  | [] =>
    if after_digit && (count <=? int_max_str_digits)%nat then Some acc
    else None
  | c :: s' =>
    match decimal c with
    | Some d => digits_value (acc * 10 + d) (S count) true s'
    | None =>
      if (c =? 0x5F)%N && after_digit then digits_value acc count false s'
      else None
    end
  end.

Definition py_int (s : str) : option Z :=
  match strip_by int_space s with
  | c :: digits =>
    if (c =? 0x2B)%N then digits_value 0 0 false digits
    else if (c =? 0x2D)%N
         then option_map Z.opp (digits_value 0 0 false digits)
         else digits_value 0 0 false (c :: digits)
  | [] => None
  end.

(** [int(c)] for a one-character string *)
Definition int_of_char (c : char) : option Z := py_int [c].

(** [s[start:end]] on any sequence, with Python's treatment of negative
    and out-of-range bounds: a negative bound counts from the end, and
    both are clamped into [0, len]. *)
Definition slice_bound (len i : Z) : Z :=
  if i <? 0 then Z.max (i + len) 0 else Z.min i len.

Definition slice {A} (l : list A) (start stop : Z) : list A :=
  let len := Z.of_nat (length l) in
  let lo := slice_bound len start in
  let hi := slice_bound len stop in
  firstn (Z.to_nat (hi - lo)) (skipn (Z.to_nat lo) l).

End PyStr.

(* ===================================================================== *)
(** ** convert.py                                                         *)
(* ===================================================================== *)

Module Convert.
Import PyStr.

(** The [tone_marks] dictionary: base vowel, then its glyphs for tones
    1 to 4 and the unmarked glyph.
    a: ā á ǎ à a, e: ē é ě è e, i: ī í ǐ ì i, o: ō ó ǒ ò o,
    u: ū ú ǔ ù u, v and ü: ǖ ǘ ǚ ǜ ü. *)
Definition tone_marks : list (str * str) :=
  [ ([0x61], [0x101; 0xE1; 0x1CE; 0xE0; 0x61]);
    ([0x65], [0x113; 0xE9; 0x11B; 0xE8; 0x65]);
    ([0x69], [0x12B; 0xED; 0x1D0; 0xEC; 0x69]);
    ([0x6F], [0x14D; 0xF3; 0x1D2; 0xF2; 0x6F]);
    ([0x75], [0x16B; 0xFA; 0x1D4; 0xF9; 0x75]);
    ([0x76], [0x1D6; 0x1D8; 0x1DA; 0x1DC; 0xFC]);
    ([0xFC], [0x1D6; 0x1D8; 0x1DA; 0x1DC; 0xFC]) ]%N.

(** [tone_marks[key]] when [key in tone_marks]. *)
Fixpoint lookup_marks (key : str) (tbl : list (str * str)) : option str :=
  match tbl with
  | [] => None
  | (k, v) :: tbl' => if eqb k key then Some v else lookup_marks key tbl'
  end.

(** ['aeiouvü'] *)
Definition vowels : str := [0x61; 0x65; 0x69; 0x6F; 0x75; 0x76; 0xFC]%N.

(** The loop [for i in range(len(base) - 1, -1, -1)] that stops at the
    first [base[i].lower() in vowels]; [n] is the number of indices left
    to visit, and the result is -1 when the loop runs out. *)
Fixpoint scan_last_vowel (base : str) (n : nat) : Z :=
  match n with
  | O => -1
  | S i =>
    match nth_error base i with
    | Some c => if str_in (lower_str [c]) vowels then Z.of_nat i
                else scan_last_vowel base i
    | None => scan_last_vowel base i
    end
  end.

(** The index to mark: 'a', else 'e', else the 'o' found when 'ou'
    occurs, else the last vowel; -1 when there is none. *)
Definition idx_to_mark (base : str) : Z :=
  if mem 0x61%N base then find 0x61%N base
  else if mem 0x65%N base then find 0x65%N base
  else if contains2 0x6F%N 0x75%N base then find 0x6F%N base
  else scan_last_vowel base (length base).

(** The substitution at a found index. *)
Definition mark_at (base : str) (idx : Z) (tone : Z) : str :=
  match nth_error base (Z.to_nat idx) with
  | None => base
  | Some c =>
    let lower_char := lower_str [c] in
    match lookup_marks lower_char tone_marks with
    | None => base
    | Some glyphs =>
      let replacement := [nth (Z.to_nat (tone - 1)) glyphs 0%N] in
      let replacement := if isupper c then upper_str replacement
                         else replacement in
      firstn (Z.to_nat idx) base ++ replacement
        ++ skipn (Z.to_nat (idx + 1)) base
    end
  end.

(** The tone number and the base of a non-empty [word]. *)
Definition tone_and_base (word : str) : Z * str :=
  if isdigit (List.last word 0%N) then
    match int_of_char (List.last word 0%N) with
    | Some tone => (tone, removelast word)
    | None => (5, word)
    end
  else (5, word).

(** The two replacements of ['u:'] and ['U:'] by the umlaut letters. *)
Definition rewrite_u_colon (base : str) : str :=
  replace2 0x55%N 0x3A%N 0xDC%N (replace2 0x75%N 0x3A%N 0xFC%N base).

(** The body of the loop of [decode_pinyin] for a non-empty [word]: what
    is appended to [new_words]. *)
Definition decode_syllable (word : str) : str :=
  let '(tone, base) := tone_and_base word in
  let base := rewrite_u_colon base in
  if (tone <? 1) || (tone >? 5) then word
  else if tone =? 5 then base
  else
    let idx := idx_to_mark base in
    if negb (idx =? -1) then mark_at base idx tone else base.

(** One turn of the loop: [None] when the word is empty and skipped. *)
Definition decode_word (word : str) : option str :=
  match word with
  | [] => None
  | _ => Some (decode_syllable word)
  end.

Fixpoint decode_words (words : list str) : list str :=
  match words with
  | [] => []
  | word :: rest =>
    match decode_word word with
    | Some w => w :: decode_words rest
    | None => decode_words rest
    end
  end.

Definition decode_pinyin (s : str) : str :=
  join [0x20%N] (decode_words (split 0x20%N s)).

(** *** The pattern of [parse_line]

    [re.match] tries the alternatives of a backtracking matcher in
    order: a greedy repetition tries the longest run first, a lazy one
    the shortest.  Each combinator takes the rest of the pattern as a
    continuation on (text matched, text left). *)

Section Matcher.
Context {R : Type}.

(** [p*], greedy *)
Fixpoint star_greedy (p : char -> bool) (k : str -> str -> option R)
    (taken s : str) : option R :=
  match s with
  | c :: s' =>
    if p c then
      match star_greedy p k (taken ++ [c]) s' with
      | Some r => Some r
      | None => k taken s
      end
    else k taken s
  | [] => k taken s
  end.

(** [p+], greedy *)
Definition plus_greedy (p : char -> bool) (k : str -> str -> option R)
    (s : str) : option R :=
  match s with
  | c :: s' => if p c then star_greedy p k [c] s' else None
  | [] => None
  end.

(** [p*?], lazy *)
Fixpoint star_lazy (p : char -> bool) (k : str -> str -> option R)
    (taken s : str) : option R :=
  match k taken s with
  | Some r => Some r
  | None =>
    match s with
    | c :: s' => if p c then star_lazy p k (taken ++ [c]) s' else None
    | [] => None
    end
  end.

(** a literal character *)
Definition lit (c : char) (k : str -> option R) (s : str) : option R :=
  match s with
  | x :: s' => if (x =? c)%N then k s' else None
  | [] => None
  end.
End Matcher.

Definition re_space : char -> bool := isspace.
Definition re_nonspace (c : char) : bool := negb (isspace c).
(** [.] matches anything but a newline *)
Definition re_dot (c : char) : bool := negb (c =? 0x0A)%N.

(** The [re.match] of [parse_line]: a group of non-spaces, spaces, a group
    of non-spaces, spaces, an opening bracket, a lazy group of any
    characters, a closing bracket, spaces, a slash, a greedy group of any
    characters, a slash.  The four groups, or [None]. *)
Definition match_line (line : str) : option (str * str * str * str) :=
  plus_greedy re_nonspace (fun g1 =>
  plus_greedy re_space (fun _ =>
  plus_greedy re_nonspace (fun g2 =>
  plus_greedy re_space (fun _ =>
  lit 0x5B%N (
  star_lazy re_dot (fun g3 =>
  lit 0x5D%N (
  plus_greedy re_space (fun _ =>
  lit 0x2F%N (
  star_greedy re_dot (fun g4 =>
  lit 0x2F%N (fun _ => Some (g1, g2, g3, g4))) [])))) [])))))
  line.

(** The tuple returned by [parse_line]. *)
Record entry := {
  traditional : str;
  simplified : str;
  pinyin : str;
  pinyin_clean : str;
  pinyin_numbered : str;
  pinyin_marks : str;
  definitions : str;
}.

(** [re.sub] deleting the class of ASCII digits and spaces, and the one
    deleting the class of spaces. *)
Definition remove_digits_spaces (s : str) : str :=
  List.filter (fun c => negb (in_range 0x30 0x39 c || isspace c)) s.
Definition remove_spaces (s : str) : str :=
  List.filter (fun c => negb (isspace c)) s.

Definition parse_line (line : str) : option entry :=
  match match_line line with
  | Some (g1, g2, g3, g4) =>
    Some {| traditional := g1;
            simplified := g2;
            pinyin := g3;
            pinyin_clean := lower_str (remove_digits_spaces g3);
            pinyin_numbered := lower_str (remove_spaces g3);
            pinyin_marks := decode_pinyin g3;
            definitions := g4 |}
  | None => None
  end.

End Convert.

(* ===================================================================== *)
(** ** Ordering of sort keys                                              *)
(* ===================================================================== *)

(** Python compares tuples lexicographically, component by component; a
    three-way comparison per component type gives the order of the tuple.
    A relevance rank is an SQLite REAL: a rational, compared as a
    fraction. *)
Class Cmp (A : Type) := cmp : A -> A -> comparison.
#[global] Hint Mode Cmp ! : typeclass_instances.

Definition lex (c1 c2 : comparison) : comparison :=
  match c1 with Eq => c2 | _ => c1 end.

(** [a < b] and [a <= b] of Python on comparable values *)
#[global] Instance Z_cmp : Cmp Z := Z.compare.
#[global] Instance N_cmp : Cmp N := N.compare.
#[global] Instance Q_cmp : Cmp Q := Qcompare.
#[global] Instance prod_cmp {A B} `{Cmp A, Cmp B} : Cmp (A * B) :=
  fun x y => lex (cmp (fst x) (fst y)) (cmp (snd x) (snd y)).

Fixpoint list_cmp {A} `{Cmp A} (s t : list A) : comparison :=
  match s, t with
  | [], [] => Eq
  | [], _ :: _ => Lt
  | _ :: _, [] => Gt
  | x :: s', y :: t' => lex (cmp x y) (list_cmp s' t')
  end.
#[global] Instance list_Cmp {A} `{Cmp A} : Cmp (list A) := list_cmp.

Definition ltb {A} `{Cmp A} (a b : A) : bool :=
  match cmp a b with Lt => true | _ => false end.
Definition leb {A} `{Cmp A} (a b : A) : bool :=
  match cmp a b with Gt => false | _ => true end.

(** [list.sort(key=f)] and [sorted]: a stable sort that only asks whether
    one key is smaller than another.  An element goes in front of the
    first one that is not smaller than it, so equal keys keep their
    order. *)
Section Sort.
Context {A : Type} (lt : A -> A -> bool).

Fixpoint insert_sorted (x : A) (l : list A) : list A :=
  match l with
  | [] => [x]
  | y :: l' => if lt y x then y :: insert_sorted x l' else x :: y :: l'
  end.

Fixpoint sort (l : list A) : list A :=
  match l with
  | [] => []
  | x :: l' => insert_sorted x (sort l')
  end.
End Sort.

(* ===================================================================== *)
(** ** app.py                                                             *)
(* ===================================================================== *)

Module App.
Import PyStr.

(** A row of the [dictionary] table as [sqlite3.Row] gives it; the
    full-text query adds the column [fts_rank]. *)
Module Row.
Record t := {
  id : Z;
  traditional : str;
  simplified : str;
  pinyin : str;
  pinyin_clean : str;
  pinyin_numbered : str;
  pinyin_marks : str;
  definitions : str;
  has_examples : Z;
  has_stroke : Z;
  hsk_level : Z;
  fts_rank : option Q;
}.
End Row.

(** A row of the [sentences] table. *)
Record sentence := { chinese : str; english : str }.

(** An item of [character_breakdown]: the dictionary of a found character
    (its columns in [source]) with [short_definitions], or the fallback
    with its five keys. *)
Module CharInfo.
Record t := {
  simplified : str;
  traditional : str;
  pinyin_marks : str;
  definitions : str;
  short_definitions : str;
  source : option Row.t;
}.
End CharInfo.

(** The values of [_match_type], the keys of [priority_map]. *)
Inductive match_type := exact | starts_with | fts | other.

(** The dictionary built for a hit by [dict(row)] and grown along the
    pipeline.  A key that may be absent is an option; the keys added
    later are empty until they are set. *)
Record result := {
  id : Z;
  traditional : str;
  simplified : str;
  pinyin : str;
  pinyin_clean : str;
  pinyin_numbered : str;
  pinyin_marks : str;
  definitions : str;
  has_examples : Z;
  has_stroke : Z;
  hsk_level : Z;
  fts_rank : option Q;
  _match_type : option match_type;
  traditional_variants : gset str;
  definition_list : list str;
  examples : list sentence;
  character_breakdown : list CharInfo.t;
}.

(** Assignments to one key. *)
Definition set_traditional (v : str) (r : result) : result :=
  let '(Build_result a _ c d e f g h i j k l m n o p q) := r in
  Build_result a v c d e f g h i j k l m n o p q.
Definition set_definitions (v : str) (r : result) : result :=
  let '(Build_result a b c d e f g _ i j k l m n o p q) := r in
  Build_result a b c d e f g v i j k l m n o p q.
Definition set_has_examples (v : Z) (r : result) : result :=
  let '(Build_result a b c d e f g h _ j k l m n o p q) := r in
  Build_result a b c d e f g h v j k l m n o p q.
Definition set_has_stroke (v : Z) (r : result) : result :=
  let '(Build_result a b c d e f g h i _ k l m n o p q) := r in
  Build_result a b c d e f g h i v k l m n o p q.
Definition set_hsk_level (v : Z) (r : result) : result :=
  let '(Build_result a b c d e f g h i j _ l m n o p q) := r in
  Build_result a b c d e f g h i j v l m n o p q.
Definition set_fts_rank (v : option Q) (r : result) : result :=
  let '(Build_result a b c d e f g h i j k _ m n o p q) := r in
  Build_result a b c d e f g h i j k v m n o p q.
Definition set_match_type (v : option match_type) (r : result) : result :=
  let '(Build_result a b c d e f g h i j k l _ n o p q) := r in
  Build_result a b c d e f g h i j k l v n o p q.
Definition set_traditional_variants (v : gset str) (r : result) : result :=
  let '(Build_result a b c d e f g h i j k l m _ o p q) := r in
  Build_result a b c d e f g h i j k l m v o p q.
Definition set_definition_list (v : list str) (r : result) : result :=
  let '(Build_result a b c d e f g h i j k l m n _ p q) := r in
  Build_result a b c d e f g h i j k l m n v p q.
Definition set_examples (v : list sentence) (r : result) : result :=
  let '(Build_result a b c d e f g h i j k l m n o _ q) := r in
  Build_result a b c d e f g h i j k l m n o v q.
Definition set_character_breakdown (v : list CharInfo.t) (r : result)
  : result :=
  let '(Build_result a b c d e f g h i j k l m n o p _) := r in
  Build_result a b c d e f g h i j k l m n o p v.

(** [dict(row)] *)
Definition dict_of_row (row : Row.t) : result :=
  {| id := Row.id row;
     traditional := Row.traditional row;
     simplified := Row.simplified row;
     pinyin := Row.pinyin row;
     pinyin_clean := Row.pinyin_clean row;
     pinyin_numbered := Row.pinyin_numbered row;
     pinyin_marks := Row.pinyin_marks row;
     definitions := Row.definitions row;
     has_examples := Row.has_examples row;
     has_stroke := Row.has_stroke row;
     hsk_level := Row.hsk_level row;
     fts_rank := Row.fts_rank row;
     _match_type := None;
     traditional_variants := ∅;
     definition_list := [];
     examples := [];
     character_breakdown := [] |}.

(** *** The data store

    [query_db] runs a statement and returns its rows, or raises.  The
    store is the function from each statement of [search], with its
    arguments, to that outcome. *)

Inductive exn := DatabaseError (msg : str).

Inductive outcome (A : Type) :=
| Ok (a : A)
| Raise (e : exn).
Arguments Ok {A} a.
Arguments Raise {A} e.

Definition bind {A B} (c : outcome A) (k : A -> outcome B) : outcome B :=
  match c with
  | Ok a => k a
  | Raise e => Raise e
  end.

Notation "x <- c ;; k" := (bind c (fun x => k))
  (at level 100, c at next level, right associativity).

Record store := {
  (** the exact statement on [pinyin_numbered] ([true]) or on
      [pinyin_clean], with the query and the pinyin key *)
  exact_rows : bool -> str -> str -> outcome (list Row.t);
  (** the LIKE statement, with the two patterns *)
  start_rows : bool -> str -> str -> outcome (list Row.t);
  (** the MATCH statement on the full-text index *)
  fts_rows : str -> outcome (list Row.t);
  (** [get_example_sentences]; the draw is random, so the outcome also
      depends on which call of the request it is *)
  example_rows : nat -> str -> Z -> outcome (list sentence);
  (** the one-character lookup with [one=True] *)
  char_row : char -> outcome (option Row.t);
}.

(** *** Gathering the hits *)

(** The state of [add_unique_results]: [all_results] and [seen_ids]. *)
Definition hits : Type := list result * gset Z.

Definition add_unique_results (new_rows : list Row.t) (mt : match_type)
    (st : hits) : hits :=
  fold_left
    (fun (st : hits) row =>
       let '(all_results, seen_ids) := st in
       if bool_decide (Row.id row ∈ seen_ids) then st
       else (all_results ++ [set_match_type (Some mt) (dict_of_row row)],
             seen_ids ∪ {[Row.id row]}))
    new_rows st.

(** *** Merging *)

Definition priority_map (mt : match_type) : Z :=
  match mt with
  | exact => 0
  | starts_with => 1
  | fts => 2
  | other => 3
  end.

(** [a or b] on integers *)
Definition py_or (a b : Z) : Z := if a =? 0 then b else a.

(** [d in l] on a list of strings *)
Definition in_list (d : str) (l : list str) : bool := existsb (eqb d) l.

(** The loop over [new_defs]. *)
Definition add_definitions (new_defs definition_list : list str)
    : list str :=
  fold_left
    (fun acc d =>
       if negb (eqb d []) && negb (in_list d acc) then acc ++ [d] else acc)
    new_defs definition_list.

(** The first hit under a key becomes the entry of that key. *)
Definition seed (hit : result) : result :=
  set_definition_list (split 0x2F%N (definitions hit))
    (set_traditional_variants {[traditional hit]} hit).

(** A later hit under the key of [existing]: first the variants, the
    definitions, the data flags and the HSK level. *)
Definition merge_fields (existing hit : result) : result :=
  let existing :=
    set_traditional_variants
      (traditional_variants existing ∪ {[traditional hit]}) existing in
  let existing :=
    set_definition_list
      (add_definitions (split 0x2F%N (definitions hit))
         (definition_list existing)) existing in
  let existing :=
    set_has_examples
      (py_or (has_examples existing) (has_examples hit)) existing in
  let existing :=
    set_has_stroke
      (py_or (has_stroke existing) (has_stroke hit)) existing in
  let l1 := hsk_level existing in
  let l2 := hsk_level hit in
  if l1 =? 0 then set_hsk_level l2 existing
  else if negb (l2 =? 0) then set_hsk_level (Z.min l1 l2) existing
  else existing.

(** Then the match type of higher priority, with its rank if it has
    one. *)
Definition merge_into (existing hit : result) : result :=
  let existing := merge_fields existing hit in
  if priority_map (default other (_match_type hit))
     <? priority_map (default other (_match_type existing))
  then
    let existing := set_match_type (_match_type hit) existing in
    match fts_rank hit with
    | Some rank => set_fts_rank (Some rank) existing
    | None => existing
    end
  else existing.

(** [merged_results]: a dictionary keeps its keys in insertion order. *)
Definition merge_key : Type := str * str.
Definition merged : Type := list (merge_key * result).

Definition key_of (hit : result) : merge_key :=
  (simplified hit, lower_str (pinyin_marks hit)).

Fixpoint dict_get (key : merge_key) (d : merged) : option result :=
  match d with
  | [] => None
  | (k, v) :: d' => if bool_decide (k = key) then Some v else dict_get key d'
  end.

Fixpoint dict_alter (f : result -> result) (key : merge_key) (d : merged)
    : merged :=
  match d with
  | [] => []
  | (k, v) :: d' =>
    if bool_decide (k = key) then (k, f v) :: d'
    else (k, v) :: dict_alter f key d'
  end.

Definition merge_step (merged_results : merged) (hit : result) : merged :=
  let key := key_of hit in
  match dict_get key merged_results with
  | None => merged_results ++ [(key, seed hit)]
  | Some _ =>
    dict_alter (fun existing => merge_into existing hit) key merged_results
  end.

Definition merge_results (all_results : list result) : merged :=
  fold_left merge_step all_results [].

(** The loop over [merged_results.values()]. *)
Definition finalize (entry : result) : result :=
  let entry :=
    set_traditional
      (join (u8 " / ") (sort ltb (elements (traditional_variants entry))))
      entry in
  set_definitions (join [0x2F%N] (definition_list entry)) entry.

(** *** Scoring *)

Definition score : Type := Z * Z * Z * Z * Q * Z.

Definition score_result (query : str) (hit : result) : score :=
  let match_type := default other (_match_type hit) in
  let priority := priority_map match_type in
  let data_score := 0 in
  let data_score :=
    if has_examples hit =? 0 then data_score + 2 else data_score in
  let data_score :=
    if has_stroke hit =? 0 then data_score + 5 else data_score in
  let hsk_level := hsk_level hit in
  let hsk_score := if hsk_level >? 0 then hsk_level else 10 in
  let fts_rank := default 0%Q (fts_rank hit) in
  let length := Z.of_nat (length (simplified hit)) in
  let exact_def_bonus :=
    match match_type with
    | fts =>
      let defs := split 0x2F%N (lower_str (definitions hit)) in
      if in_list (lower_str query) (List.map strip defs) then -10 else 0
    | _ => 0
    end in
  (priority, exact_def_bonus, hsk_score, data_score, fts_rank, length).

(** [all_results.sort(key=score_result)] *)
Definition sort_results (query : str) (all_results : list result)
    : list result :=
  sort (fun a b => ltb (score_result query a) (score_result query b))
    all_results.

(** *** Pagination *)

Definition RESULTS_PER_PAGE : Z := 20.

Definition total_pages_of (total_results : Z) : Z :=
  (total_results + RESULTS_PER_PAGE - 1) / RESULTS_PER_PAGE.

Definition paginate {A} (all_results : list A) (page : Z) : list A :=
  let start_idx := (page - 1) * RESULTS_PER_PAGE in
  let end_idx := start_idx + RESULTS_PER_PAGE in
  slice all_results start_idx end_idx.

(** *** Enrichment *)

Definition char_info_of (char_data : Row.t) : CharInfo.t :=
  {| CharInfo.simplified := Row.simplified char_data;
     CharInfo.traditional := Row.traditional char_data;
     CharInfo.pinyin_marks := Row.pinyin_marks char_data;
     CharInfo.definitions := Row.definitions char_data;
     CharInfo.short_definitions :=
       join [0x2F%N] (firstn 3 (split 0x2F%N (Row.definitions char_data)));
     CharInfo.source := Some char_data |}.

Definition fallback_info (ch : char) : CharInfo.t :=
  {| CharInfo.simplified := [ch];
     CharInfo.traditional := [ch];
     CharInfo.pinyin_marks := [];
     CharInfo.definitions := u8 "N/A";
     CharInfo.short_definitions := u8 "N/A";
     CharInfo.source := None |}.

Abbreviation char_cache := (gmap char CharInfo.t).

(** One turn of the loop over the characters of a word. *)
Definition breakdown_step (db : store)
    (st : char_cache * list CharInfo.t) (ch : char)
    : outcome (char_cache * list CharInfo.t) :=
  let '(cache, breakdown) := st in
  match cache !! ch with
  | Some info => Ok (cache, breakdown ++ [info])
  | None =>
    char_data <- char_row db ch ;;
    match char_data with
    | Some row =>
      let char_info := char_info_of row in
      Ok (<[ch := char_info]> cache, breakdown ++ [char_info])
    | None => Ok (cache, breakdown ++ [fallback_info ch])
    end
  end.

Fixpoint breakdown_loop (db : store) (st : char_cache * list CharInfo.t)
    (chars : str) : outcome (char_cache * list CharInfo.t) :=
  match chars with
  | [] => Ok st
  | ch :: rest => st' <- breakdown_step db st ch ;; breakdown_loop db st' rest
  end.

(** One turn of the loop over [paginated_results]; [n] counts the turns
    already made. *)
Definition enrich_result (db : store) (n : nat) (cache : char_cache)
    (hit : result) : outcome (char_cache * result) :=
  let char_to_search := simplified hit in
  examples <- example_rows db n char_to_search 3 ;;
  let hit := set_examples examples hit in
  let hit := set_character_breakdown [] hit in
  st <- (if 2 <=? Z.of_nat (length char_to_search)
         then breakdown_loop db (cache, []) char_to_search
         else Ok (cache, [])) ;;
  let hit := set_character_breakdown (snd st) hit in
  Ok (fst st, set_match_type None hit).

Fixpoint enrich_loop (db : store) (n : nat) (cache : char_cache)
    (paginated_results : list result) : outcome (list result) :=
  match paginated_results with
  | [] => Ok []
  | hit :: rest =>
    st <- enrich_result db n cache hit ;;
    rest' <- enrich_loop db (S n) (fst st) rest ;;
    Ok (snd st :: rest')
  end.

(** *** The view *)

Record page_context := {
  ctx_query : str;
  ctx_results : list result;
  ctx_page : Z;
  ctx_total_pages : Z;
  ctx_total_results : Z;
  ctx_results_per_page : Z;
}.

Inductive response :=
| IndexPage
| ResultsPage (ctx : page_context).

(** Query normalisation *)
Definition remove_char (c : char) (s : str) : str :=
  List.filter (fun x => negb (x =? c)%N) s.
Definition remove_ascii_digits (s : str) : str :=
  List.filter (fun x => negb (in_range 0x30 0x39 x)) s.

(** The key compared with the pinyin column: with tone digits
    ([clean_query]) if the query has a digit, without
    ([clean_pinyin_no_tones]) otherwise. *)
Definition has_tones (query : str) : bool := existsb isdigit query.
Definition clean_query (query : str) : str :=
  remove_char 0x20%N (lower_str query).
Definition clean_pinyin_no_tones (query : str) : str :=
  remove_ascii_digits (clean_query query).

Definition exact_query (db : store) (query : str) : outcome (list Row.t) :=
  if has_tones query then exact_rows db true query (clean_query query)
  else exact_rows db false query (clean_pinyin_no_tones query).

Definition start_query (db : store) (query : str) : outcome (list Row.t) :=
  if has_tones query
  then start_rows db true (query ++ u8 "%") (clean_query query ++ u8 "%")
  else start_rows db false (query ++ u8 "%")
         (clean_pinyin_no_tones query ++ u8 "%").

Definition fts_query (query : str) : str := [0x22%N] ++ query ++ [0x22%N].

(** The three strategies, in order.  Only the full-text one is guarded:
    when it raises, nothing is added. *)
Definition gather (db : store) (query : str) : outcome hits :=
  let st : hits := ([], ∅) in
  exact_rows <- exact_query db query ;;
  let st := add_unique_results exact_rows exact st in
  start_rows <- start_query db query ;;
  let st := add_unique_results start_rows starts_with st in
  let st :=
    match fts_rows db (fts_query query) with
    | Ok fts_rows => add_unique_results fts_rows fts st
    | Raise _ => st
    end in
  Ok st.

(** The merged, scored and sorted list of a request. *)
Definition rank (query : str) (all_results : list result) : list result :=
  sort_results query
    (List.map (fun kv => finalize (snd kv)) (merge_results all_results)).

(** [search], from the raw parameters [q] and [page]. *)
Definition search (db : store) (q : str) (page : Z) : outcome response :=
  let query := strip q in
  match query with
  | [] => Ok IndexPage
  | _ =>
    st <- gather db query ;;
    let all_results := rank query (fst st) in
    let total_results := Z.of_nat (length all_results) in
    let total_pages := total_pages_of total_results in
    let paginated_results := paginate all_results page in
    results <- enrich_loop db 0 ∅ paginated_results ;;
    Ok (ResultsPage
          {| ctx_query := query;
             ctx_results := results;
             ctx_page := page;
             ctx_total_pages := total_pages;
             ctx_total_results := total_results;
             ctx_results_per_page := RESULTS_PER_PAGE |})
  end.

End App.

(* ===================================================================== *)
(** ** convert.py: building the tables                                    *)
(* ===================================================================== *)

Module Ingest.
Import PyStr Convert.

(** *** The sentence pairs *)

(** [s.rstrip(chars)] *)
Fixpoint lstrip_chars (chars : str) (s : str) : str :=
  match s with
  | c :: s' => if mem c chars then lstrip_chars chars s' else s
  | [] => []
  end.
Definition rstrip_chars (chars : str) (s : str) : str :=
  rev (lstrip_chars chars (rev s)).

(** The body of the loop over the lines of the sentence file: the pair
    appended for a line, [None] when the line is skipped. *)
Definition sentence_of_line (line : str) : option (str * str) :=
  let line := strip line in
  match line with
  | [] => None
  | _ =>
    let parts := split 0x09%N line in
    if (length parts <? 4)%nat then None
    else
      let chinese := nth 1 parts [] in
      let english := rstrip_chars [0x0D; 0x0A]%N (nth 3 parts []) in
      Some (chinese, english)
  end.

Fixpoint read_sentences (lines : list str) : list (str * str) :=
  match lines with
  | [] => []
  | line :: rest =>
    match sentence_of_line line with
    | Some sentence => sentence :: read_sentences rest
    | None => read_sentences rest
    end
  end.

(** *** The HSK levels *)

(** A row of the HSK list as the reader gives it. *)
Record hsk_row := { Level : str; Simplified : str }.

(** The level of a row; a range like '7-9' counts for its first number. *)
Definition level_of (row : hsk_row) : option Z :=
  let level_str := Level row in
  if mem 0x2D%N level_str
  then py_int (hd [] (split 0x2D%N level_str))
  else py_int level_str.

(** The loop over the variants of a row: a word keeps the lower level. *)
Definition add_words (level : Z) (words : list str) (hsk_map : gmap str Z)
    : gmap str Z :=
  fold_left
    (fun (m : gmap str Z) w =>
       match m !! w with
       | Some old => if level <? old then <[w := level]> m else m
       | None => <[w := level]> m
       end)
    words hsk_map.

(** The loop over the rows.  It runs inside [try]: a level that is no
    number ends it, and the map built so far is kept. *)
Fixpoint read_hsk (rows : list hsk_row) (hsk_map : gmap str Z)
    : gmap str Z :=
  match rows with
  | [] => hsk_map
  | row :: rest =>
    match level_of row with
    | None => hsk_map
    | Some level =>
      read_hsk rest (add_words level (split 0x7C%N (Simplified row)) hsk_map)
    end
  end.

(** *** The entries *)

(** An element of [entries]: the tuple of [parse_line] and the three
    numbers appended to it. *)
Record stored := {
  fields : entry;
  has_examples : Z;
  has_stroke : Z;
  hsk_level : Z;
}.

Definition startswith (c : char) (line : str) : bool :=
  match line with
  | x :: _ => (x =? c)%N
  | [] => false
  end.

(** The state of the loop over the dictionary lines. *)
Record loaded := {
  entries : list stored;
  word_to_id : gmap str nat;
  count : nat;
}.

Definition load_line (hsk_map : gmap str Z) (st : loaded) (line : str)
    : loaded :=
  if startswith 0x23%N line || startswith 0x25%N line then st
  else
    match parse_line (strip line) with
    | None => st
    | Some parts =>
      let simplified := Convert.simplified parts in
      let has_stroke :=
        if existsb (in_range 0x4E00 0x9FFF) simplified then 1 else 0 in
      let hsk_level := default 0 (hsk_map !! simplified) in
      {| entries := entries st
                    ++ [{| fields := parts; has_examples := 0;
                           has_stroke := has_stroke;
                           hsk_level := hsk_level |}];
         word_to_id := <[simplified := count st]> (word_to_id st);
         count := S (count st) |}
    end.

Definition load_lines (hsk_map : gmap str Z) (lines : list str) : loaded :=
  fold_left (load_line hsk_map) lines
    {| entries := []; word_to_id := ∅; count := 0 |}.

(** *** The examples flag *)

(** [entries[idx][7] = 1] *)
Definition set_has_examples (e : stored) : stored :=
  {| fields := fields e; has_examples := 1;
     has_stroke := has_stroke e; hsk_level := hsk_level e |}.

(** The loop over the lengths 1 to 4 at position [i], left at the first
    length that passes the end of the sentence. *)
Fixpoint mark_lengths (ids : gmap str nat) (sentence : str) (i : nat)
    (lengths : list nat) (es : list stored) : list stored :=
  match lengths with
  | [] => es
  | len :: rest =>
    if (length sentence <? i + len)%nat then es
    else
      let sub := firstn len (skipn i sentence) in
      let es :=
        match ids !! sub with
        | Some idx => alter set_has_examples idx es
        | None => es
        end in
      mark_lengths ids sentence i rest es
  end.

Definition mark_sentence (ids : gmap str nat) (es : list stored)
    (sentence : str) : list stored :=
  fold_left
    (fun es i => mark_lengths ids sentence i [1; 2; 3; 4]%nat es)
    (List.seq 0 (length sentence)) es.

Definition mark_examples (ids : gmap str nat)
    (sentences : list (str * str)) (es : list stored) : list stored :=
  fold_left (fun es sentence => mark_sentence ids es (fst sentence))
    sentences es.

(** The entries as they are inserted: loaded, then flagged. *)
Definition build_entries (hsk_map : gmap str Z) (lines : list str)
    (sentences : list (str * str)) : list stored :=
  let st := load_lines hsk_map lines in
  mark_examples (word_to_id st) sentences (entries st).

End Ingest.

(* ===================================================================== *)
(** ** Properties of the transliterator                                   *)
(* ===================================================================== *)

Module ConvertFacts.
Import PyStr Convert.

(** The literals of the source decode to the code points of the tables. *)
Example u8_tone_rows :
  List.map snd tone_marks
  = [u8 "āáǎàa"; u8 "ēéěèe"; u8 "īíǐìi"; u8 "ōóǒòo"; u8 "ūúǔùu";
     u8 "ǖǘǚǜü"; u8 "ǖǘǚǜü"]
  /\ List.map fst tone_marks
     = [u8 "a"; u8 "e"; u8 "i"; u8 "o"; u8 "u"; u8 "v"; u8 "ü"]
  /\ vowels = u8 "aeiouvü".
Proof. repeat split; vm_compute; reflexivity. Qed.





(** [s] contains the digraph [a b]. *)
Definition has_digraph (a b : char) (s : str) : Prop :=
  exists l1 l2, s = l1 ++ a :: b :: l2.

Lemma contains2_spec a b s : contains2 a b s = true <-> has_digraph a b s.
Proof.
  induction s as [|x s IH]; simpl.
  - split; [discriminate|]. intros (l1 & l2 & E). destruct l1; discriminate.
  - destruct s as [|y s'].
    + split; [discriminate|]. intros (l1 & l2 & E).
      destruct l1 as [|? [|? ?]]; discriminate.
    + rewrite orb_true_iff, andb_true_iff, !N.eqb_eq, IH. split.
      * intros [[-> ->]|(l1 & l2 & E)].
        -- now exists [], s'.
        -- exists (x :: l1), l2. now rewrite E.
      * intros (l1 & l2 & E). destruct l1 as [|z l1]; simpl in E.
        -- left. now inversion E.
        -- right. inversion E; subst. now exists l1, l2.
Qed.

(** The vowel class of the rule, in both cases. *)
Definition vowel_letters : str := u8 "aeiouvüAEIOUVÜ".

(** *** The character tables

    A fact about every character is checked by evaluation on the
    characters that the lowercase mapping moves, and proved for the
    others, which are their own lowercase form. *)

Definition run_points (lo hi step : N) : list N :=
  List.map (fun k => (lo + step * N.of_nat k)%N)
    (List.seq 0 (S (N.to_nat ((hi - lo) / step)))).

Lemma in_run_points lo hi step c :
  in_run (lo, hi, step) c = true -> In c (run_points lo hi step).
Proof.
  unfold in_run, in_range.
  rewrite !andb_true_iff, !N.leb_le, N.eqb_eq. intros [[Hlo Hhi] Hmod].
  apply in_map_iff. exists (N.to_nat ((c - lo) / step)). split.
  - rewrite N2Nat.id. pose proof (N.div_mod' (c - lo) step) as H.
    rewrite Hmod in H. lia.
  - apply in_seq. split; [apply Nat.le_0_l|]. cbn [Nat.add].
    assert (Hq : ((c - lo) / step <= (hi - lo) / step)%N).
    { destruct (N.eq_dec step 0%N) as [->|Hs].
      - rewrite !N.div_0_r. reflexivity.
      - apply N.Div0.div_le_mono. lia. }
    revert Hq. generalize ((c - lo) / step)%N, ((hi - lo) / step)%N.
    intros q1 q2 Hq. lia.
Qed.

Definition domain (t : list (N * N * N * N)) : list N :=
  flat_map (fun '(lo, hi, step, _) => run_points lo hi step) t.

Lemma image_domain t c x : image t c = Some x -> In c (domain t).
Proof.
  induction t as [|[[[lo hi] step] img] t IH]; [discriminate|].
  cbn [image domain flat_map]. destruct (in_run (lo, hi, step) c) eqn:E.
  - intros _. apply in_or_app. left. now apply in_run_points.
  - intros H. apply in_or_app. right. now apply IH.
Qed.

(** The characters that are not their own lowercase form. *)
Definition lower_domain : list N := 0x130%N :: domain lowercase_map.

Lemma lower_char_cases (P : char -> bool) :
  forallb P lower_domain = true ->
  (forall c, lower_char c = [c] -> P c = true) ->
  forall c, P c = true.
Proof.
  intros Hdom Hfix c. rewrite forallb_forall in Hdom.
  destruct (N.eqb_spec c 0x130%N) as [->|Hne].
  - apply Hdom. now left.
  - destruct (image lowercase_map c) as [x|] eqn:E.
    + apply Hdom. right. now apply (image_domain _ _ x).
    + apply Hfix. unfold lower_char.
      replace (c =? 0x130)%N with false by (symmetry; now apply N.eqb_neq).
      now rewrite E.
Qed.





(** Characters that the case mapping neither moves nor produces: white
    space, the ASCII digits and the slash. *)
Definition inert (c : char) : bool :=
  isspace c || in_range 0x30 0x39 c || (c =? 0x2F)%N.

Lemma lower_char_inert_b c :
  (if inert c then eqb (lower_char c) [c]
   else forallb (fun x => negb (inert x)) (lower_char c)) = true.
Proof.
  revert c. apply lower_char_cases; [vm_compute; reflexivity|].
  intros c H. rewrite H. destruct (inert c) eqn:E.
  - unfold eqb. now apply bool_decide_eq_true.
  - cbn [forallb]. now rewrite E.
Qed.

Lemma lower_char_inert c : inert c = true -> lower_char c = [c].
Proof.
  intros H. pose proof (lower_char_inert_b c) as Hb. rewrite H in Hb.
  unfold eqb in Hb. now apply bool_decide_eq_true in Hb.
Qed.

Lemma lower_char_active c x :
  inert c = false -> In x (lower_char c) -> inert x = false.
Proof.
  intros H Hx. pose proof (lower_char_inert_b c) as Hb. rewrite H in Hb.
  rewrite forallb_forall in Hb. apply Hb in Hx.
  now apply negb_true_iff in Hx.
Qed.

(** An inert character of the output was in the input. *)
Lemma lower_from_keeps x s :
  inert x = true -> forall before, In x (lower_from before s) -> In x s.
Proof.
  intros Hx. induction s as [|c s IH]; intros before H; [destruct H|].
  cbn [lower_from] in H. apply in_app_or in H. destruct H as [H|H].
  - left. destruct (c =? 0x3A3)%N.
    + destruct (final_sigma before s); destruct H as [<-|[]];
        vm_compute in Hx; discriminate Hx.
    + destruct (inert c) eqn:Ec.
      * rewrite (lower_char_inert c Ec) in H. now destruct H as [H|[]].
      * rewrite (lower_char_active c x Ec H) in Hx. discriminate.
  - right. now apply (IH (c :: before)).
Qed.

(** A character that is neither cased nor ignored by case cuts the
    context of a sigma. *)
Definition barrier (b : char) : Prop :=
  cased b = false /\ case_ignorable b = false /\ lower_char b = [b]
  /\ b <> 0x3A3%N.

Lemma skip_ignorable_app b x y :
  case_ignorable b = false ->
  skip_ignorable (x ++ b :: y) = skip_ignorable x ++ b :: y.
Proof.
  intros Hb. induction x as [|c x IH]; cbn [app skip_ignorable].
  - now rewrite Hb.
  - destruct (case_ignorable c); [exact IH | reflexivity].
Qed.

Lemma final_sigma_after b before x y :
  barrier b -> final_sigma before (x ++ b :: y) = final_sigma before x.
Proof.
  intros (Hc & Hi & _). unfold final_sigma.
  rewrite (skip_ignorable_app b x y Hi).
  destruct (skip_ignorable before); [reflexivity|].
  destruct (skip_ignorable x); cbn [app]; [now rewrite Hc | reflexivity].
Qed.

Lemma final_sigma_before b p q after :
  barrier b -> final_sigma (p ++ b :: q) after = final_sigma p after.
Proof.
  intros (Hc & Hi & _). unfold final_sigma.
  rewrite (skip_ignorable_app b p q Hi).
  destruct (skip_ignorable p); cbn [app]; [now rewrite Hc | reflexivity].
Qed.

Lemma lower_from_before b q s :
  barrier b -> forall p, lower_from (p ++ b :: q) s = lower_from p s.
Proof.
  intros Hb. induction s as [|c s IH]; intros p; [reflexivity|].
  cbn [lower_from]. rewrite (final_sigma_before b p q s Hb).
  f_equal. exact (IH (c :: p)).
Qed.

Lemma lower_from_after b w rest :
  barrier b ->
  forall before,
    lower_from before (w ++ b :: rest)
    = lower_from before w ++ lower_from (rev w ++ before) (b :: rest).
Proof.
  intros Hb. induction w as [|c w IH]; intros before; [reflexivity|].
  cbn [app lower_from rev]. rewrite (final_sigma_after b before w rest Hb).
  rewrite <- !app_assoc. f_equal. rewrite (IH (c :: before)).
  reflexivity.
Qed.

(** [lower] works piece by piece between barriers. *)
Lemma lower_str_barrier b w rest :
  barrier b -> lower_str (w ++ b :: rest) = lower_str w ++ b :: lower_str rest.
Proof.
  intros Hb. unfold lower_str. rewrite (lower_from_after b w rest Hb).
  f_equal. cbn [lower_from]. destruct Hb as (Hc & Hi & Hl & Hne).
  replace (b =? 0x3A3)%N with false by (symmetry; now apply N.eqb_neq).
  rewrite Hl. cbn [app]. f_equal.
  apply (lower_from_before b (rev w ++ []) rest (conj Hc (conj Hi (conj Hl Hne)))
           []).
Qed.

(** Without a capital sigma [lower] works character by character. *)
Lemma lower_from_flat s :
  ~ In 0x3A3%N s -> forall before, lower_from before s = flat_map lower_char s.
Proof.
  induction s as [|c s IH]; intros H before; [reflexivity|].
  cbn [lower_from flat_map].
  destruct (N.eqb_spec c 0x3A3%N) as [->|_]; [exfalso; apply H; now left|].
  f_equal. apply IH. intros Hin. apply H. now right.
Qed.












(** *** Words and syllables *)

Lemma split_no_sep sep w : ~ In sep w -> split sep w = [w].
Proof.
  induction w as [|c w IH]; intros H; [reflexivity|]. simpl.
  destruct (N.eqb_spec c sep) as [->|Hne]; [exfalso; apply H; now left|].
  rewrite IH by (intros Hin; apply H; now right). reflexivity.
Qed.

Lemma split_app_sep sep w s :
  ~ In sep w -> split sep (w ++ sep :: s) = w :: split sep s.
Proof.
  induction w as [|c w IH]; intros H; simpl.
  - now rewrite N.eqb_refl.
  - destruct (N.eqb_spec c sep) as [->|Hne]; [exfalso; apply H; now left|].
    rewrite IH by (intros Hin; apply H; now right). reflexivity.
Qed.

(** Splitting undoes joining when no word holds the separator. *)
Lemma split_join sep ws :
  ws <> [] -> Forall (fun w => ~ In sep w) ws ->
  split sep (join [sep] ws) = ws.
Proof.
  induction ws as [|w ws IH]; intros Hne Hall; [congruence|].
  inversion Hall as [|? ? Hw Hws]; subst.
  destruct ws as [|w' ws'].
  - simpl. now apply split_no_sep.
  - change (join [sep] (w :: w' :: ws'))
      with (w ++ sep :: join [sep] (w' :: ws')).
    rewrite split_app_sep by assumption.
    rewrite IH; [reflexivity | discriminate | assumption].
Qed.

Lemma decode_words_app l1 l2 :
  decode_words (l1 ++ l2) = decode_words l1 ++ decode_words l2.
Proof.
  induction l1 as [|w l1 IH]; [reflexivity|]. simpl.
  destruct (decode_word w); simpl; now rewrite IH.
Qed.

Lemma decode_word_snoc b c :
  decode_word (b ++ [c]) = Some (decode_syllable (b ++ [c])).
Proof. destruct b; reflexivity. Qed.

(** [decode_pinyin] works syllable by syllable. *)
Lemma decode_pinyin_join ws :
  ws <> [] -> Forall (fun w => ~ In 0x20%N w) ws ->
  decode_pinyin (join [0x20%N] ws) = join [0x20%N] (decode_words ws).
Proof.
  intros Hne Hall. unfold decode_pinyin. now rewrite split_join.
Qed.

Lemma decode_pinyin_syllable b c :
  ~ In 0x20%N (b ++ [c]) ->
  decode_pinyin (b ++ [c]) = decode_syllable (b ++ [c]).
Proof.
  intros H. unfold decode_pinyin. rewrite split_no_sep by assumption.
  cbn [decode_words]. rewrite decode_word_snoc. reflexivity.
Qed.

Lemma tone_and_base_digit b c tone :
  isdigit c = true -> int_of_char c = Some tone ->
  tone_and_base (b ++ [c]) = (tone, b).
Proof.
  intros Hd Hi. unfold tone_and_base.
  rewrite last_last, Hd, Hi, removelast_last. reflexivity.
Qed.

Lemma digit_not_space c : isdigit c = true -> c <> 0x20%N.
Proof. intros H ->. vm_compute in H. discriminate H. Qed.

Lemma not_in_snoc {A} (x : A) l y : ~ In x l -> y <> x -> ~ In x (l ++ [y]).
Proof.
  intros Hl Hy Hin. apply in_app_or in Hin.
  destruct Hin as [Hin|[Hin|[]]]; [now apply Hl | now apply Hy].
Qed.

Lemma decode_syllable_invalid b c tone :
  isdigit c = true -> int_of_char c = Some tone -> tone < 1 \/ 5 < tone ->
  decode_syllable (b ++ [c]) = b ++ [c].
Proof.
  intros Hd Hi Ht. unfold decode_syllable.
  rewrite (tone_and_base_digit b c tone Hd Hi).
  replace ((tone <? 1) || (tone >? 5)) with true; [reflexivity|].
  symmetry. apply orb_true_iff. rewrite Z.ltb_lt, Z.gtb_ltb, Z.ltb_lt. lia.
Qed.


(** C4: a syllable whose last character is a digit of value below 1 or
    above 5 is appended to the output as it is, digit and ['u:']
    included: alone, inside any sequence of words, and as the whole
    input of [decode_pinyin].  The functions are total: nothing is
    raised. *)
Theorem decode_pinyin_invalid_tone_unchanged :
  forall (b : str) (c : char) (tone : Z),
    isdigit c = true -> int_of_char c = Some tone ->
    tone < 1 \/ 5 < tone ->
    decode_word (b ++ [c]) = Some (b ++ [c])
    /\ (forall pre post,
          decode_words (pre ++ (b ++ [c]) :: post)
          = decode_words pre ++ (b ++ [c]) :: decode_words post)
    /\ (~ In 0x20%N b -> decode_pinyin (b ++ [c]) = b ++ [c]).
Proof.
  intros b c tone Hd Hi Ht.
  assert (Hw : decode_word (b ++ [c]) = Some (b ++ [c])).
  { rewrite decode_word_snoc. f_equal.
    now apply (decode_syllable_invalid b c tone). }
  split; [assumption|]. split.
  - intros pre post. rewrite decode_words_app. cbn [decode_words].
    now rewrite Hw.
  - intros Hb. rewrite decode_pinyin_syllable.
    + now apply (decode_syllable_invalid b c tone).
    + apply not_in_snoc; [assumption | now apply digit_not_space].
Qed.

Lemma decode_pinyin_invalid_tone_witness :
  (decode_word (u8 "lu:6") = Some (u8 "lu:6")
   /\ (forall pre post,
         decode_words (pre ++ u8 "lu:6" :: post)
         = decode_words pre ++ u8 "lu:6" :: decode_words post)
   /\ (~ In 0x20%N (u8 "lu:") -> decode_pinyin (u8 "lu:6") = u8 "lu:6"))
  /\ (~ In 0x20%N (u8 "nu:") -> decode_pinyin (u8 "nu:９") = u8 "nu:９")
  /\ (~ In 0x20%N (u8 "lu:") -> decode_pinyin (u8 "lu:٠") = u8 "lu:٠").
Proof.
  split; [|split].
  - apply (decode_pinyin_invalid_tone_unchanged (u8 "lu:") 0x36%N 6).
    + reflexivity.
    + reflexivity.
    + right. lia.
  - apply (decode_pinyin_invalid_tone_unchanged (u8 "nu:") 0xFF19%N 9).
    + reflexivity.
    + reflexivity.
    + right. lia.
  - apply (decode_pinyin_invalid_tone_unchanged (u8 "lu:") 0x660%N 0).
    + reflexivity.
    + reflexivity.
    + left. lia.
Defined.

(** *** The priority rule *)

(** The letters of the rule, in either case. *)
Definition is_a (c : char) : bool := (c =? 0x61)%N || (c =? 0x41)%N.
Definition is_e (c : char) : bool := (c =? 0x65)%N || (c =? 0x45)%N.
Definition is_o (c : char) : bool := (c =? 0x6F)%N || (c =? 0x4F)%N.
Definition is_u (c : char) : bool := (c =? 0x75)%N || (c =? 0x55)%N.
Definition is_vowel_b (c : char) : bool := mem c vowel_letters.
Definition is_char (c x : char) : bool := (x =? c)%N.

(** The index of the first character with [p], of the last one, and of
    the first character with [p] that is followed by one with [q]. *)
Fixpoint find_if (p : char -> bool) (s : str) : option nat :=
  match s with
  | [] => None
  | c :: s' => if p c then Some 0%nat else option_map S (find_if p s')
  end.

Fixpoint rfind_if (p : char -> bool) (s : str) : option nat :=
  match s with
  | [] => None
  | c :: s' =>
    match rfind_if p s' with
    | Some i => Some (S i)
    | None => if p c then Some 0%nat else None
    end
  end.

Fixpoint find_digraph (p q : char -> bool) (s : str) : option nat :=
  match s with
  | x :: ((y :: _) as t) =>
    if p x && q y then Some 0%nat else option_map S (find_digraph p q t)
  | _ => None
  end.


(** The syllables on which the tests of the code, which look for the
    small letters 'a', 'e' and 'ou' only, leave the rule:
    - the first a is a capital, and a small 'e' or 'ou' occurs or a
      letter of the vowel class follows it;
    - there is no a, the first e is a capital, and a small 'ou' occurs
      or a letter of the vowel class follows it;
    - there is no a and no e, and the first ou, in either case, is not a
      small 'ou' that starts at the first small 'o'. *)
Definition slip (base : str) : bool :=
  match find_if is_a base with
  | Some i =>
    (nth i base 0 =? 0x41)%N
    && negb (bool_decide (rfind_if is_vowel_b base = Some i)
             && negb (mem 0x65%N base)
             && negb (contains2 0x6F%N 0x75%N base))
  | None =>
    match find_if is_e base with
    | Some i =>
      (nth i base 0 =? 0x45)%N
      && negb (bool_decide (rfind_if is_vowel_b base = Some i)
               && negb (contains2 0x6F%N 0x75%N base))
    | None =>
      match find_digraph is_o is_u base with
      | Some i =>
        negb (bool_decide (find_if (is_char 0x6F%N) base = Some i)
              && contains2 0x6F%N 0x75%N base)
      | None => false
      end
    end
  end.



















(** The slips, and capitals that are no slip. *)
Example decode_pinyin_capital_first :
  List.map decode_pinyin
    [u8 "Ao4"; u8 "Ou1"; u8 "oou1"; u8 "eA1"; u8 "Ei2"]
  = [u8 "Aò"; u8 "Oū"; u8 "ōou"; u8 "ēA"; u8 "Eí"]
  /\ List.map slip [u8 "Ao"; u8 "Ou"; u8 "oou"; u8 "eA"; u8 "Ei"]
     = [true; true; true; true; true]
  /\ List.map decode_pinyin
       [u8 "An1"; u8 "Ang2"; u8 "E2"; u8 "En1"; u8 "Er4"; u8 "LU:4";
        u8 "oUou3"]
     = [u8 "Ān"; u8 "Áng"; u8 "É"; u8 "Ēn"; u8 "Èr"; u8 "LǛ"; u8 "ǒUou"]
  /\ List.map slip
       [u8 "An"; u8 "Ang"; u8 "E"; u8 "En"; u8 "Er"; u8 "LÜ"; u8 "oUou"]
     = [false; false; false; false; false; false; false].
Proof. repeat split; vm_compute; reflexivity. Qed.

(** *** The entry of a dictionary line *)

Lemma remove_spaces_id s :
  Forall (fun c => isspace c = false) s -> remove_spaces s = s.
Proof.
  induction 1 as [|c s Hc _ IH]; [reflexivity|].
  unfold remove_spaces in *. cbn [List.filter]. now rewrite Hc, IH.
Qed.

(** *** The matcher *)

Definition all_of (p : char -> bool) (w : str) : Prop :=
  Forall (fun c => p c = true) w.

Ltac empty_run rest H :=
  exists [], rest; split; [reflexivity|]; split; [constructor|];
  rewrite app_nil_r; exact H.

Section MatcherFacts.
Context {R : Type}.

Lemma star_greedy_sound p (k : str -> str -> option R) s :
  forall taken r,
    star_greedy p k taken s = Some r ->
    exists w rest, s = w ++ rest /\ all_of p w /\ k (taken ++ w) rest = Some r.
Proof.
  induction s as [|c s IH]; intros taken r H; cbn [star_greedy] in H.
  - empty_run (@nil char) H.
  - destruct (p c) eqn:Ep.
    + destruct (star_greedy p k (taken ++ [c]) s) as [r'|] eqn:E.
      * injection H as <-. destruct (IH _ _ E) as (w & rest & -> & Hw & Hk).
        exists (c :: w), rest. split; [reflexivity|].
        split; [now constructor|]. now rewrite <- app_assoc in Hk.
      * empty_run (c :: s) H.
    + empty_run (c :: s) H.
Qed.

Lemma plus_greedy_sound p (k : str -> str -> option R) s r :
  plus_greedy p k s = Some r ->
  exists w rest, s = w ++ rest /\ w <> [] /\ all_of p w /\ k w rest = Some r.
Proof.
  unfold plus_greedy. destruct s as [|c s]; [discriminate|].
  destruct (p c) eqn:Ep; [|discriminate]. intros H.
  destruct (star_greedy_sound p k s [c] r H) as (w & rest & -> & Hw & Hk).
  exists (c :: w), rest. split; [reflexivity|]. split; [discriminate|].
  split; [now constructor | exact Hk].
Qed.

Lemma star_lazy_sound p (k : str -> str -> option R) s :
  forall taken r,
    star_lazy p k taken s = Some r ->
    exists w rest, s = w ++ rest /\ all_of p w /\ k (taken ++ w) rest = Some r.
Proof.
  induction s as [|c s IH]; intros taken r H; cbn [star_lazy] in H.
  - destruct (k taken []) eqn:E; [|discriminate]. injection H as <-.
    empty_run (@nil char) E.
  - destruct (k taken (c :: s)) eqn:E.
    + injection H as <-. empty_run (c :: s) E.
    + destruct (p c) eqn:Ep; [|discriminate].
      destruct (IH _ _ H) as (w & rest & -> & Hw & Hk).
      exists (c :: w), rest. split; [reflexivity|].
      split; [now constructor|]. now rewrite <- app_assoc in Hk.
Qed.

Lemma lit_sound c (k : str -> option R) s r :
  lit c k s = Some r -> exists rest, s = c :: rest /\ k rest = Some r.
Proof.
  unfold lit. destruct s as [|x s]; [discriminate|].
  destruct (N.eqb_spec x c) as [->|]; [|discriminate].
  intros H. now exists s.
Qed.

(** A greedy run stops where the class stops, when the rest of the
    pattern matches there. *)
Lemma star_greedy_run p (k : str -> str -> option R) w rest r :
  all_of p w -> (forall c rest', rest = c :: rest' -> p c = false) ->
  forall taken,
    k (taken ++ w) rest = Some r ->
    star_greedy p k taken (w ++ rest) = Some r.
Proof.
  intros Hw Hstop. induction Hw as [|c w Hc _ IH]; intros taken Hk.
  - rewrite app_nil_r in Hk. cbn [app]. destruct rest as [|c rest'];
      cbn [star_greedy]; [exact Hk|].
    now rewrite (Hstop c rest' eq_refl).
  - cbn [app star_greedy]. rewrite Hc.
    rewrite (IH (taken ++ [c])); [reflexivity|].
    now rewrite <- app_assoc.
Qed.

Lemma plus_greedy_run p (k : str -> str -> option R) w rest r :
  w <> [] -> all_of p w ->
  (forall c rest', rest = c :: rest' -> p c = false) ->
  k w rest = Some r -> plus_greedy p k (w ++ rest) = Some r.
Proof.
  intros Hne Hw Hstop Hk. destruct w as [|c w]; [congruence|].
  inversion Hw as [|? ? Hc Hw']; subst. cbn [app plus_greedy].
  rewrite Hc. now apply star_greedy_run.
Qed.

(** A lazy run goes on while the rest of the pattern fails. *)
Lemma star_lazy_run p (k : str -> str -> option R) w rest r :
  all_of p w ->
  forall taken,
    (forall w1 c w2, w = w1 ++ c :: w2 ->
                     k (taken ++ w1) (c :: w2 ++ rest) = None) ->
    k (taken ++ w) rest = Some r ->
    star_lazy p k taken (w ++ rest) = Some r.
Proof.
  intros Hw. induction Hw as [|c w Hc _ IH]; intros taken Hfail Hk.
  - rewrite app_nil_r in Hk. cbn [app].
    destruct rest; cbn [star_lazy]; now rewrite Hk.
  - cbn [app star_lazy].
    pose proof (Hfail [] c w eq_refl) as H0.
    rewrite app_nil_r in H0. rewrite H0, Hc.
    apply IH; [|now rewrite <- app_assoc].
    intros w1 c' w2 ->. rewrite <- app_assoc.
    exact (Hfail (c :: w1) c' w2 eq_refl).
Qed.

(** A greedy run over the whole rest gives back its last character when
    the pattern needs it. *)
Lemma star_greedy_back p (k : str -> str -> option R) w c r :
  all_of p (w ++ [c]) ->
  forall taken,
    k (taken ++ w ++ [c]) [] = None ->
    k (taken ++ w) [c] = Some r ->
    star_greedy p k taken (w ++ [c]) = Some r.
Proof.
  induction w as [|x w IH]; intros Hw taken Hnone Hk; cbn [app] in *.
  - inversion Hw as [|? ? Hc _]; subst. cbn [star_greedy]. rewrite Hc.
    cbn [star_greedy]. rewrite Hnone. now rewrite app_nil_r in Hk.
  - inversion Hw as [|? ? Hx Hw']; subst. cbn [star_greedy]. rewrite Hx.
    rewrite (IH Hw' (taken ++ [x])); [reflexivity| |];
      now rewrite <- app_assoc.
Qed.

(** What a greedy run returns is the result of its longest run after
    which the rest of the pattern matches; it fails when the rest
    matches after no run. *)
Lemma star_greedy_spec p (k : str -> str -> option R) s :
  forall taken,
    match star_greedy p k taken s with
    | Some r =>
      exists w rest,
        s = w ++ rest /\ all_of p w /\ k (taken ++ w) rest = Some r
        /\ forall w' rest',
             s = w' ++ rest' -> all_of p w' -> (length w < length w')%nat ->
             k (taken ++ w') rest' = None
    | None =>
      forall w rest, s = w ++ rest -> all_of p w -> k (taken ++ w) rest = None
    end.
Proof.
  assert (Hnil : forall taken,
    match k taken [] with
    | Some r =>
      exists w rest,
        [] = w ++ rest /\ all_of p w /\ k (taken ++ w) rest = Some r
        /\ forall w' rest',
             [] = w' ++ rest' -> all_of p w' -> (length w < length w')%nat ->
             k (taken ++ w') rest' = None
    | None =>
      forall w rest, [] = w ++ rest -> all_of p w -> k (taken ++ w) rest = None
    end).
  { intros taken. destruct (k taken []) as [r|] eqn:E.
    - exists [], []. split; [reflexivity|]. split; [constructor|].
      rewrite app_nil_r. split; [exact E|].
      intros w' rest' Hs _ Hl. symmetry in Hs. apply app_eq_nil in Hs.
      destruct Hs as [-> _]. cbn in Hl. lia.
    - intros w rest Hs _. symmetry in Hs. apply app_eq_nil in Hs.
      destruct Hs as [-> ->]. now rewrite app_nil_r. }
  assert (Hstop : forall taken c s',
    p c = false ->
    match k taken (c :: s') with
    | Some r =>
      exists w rest,
        c :: s' = w ++ rest /\ all_of p w /\ k (taken ++ w) rest = Some r
        /\ forall w' rest',
             c :: s' = w' ++ rest' -> all_of p w' ->
             (length w < length w')%nat -> k (taken ++ w') rest' = None
    | None =>
      forall w rest, c :: s' = w ++ rest -> all_of p w ->
                     k (taken ++ w) rest = None
    end).
  { intros taken c s' Hc. destruct (k taken (c :: s')) as [r|] eqn:E.
    - exists [], (c :: s'). split; [reflexivity|]. split; [constructor|].
      rewrite app_nil_r. split; [exact E|].
      intros [|x w'] rest' Hs Hw Hl; [cbn in Hl; lia|].
      injection Hs as <- _. inversion Hw; congruence.
    - intros [|x w] rest Hs Hw.
      + cbn in Hs. subst rest. now rewrite app_nil_r.
      + injection Hs as <- _. inversion Hw; congruence. }
  induction s as [|c s IH]; intros taken; cbn [star_greedy];
    [apply Hnil|].
  destruct (p c) eqn:Ec; [|now apply Hstop].
  specialize (IH (taken ++ [c])).
  destruct (star_greedy p k (taken ++ [c]) s) as [r|].
  - destruct IH as (w & rest & -> & Hw & Hk & Hlong).
    exists (c :: w), rest. split; [reflexivity|].
    split; [now constructor|]. rewrite <- app_assoc in Hk.
    split; [exact Hk|]. intros [|x w'] rest' Hs Hw' Hl; [cbn in Hl; lia|].
    injection Hs as <- Hs. apply Forall_cons in Hw'; destruct Hw' as [_ Hw''].
    specialize (Hlong w' rest' Hs Hw''). rewrite <- app_assoc in Hlong.
    apply Hlong. cbn in Hl. lia.
  - destruct (k taken (c :: s)) as [r|] eqn:E.
    + exists [], (c :: s). split; [reflexivity|]. split; [constructor|].
      rewrite app_nil_r. split; [exact E|].
      intros [|x w'] rest' Hs Hw' Hl; [cbn in Hl; lia|].
      injection Hs as <- Hs. apply Forall_cons in Hw'; destruct Hw' as [_ Hw''].
      specialize (IH w' rest' Hs Hw''). now rewrite <- app_assoc in IH.
    + intros [|x w] rest Hs Hw.
      * cbn in Hs. subst rest. now rewrite app_nil_r.
      * injection Hs as <- Hs. apply Forall_cons in Hw; destruct Hw as [_ Hw'].
        specialize (IH w rest Hs Hw'). now rewrite <- app_assoc in IH.
Qed.

(** What a lazy run returns is the result of its shortest run after
    which the rest of the pattern matches. *)
Lemma star_lazy_spec p (k : str -> str -> option R) s :
  forall taken r,
    star_lazy p k taken s = Some r ->
    exists w rest,
      s = w ++ rest /\ all_of p w /\ k (taken ++ w) rest = Some r
      /\ forall w1 c w2,
           w = w1 ++ c :: w2 -> k (taken ++ w1) (c :: w2 ++ rest) = None.
Proof.
  induction s as [|c s IH]; intros taken r H; cbn [star_lazy] in H.
  - destruct (k taken []) eqn:E; [|discriminate]. injection H as <-.
    exists [], []. split; [reflexivity|]. split; [constructor|].
    rewrite app_nil_r. split; [exact E|]. intros [|? ?]; discriminate.
  - destruct (k taken (c :: s)) eqn:E.
    + injection H as <-. exists [], (c :: s). split; [reflexivity|].
      split; [constructor|]. rewrite app_nil_r. split; [exact E|].
      intros [|? ?]; discriminate.
    + destruct (p c) eqn:Ep; [|discriminate].
      destruct (IH _ _ H) as (w & rest & -> & Hw & Hk & Hshort).
      exists (c :: w), rest. split; [reflexivity|].
      split; [now constructor|]. rewrite <- app_assoc in Hk.
      split; [exact Hk|]. intros [|x w1] c' w2 Hs.
      * injection Hs as <- <-. now rewrite app_nil_r.
      * injection Hs as <- ->. specialize (Hshort w1 c' w2 eq_refl).
        now rewrite <- !app_assoc in Hshort.
Qed.

Lemma star_greedy_longest p (k : str -> str -> option R) w rest r taken :
  all_of p w -> k (taken ++ w) rest = Some r ->
  (forall w' rest',
     w ++ rest = w' ++ rest' -> all_of p w' -> (length w < length w')%nat ->
     k (taken ++ w') rest' = None) ->
  star_greedy p k taken (w ++ rest) = Some r.
Proof.
  intros Hw Hk Hlong.
  pose proof (star_greedy_spec p k (w ++ rest) taken) as Hs.
  destruct (star_greedy p k taken (w ++ rest)) as [r0|].
  - destruct Hs as (w0 & rest0 & E & Hw0 & Hk0 & Hlong0).
    destruct (Nat.lt_trichotomy (length w) (length w0)) as [H|[H|H]].
    + rewrite (Hlong w0 rest0 E Hw0 H) in Hk0. discriminate.
    + destruct (app_inj_1 _ _ _ _ H E) as [-> ->]. congruence.
    + rewrite (Hlong0 w rest eq_refl Hw H) in Hk. discriminate.
  - rewrite (Hs w rest eq_refl Hw) in Hk. discriminate.
Qed.

End MatcherFacts.

(** *** The line parser *)

(** What follows the closing bracket: spaces, a slash, and a later slash
    with no end of line between the two. *)
Definition tail_matches (s : str) : Prop :=
  exists ws d rest,
    s = ws ++ [0x2F%N] ++ d ++ [0x2F%N] ++ rest
    /\ ws <> [] /\ all_of re_space ws /\ all_of re_dot d.

(** The shape of a line of the dictionary file: two words, the bracketed
    pinyin, the glosses between slashes, with runs of spaces between the
    parts, and anything after the last slash.  The pinyin ends at the
    first closing bracket after which the rest can be read, and the
    glosses at the last slash of their line. *)
Definition line_shape (line g1 g2 g3 g4 : str) : Prop :=
  exists ws1 ws2 ws3 rest,
    line = g1 ++ ws1 ++ g2 ++ ws2 ++ [0x5B%N] ++ g3 ++ [0x5D%N] ++ ws3
           ++ [0x2F%N] ++ g4 ++ [0x2F%N] ++ rest
    /\ g1 <> [] /\ all_of re_nonspace g1
    /\ g2 <> [] /\ all_of re_nonspace g2
    /\ ws1 <> [] /\ all_of re_space ws1
    /\ ws2 <> [] /\ all_of re_space ws2
    /\ ws3 <> [] /\ all_of re_space ws3
    /\ all_of re_dot g3 /\ all_of re_dot g4
    /\ (forall w1 w2,
          g3 = w1 ++ 0x5D%N :: w2 ->
          ~ tail_matches (w2 ++ [0x5D%N] ++ ws3 ++ [0x2F%N] ++ g4
                          ++ [0x2F%N] ++ rest))
    /\ (forall x y, rest = x ++ 0x2F%N :: y -> ~ all_of re_dot x).

(** The part of the pattern after the closing bracket. *)
Definition match_tail (g1 g2 g3 : str) : str -> option (str * str * str * str) :=
  plus_greedy re_space (fun _ =>
  lit 0x2F%N (
  star_greedy re_dot (fun g4 =>
  lit 0x2F%N (fun _ => Some (g1, g2, g3, g4))) [])).

Lemma match_line_tail line :
  match_line line
  = plus_greedy re_nonspace (fun g1 =>
    plus_greedy re_space (fun _ =>
    plus_greedy re_nonspace (fun g2 =>
    plus_greedy re_space (fun _ =>
    lit 0x5B%N (
    star_lazy re_dot (fun g3 => lit 0x5D%N (match_tail g1 g2 g3)) [])))))
    line.
Proof. reflexivity. Qed.

Lemma match_tail_sound g1 g2 g3 s r :
  match_tail g1 g2 g3 s = Some r -> tail_matches s.
Proof.
  unfold match_tail. intros H.
  apply plus_greedy_sound in H. destruct H as (ws & r1 & -> & N1 & A1 & H).
  apply lit_sound in H. destruct H as (r2 & -> & H).
  apply star_greedy_sound in H. destruct H as (d & r3 & -> & A2 & H).
  apply lit_sound in H. destruct H as (r4 & -> & _).
  exists ws, d, r4. split; [reflexivity|]. tauto.
Qed.

Lemma match_tail_complete g1 g2 g3 s :
  tail_matches s -> match_tail g1 g2 g3 s <> None.
Proof.
  intros (ws & d & rest & -> & Nw & Aw & Ad). unfold match_tail.
  set (k4 := fun g4 : str =>
               lit 0x2F%N (fun _ : str => Some (g1, g2, g3, g4))).
  pose proof (star_greedy_spec re_dot k4 (d ++ [0x2F%N] ++ rest) []) as Hs.
  destruct (star_greedy re_dot k4 [] (d ++ [0x2F%N] ++ rest)) as [r|] eqn:E.
  - rewrite (plus_greedy_run _ _ ws _ r Nw Aw); [discriminate| |].
    + intros c rest' Hc. injection Hc as <- _. reflexivity.
    + cbn [app lit N.eqb Pos.eqb]. exact E.
  - specialize (Hs d ([0x2F%N] ++ rest) eq_refl Ad). discriminate Hs.
Qed.

Lemma app_longer {A} (w w' a b : list A) :
  w ++ a = w' ++ b -> (length w < length w')%nat ->
  exists x y, w' = w ++ x :: y /\ a = x :: y ++ b.
Proof.
  revert w'. induction w as [|c w IH]; intros w' E Hl.
  - destruct w' as [|x y]; [cbn in Hl; lia|]. cbn in E. now exists x, y.
  - destruct w' as [|c' w']; [cbn in Hl; lia|].
    injection E as <- E. destruct (IH w' E) as (x & y & -> & ->).
    + cbn in Hl. lia.
    + now exists x, y.
Qed.

Lemma match_line_sound line g1 g2 g3 g4 :
  match_line line = Some (g1, g2, g3, g4) -> line_shape line g1 g2 g3 g4.
Proof.
  rewrite match_line_tail. intros H.
  apply plus_greedy_sound in H. destruct H as (w1 & r1 & -> & N1 & A1 & H).
  apply plus_greedy_sound in H. destruct H as (s1 & r2 & -> & N2 & A2 & H).
  apply plus_greedy_sound in H. destruct H as (w2 & r3 & -> & N3 & A3 & H).
  apply plus_greedy_sound in H. destruct H as (s2 & r4 & -> & N4 & A4 & H).
  apply lit_sound in H. destruct H as (r5 & -> & H).
  apply star_lazy_spec in H.
  destruct H as (w3 & r6 & -> & A5 & H & Hshort).
  apply lit_sound in H. destruct H as (r7 & -> & H).
  cbn [app] in H, Hshort. unfold match_tail in H.
  apply plus_greedy_sound in H. destruct H as (s3 & r8 & -> & N6 & A6 & H).
  apply lit_sound in H. destruct H as (r9 & -> & H).
  match type of H with
  | star_greedy ?p ?k ?t ?s = _ =>
    pose proof (star_greedy_spec p k s t) as Hs
  end.
  rewrite H in Hs. destruct Hs as (w4 & r10 & -> & A7 & Hk & Hlong).
  cbn [app] in Hk, Hlong.
  apply lit_sound in Hk. destruct Hk as (r11 & -> & Hk).
  injection Hk as <- <- <- <-.
  exists s1, s2, s3, r11. cbn [app].
  split; [reflexivity|]. repeat (split; [assumption|]). split.
  - intros x y -> Ht.
    specialize (Hshort x 0x5D%N y eq_refl).
    cbn [lit N.eqb Pos.eqb] in Hshort.
    apply (match_tail_complete w1 w2 x) in Ht. contradiction.
  - intros x y -> Hx.
    assert (E : w4 ++ 0x2F%N :: x ++ 0x2F%N :: y
                = (w4 ++ 0x2F%N :: x) ++ 0x2F%N :: y)
      by now rewrite <- app_assoc.
    assert (Hw : all_of re_dot (w4 ++ 0x2F%N :: x)).
    { apply Forall_app. split; [exact A7|]. now constructor. }
    specialize (Hlong _ _ E Hw). cbn [lit N.eqb Pos.eqb] in Hlong.
    discriminate Hlong. rewrite length_app. cbn [length]. lia.
Qed.

Lemma match_line_complete line g1 g2 g3 g4 :
  line_shape line g1 g2 g3 g4 -> match_line line = Some (g1, g2, g3, g4).
Proof.
  intros (ws1 & ws2 & ws3 & rest & -> & N1 & A1 & N2 & A2 & Nw1 & Aw1
          & Nw2 & Aw2 & Nw3 & Aw3 & A3 & A4 & Hmin & Hmax).
  rewrite match_line_tail.
  assert (Hsp : forall (w : str) t c rest',
            w <> [] -> all_of re_space w -> w ++ t = c :: rest' ->
            re_nonspace c = false).
  { intros [|x w] t c rest' Hn Hw E; [congruence|]. injection E as <- _.
    inversion Hw as [|? ? Hx _]; subst. unfold re_nonspace, re_space in *.
    now rewrite Hx. }
  assert (Hns : forall (w : str) t c rest',
            w <> [] -> all_of re_nonspace w -> w ++ t = c :: rest' ->
            re_space c = false).
  { intros [|x w] t c rest' Hn Hw E; [congruence|]. injection E as <- _.
    inversion Hw as [|? ? Hx _]; subst. unfold re_nonspace, re_space in *.
    now apply negb_true_iff in Hx. }
  apply plus_greedy_run; [exact N1 | exact A1 | |].
  { intros c rest' E. exact (Hsp ws1 _ c rest' Nw1 Aw1 E). }
  apply plus_greedy_run; [exact Nw1 | exact Aw1 | |].
  { intros c rest' E. exact (Hns g2 _ c rest' N2 A2 E). }
  apply plus_greedy_run; [exact N2 | exact A2 | |].
  { intros c rest' E. exact (Hsp ws2 _ c rest' Nw2 Aw2 E). }
  apply plus_greedy_run; [exact Nw2 | exact Aw2 | |].
  { intros c rest' E. injection E as <- _. reflexivity. }
  cbn [app lit N.eqb Pos.eqb].
  apply star_lazy_run; [exact A3 | |].
  { intros w1 c w2 ->. cbn [app lit].
    destruct (N.eqb_spec c 0x5D%N) as [->|Hne]; [|reflexivity].
    destruct (match_tail g1 g2 w1 _) as [r|] eqn:E; [|reflexivity].
    apply match_tail_sound in E. exfalso.
    apply (Hmin w1 w2 eq_refl). exact E. }
  cbn [app lit N.eqb Pos.eqb]. unfold match_tail.
  apply plus_greedy_run; [exact Nw3 | exact Aw3 | |].
  { intros c rest' E. injection E as <- _. reflexivity. }
  cbn [app lit N.eqb Pos.eqb].
  apply star_greedy_longest; [exact A4 | reflexivity|].
  intros w' rest' E Hw' Hl. cbn [app].
  destruct (app_longer _ _ _ _ E Hl) as (x & y & -> & E').
  injection E' as <- ->.
  destruct rest' as [|c rest'']; [reflexivity|]. cbn [lit].
  destruct (N.eqb_spec c 0x2F%N) as [->|]; [|reflexivity].
  exfalso. apply (Hmax y rest'' eq_refl).
  apply Forall_app in Hw'. destruct Hw' as [_ Hw'].
  now inversion Hw'.
Qed.

(** C3, as the code has it: in the entry of a line, [pinyin] is the
    bracketed text of the line, [pinyin_marks] is [decode_pinyin] of it,
    and [pinyin_numbered] is it without white space and in small
    letters.  Decoding [pinyin_numbered] gives [pinyin_marks] when the
    two texts coincide: a pinyin without white space that [lower]
    leaves as it is. *)
Theorem parse_line_pinyin_fields :
  forall (line : str) (e : entry),
    parse_line line = Some e ->
    line_shape line (traditional e) (simplified e) (pinyin e) (definitions e)
    /\ pinyin_marks e = decode_pinyin (pinyin e)
    /\ pinyin_numbered e = lower_str (remove_spaces (pinyin e))
    /\ (Forall (fun c => isspace c = false) (pinyin e) ->
        lower_str (pinyin e) = pinyin e ->
        decode_pinyin (pinyin_numbered e) = pinyin_marks e).
Proof.
  intros line e H. unfold parse_line in H.
  destruct (match_line line) as [[[[g1 g2] g3] g4]|] eqn:E; [|discriminate].
  injection H as <-.
  cbn [pinyin_marks pinyin_numbered pinyin traditional simplified
       definitions].
  split; [now apply match_line_sound|].
  split; [reflexivity|]. split; [reflexivity|].
  intros Hsp Hlow. now rewrite remove_spaces_id, Hlow.
Qed.

Definition line_ma : str := u8 "媽 妈 [ma1] /mother/mom/".

Lemma parse_line_pinyin_fields_witness :
  exists e, parse_line line_ma = Some e
    /\ pinyin e = u8 "ma1"
    /\ line_shape line_ma (traditional e) (simplified e) (pinyin e)
         (definitions e)
    /\ pinyin_marks e = decode_pinyin (pinyin e)
    /\ pinyin_numbered e = lower_str (remove_spaces (pinyin e))
    /\ (Forall (fun c => isspace c = false) (pinyin e) ->
        lower_str (pinyin e) = pinyin e ->
        decode_pinyin (pinyin_numbered e) = pinyin_marks e).
Proof.
  destruct (parse_line line_ma) as [e|] eqn:E; [|vm_compute in E; discriminate E].
  exists e. split; [reflexivity|].
  split; [vm_compute in E; injection E as <-; reflexivity|].
  exact (parse_line_pinyin_fields line_ma e E).
Defined.

(** C3 as stated fails on an entry of two syllables: decoding the
    space-free [pinyin_numbered] does not give the stored [pinyin_marks].
    It also fails on a capital: [pinyin_numbered] has lost it. *)
Lemma parse_line_numbered_counterexample :
  (exists e, parse_line (u8 "你好 你好 [ni3 hao3] /hello/") = Some e
     /\ pinyin_numbered e = u8 "ni3hao3"
     /\ pinyin_marks e = u8 "nǐ hǎo"
     /\ decode_pinyin (pinyin_numbered e) = u8 "ni3hǎo"
     /\ decode_pinyin (pinyin_numbered e) <> pinyin_marks e)
  /\ (exists e, parse_line (u8 "馬 马 [Ma3] /surname Ma/") = Some e
        /\ pinyin_numbered e = u8 "ma3"
        /\ pinyin_marks e = u8 "Mǎ"
        /\ decode_pinyin (pinyin_numbered e) = u8 "mǎ").
Proof.
  split.
  - eexists. split; [vm_compute; reflexivity|].
    split; [reflexivity|]. split; [reflexivity|]. split; [reflexivity|].
    discriminate.
  - eexists. split; [vm_compute; reflexivity|].
    split; [reflexivity|]. split; reflexivity.
Qed.

End ConvertFacts.

(* ===================================================================== *)
(** ** Properties of the order and of the sort                            *)
(* ===================================================================== *)

Module OrderFacts.

(** The laws of a three-way comparison that make [leb] a total preorder. *)
Class CmpOrder (A : Type) `{Cmp A} : Prop := {
  cmp_antisym : forall x y : A, cmp y x = CompOpp (cmp x y);
  cmp_eq_l : forall x y z : A, cmp x y = Eq -> cmp x z = cmp y z;
  cmp_lt_trans : forall x y z : A,
    cmp x y = Lt -> cmp y z = Lt -> cmp x z = Lt;
}.

#[global] Instance Z_order : CmpOrder Z.
Proof.
  split; unfold cmp, Z_cmp.
  - intros x y. apply Z.compare_antisym.
  - intros x y z H. apply Z.compare_eq in H. now subst.
  - intros x y z. rewrite !Z.compare_lt_iff. lia.
Qed.

#[global] Instance Q_order : CmpOrder Q.
Proof.
  split; unfold cmp, Q_cmp.
  - intros x y. symmetry. apply Qcompare_antisym.
  - intros x y z H. apply Qeq_alt in H. now rewrite H.
  - intros x y z. rewrite <- !Qlt_alt. apply Qlt_trans.
Qed.

Section Laws.
Context {A : Type} `{CmpOrder A}.

Lemma cmp_refl (x : A) : cmp x x = Eq.
Proof.
  pose proof (cmp_antisym x x) as E. destruct (cmp x x); simpl in E;
    congruence.
Qed.

Lemma cmp_eq_r (x y z : A) : cmp y z = Eq -> cmp x y = cmp x z.
Proof.
  intros E. rewrite (cmp_antisym y x), (cmp_antisym z x). f_equal.
  now apply cmp_eq_l.
Qed.

Lemma cmp_gt_lt (x y : A) : cmp x y = Gt <-> cmp y x = Lt.
Proof.
  rewrite (cmp_antisym x y). destruct (cmp x y); simpl; split; congruence.
Qed.

Lemma ltb_leb (x y : A) : ltb x y = negb (leb y x).
Proof.
  unfold ltb, leb. rewrite (cmp_antisym x y).
  destruct (cmp x y); reflexivity.
Qed.

Lemma leb_total (x y : A) : leb x y = true \/ leb y x = true.
Proof.
  unfold leb. rewrite (cmp_antisym x y).
  destruct (cmp x y); simpl; auto.
Qed.

Lemma leb_trans (x y z : A) :
  leb x y = true -> leb y z = true -> leb x z = true.
Proof.
  unfold leb. intros Hxy Hyz.
  destruct (cmp x y) eqn:Exy; [| |discriminate].
  - now rewrite (cmp_eq_l x y z Exy).
  - destruct (cmp y z) eqn:Eyz; [| |discriminate].
    + now rewrite <- (cmp_eq_r x y z Eyz), Exy.
    + now rewrite (cmp_lt_trans x y z Exy Eyz).
Qed.

Lemma ltb_irrefl (x : A) : ltb x x = false.
Proof. unfold ltb. now rewrite cmp_refl. Qed.

Lemma ltb_not_leb (x y : A) : ltb x y = true -> leb y x = true -> False.
Proof. rewrite ltb_leb. intros H1 H2. rewrite H2 in H1. discriminate. Qed.
End Laws.

#[global] Instance prod_order {A B} `{CmpOrder A, CmpOrder B} :
  CmpOrder (A * B).
Proof.
  split; unfold cmp, prod_cmp.
  - intros [a b] [a' b']; simpl.
    rewrite (cmp_antisym a a'), (cmp_antisym b b').
    destruct (cmp a a'); reflexivity.
  - intros [a b] [a' b'] [a'' b'']; simpl. intros E.
    destruct (cmp a a') eqn:Ea; simpl in E; try discriminate.
    now rewrite (cmp_eq_l a a' a'' Ea), (cmp_eq_l b b' b'' E).
  - intros [a b] [a' b'] [a'' b'']; simpl. intros E1 E2.
    destruct (cmp a a') eqn:Ea; simpl in E1; try discriminate.
    + rewrite (cmp_eq_l a a' a'' Ea).
      destruct (cmp a' a'') eqn:Ea'; simpl in *; try discriminate;
        [|reflexivity].
      now apply (cmp_lt_trans b b' b'').
    + destruct (cmp a' a'') eqn:Ea'; simpl in E2; try discriminate.
      * now rewrite <- (cmp_eq_r a a' a'' Ea'), Ea.
      * now rewrite (cmp_lt_trans a a' a'' Ea Ea').
Qed.

(** *** The stable sort by a key *)

Lemma StronglySorted_suffix {A} (R : A -> A -> Prop) (p q : list A) :
  StronglySorted R (p ++ q) -> StronglySorted R q.
Proof.
  induction p as [|x p IH]; simpl; [trivial|].
  intros Hs. apply StronglySorted_inv in Hs. now apply IH.
Qed.

Section SortByKey.
Context {A K : Type} `{CmpOrder K} (key : A -> K).

Definition key_lt (a b : A) : bool := ltb (key a) (key b).
Definition key_le (a b : A) : Prop := leb (key a) (key b) = true.

Lemma insert_sorted_perm x l :
  Permutation (insert_sorted key_lt x l) (x :: l).
Proof.
  induction l as [|y l IH]; simpl; [reflexivity|].
  destruct (key_lt y x); [|reflexivity].
  rewrite IH. apply perm_swap.
Qed.

Lemma sort_perm l : Permutation (sort key_lt l) l.
Proof.
  induction l as [|x l IH]; simpl; [reflexivity|].
  rewrite insert_sorted_perm. now constructor.
Qed.

Lemma key_le_trans a b c : key_le a b -> key_le b c -> key_le a c.
Proof. apply leb_trans. Qed.

Lemma insert_sorted_ordered x l :
  StronglySorted key_le l -> StronglySorted key_le (insert_sorted key_lt x l).
Proof.
  induction 1 as [|y l Hs IH Hy]; simpl.
  - repeat constructor.
  - destruct (key_lt y x) eqn:E.
    + constructor; [assumption|].
      rewrite List.Forall_forall. intros z Hz.
      apply (Permutation_in _ (insert_sorted_perm x l)) in Hz.
      destruct Hz as [<-|Hz].
      * unfold key_lt in E. unfold key_le, leb. unfold ltb in E.
        destruct (cmp (key y) (key x)); congruence.
      * rewrite List.Forall_forall in Hy. now apply Hy.
    + assert (Hxy : key_le x y).
      { unfold key_lt in E. rewrite ltb_leb in E.
        now apply negb_false_iff in E. }
      constructor; [now constructor|].
      constructor; [assumption|].
      rewrite List.Forall_forall in *. intros z Hz.
      apply (key_le_trans x y z); [assumption | now apply Hy].
Qed.

(** The output is in ascending order of the key. *)
Lemma sort_ordered l : StronglySorted key_le (sort key_lt l).
Proof.
  induction l as [|x l IH]; simpl; [constructor|].
  now apply insert_sorted_ordered.
Qed.

(** The output keeps the elements of equal key in their input order. *)
Lemma insert_sorted_stable k x l :
  List.filter (fun a => bool_decide (cmp (key a) k = Eq))
    (insert_sorted key_lt x l)
  = List.filter (fun a => bool_decide (cmp (key a) k = Eq)) (x :: l).
Proof.
  induction l as [|y l IH]; [reflexivity|].
  cbn [insert_sorted]. destruct (key_lt y x) eqn:E; [|reflexivity].
  cbn [List.filter] in *. rewrite IH.
  destruct (bool_decide (cmp (key x) k = Eq)) eqn:Ex; [|reflexivity].
  apply bool_decide_eq_true in Ex.
  assert (Ey : cmp (key y) k = Lt).
  { rewrite <- (cmp_eq_r (key y) (key x) k Ex).
    unfold key_lt, ltb in E. destruct (cmp (key y) (key x)); congruence. }
  rewrite (bool_decide_eq_false_2 (cmp (key y) k = Eq)) by congruence.
  reflexivity.
Qed.

Lemma sort_stable k l :
  List.filter (fun a => bool_decide (cmp (key a) k = Eq)) (sort key_lt l)
  = List.filter (fun a => bool_decide (cmp (key a) k = Eq)) l.
Proof.
  induction l as [|x l IH]; [reflexivity|].
  cbn [sort]. rewrite insert_sorted_stable. cbn [List.filter].
  now rewrite IH.
Qed.

(** An element of strictly smaller key comes first. *)
Lemma sort_before a b l :
  In a l -> In b l -> key_lt a b = true ->
  exists l1 l2 l3, sort key_lt l = l1 ++ a :: l2 ++ b :: l3.
Proof.
  intros Ha Hb Hlt.
  pose proof (sort_ordered l) as Hs.
  assert (Ha' : In a (sort key_lt l)).
  { apply (Permutation_in _ (Permutation_sym (sort_perm l))), Ha. }
  assert (Hb' : In b (sort key_lt l)).
  { apply (Permutation_in _ (Permutation_sym (sort_perm l))), Hb. }
  destruct (in_split _ _ Hb') as (p & q & E). rewrite E in *.
  assert (Hap : In a p).
  { apply in_app_or in Ha'. destruct Ha' as [Hp|[->|Hq]]; [assumption| |].
    - unfold key_lt in Hlt. rewrite ltb_irrefl in Hlt. discriminate.
    - exfalso. apply StronglySorted_suffix in Hs.
      apply StronglySorted_inv in Hs. destruct Hs as [_ Hall].
      rewrite List.Forall_forall in Hall. specialize (Hall a Hq).
      exact (ltb_not_leb _ _ Hlt Hall). }
  destruct (in_split _ _ Hap) as (l1 & l2 & ->).
  exists l1, l2, q. now rewrite <- app_assoc.
Qed.

End SortByKey.

End OrderFacts.

(* ===================================================================== *)
(** ** Properties of the search pipeline                                  *)
(* ===================================================================== *)

Module AppFacts.
Import PyStr App OrderFacts.

(** *** Pagination *)

Lemma total_pages_bounds n :
  RESULTS_PER_PAGE * (total_pages_of n - 1) < n
  <= RESULTS_PER_PAGE * total_pages_of n.
Proof.
  unfold total_pages_of, RESULTS_PER_PAGE.
  pose proof (Z.div_mod (n + 20 - 1) 20 ltac:(lia)).
  pose proof (Z.mod_pos_bound (n + 20 - 1) 20 ltac:(lia)). lia.
Qed.

Lemma total_pages_ceiling n : total_pages_of n = Qceiling (n # 20).
Proof.
  unfold Qceiling, Qfloor, Qopp, total_pages_of, RESULTS_PER_PAGE.
  cbn [Qnum Qden].
  pose proof (Z.div_mod (n + 20 - 1) 20 ltac:(lia)).
  pose proof (Z.mod_pos_bound (n + 20 - 1) 20 ltac:(lia)).
  pose proof (Z.div_mod (- n) 20 ltac:(lia)).
  pose proof (Z.mod_pos_bound (- n) 20 ltac:(lia)). lia.
Qed.

Lemma paginate_beyond {A} (l : list A) page :
  total_pages_of (Z.of_nat (length l)) < page -> paginate l page = [].
Proof.
  intros H. pose proof (total_pages_bounds (Z.of_nat (length l))) as B.
  unfold RESULTS_PER_PAGE in B.
  unfold paginate, slice, slice_bound, RESULTS_PER_PAGE.
  replace ((page - 1) * 20 <? 0) with false by (symmetry; apply Z.ltb_ge; lia).
  replace ((page - 1) * 20 + 20 <? 0) with false
    by (symmetry; apply Z.ltb_ge; lia).
  replace (Z.to_nat _) with 0%nat by lia. reflexivity.
Qed.

(** C6: the number of pages is the ceiling of the number of results over
    20 (the least number of pages of 20 that hold them all), and a page
    beyond it is the empty slice; [paginate] is total. *)
Theorem paginate_total_pages_and_beyond :
  forall (A : Type) (all_results : list A) (page : Z),
    1 <= page ->
    let total_results := Z.of_nat (length all_results) in
    total_pages_of total_results = Qceiling (total_results # 20)
    /\ 20 * (total_pages_of total_results - 1) < total_results
       <= 20 * total_pages_of total_results
    /\ (total_pages_of total_results < page ->
        paginate all_results page = []).
Proof.
  intros A l page _ n. split; [apply total_pages_ceiling|].
  split; [apply total_pages_bounds | apply paginate_beyond].
Qed.

Lemma paginate_total_pages_witness :
  let total_results := Z.of_nat (length (List.seq 0 45)) in
  total_pages_of total_results = Qceiling (total_results # 20)
  /\ 20 * (total_pages_of total_results - 1) < total_results
     <= 20 * total_pages_of total_results
  /\ (total_pages_of total_results < 4 -> paginate (List.seq 0 45) 4 = []).
Proof.
  apply (paginate_total_pages_and_beyond nat (List.seq 0 45) 4). lia.
Defined.

(** C10: below the first page nothing is raised; page 0 is always the
    empty slice, and page -1 is the slice from 40 before the end to 20
    before the end, which is not empty as soon as there are more than 20
    results. *)
Theorem paginate_below_first_page :
  forall (A : Type) (all_results : list A),
    let n := Z.of_nat (length all_results) in
    paginate all_results 0 = []
    /\ paginate all_results (-1)
       = firstn (Z.to_nat (Z.max (n - 20) 0 - Z.max (n - 40) 0))
           (skipn (Z.to_nat (Z.max (n - 40) 0)) all_results)
    /\ (20 < n ->
        length (paginate all_results (-1)) = Z.to_nat (Z.min 20 (n - 20))
        /\ paginate all_results (-1) <> []).
Proof.
  intros A l n.
  assert (E : paginate l (-1)
              = firstn (Z.to_nat (Z.max (n - 20) 0 - Z.max (n - 40) 0))
                  (skipn (Z.to_nat (Z.max (n - 40) 0)) l)).
  { unfold paginate, slice, slice_bound, RESULTS_PER_PAGE. fold n.
    change ((-1 - 1) * 20) with (-40). change (-40 + 20) with (-20).
    change (-40 <? 0) with true. change (-20 <? 0) with true. cbv iota.
    replace (-20 + n) with (n - 20) by lia.
    replace (-40 + n) with (n - 40) by lia. reflexivity. }
  split; [|split; [exact E|]].
  - unfold paginate, slice, slice_bound, RESULTS_PER_PAGE. fold n.
    change ((0 - 1) * 20) with (-20). change (-20 + 20) with 0.
    change (-20 <? 0) with true. change (0 <? 0) with false. cbv iota.
    replace (Z.to_nat (Z.min 0 n - Z.max (-20 + n) 0)) with 0%nat by lia.
    reflexivity.
  - intros Hn.
    assert (Hlen : length (paginate l (-1)) = Z.to_nat (Z.min 20 (n - 20))).
    { rewrite E, length_firstn, length_skipn. subst n. lia. }
    split; [assumption|].
    intros Hnil. rewrite Hnil in Hlen. simpl in Hlen. lia.
Qed.

Lemma paginate_below_first_page_witness :
  paginate (List.seq 0 45) 0 = []
  /\ paginate (List.seq 0 45) (-1) = List.seq 5 20
  /\ paginate (List.seq 0 45) (-1) <> [].
Proof.
  pose proof (paginate_below_first_page nat (List.seq 0 45)) as H.
  cbv zeta in H. destruct H as (H0 & H1 & H2).
  split; [exact H0|]. split; [reflexivity|].
  apply H2. vm_compute. reflexivity.
Defined.

(** *** The sort key *)

Lemma slash_barrier : ConvertFacts.barrier 0x2F%N.
Proof. repeat split; try (vm_compute; reflexivity). discriminate. Qed.

Lemma split_cases sep (s : str) :
  ~ In sep s \/ exists w rest, s = w ++ sep :: rest /\ ~ In sep w.
Proof.
  induction s as [|c s IH]; [left; intros []|].
  destruct (N.eqb_spec c sep) as [->|Hne].
  - right. exists [], s. split; [reflexivity | intros []].
  - destruct IH as [H|(w & rest & -> & Hw)].
    + left. intros [E|Hin]; [congruence | now apply H].
    + right. exists (c :: w), rest. split; [reflexivity|].
      intros [E|Hin]; [congruence | now apply Hw].
Qed.

(** The slash is neither moved nor produced by [lower], nor part of the
    context of a sigma: the glosses of the small-letter definitions are
    the small-letter glosses. *)
Lemma split_lower s :
  split 0x2F%N (lower_str s) = List.map lower_str (split 0x2F%N s).
Proof.
  assert (Hkeep : forall w, ~ In 0x2F%N w -> ~ In 0x2F%N (lower_str w)).
  { intros w Hw Hin. apply Hw.
    apply (ConvertFacts.lower_from_keeps 0x2F%N w eq_refl [] Hin). }
  remember (length s) as n eqn:En. revert s En.
  induction n as [n IH] using lt_wf_ind. intros s ->.
  destruct (split_cases 0x2F%N s) as [H|(w & rest & -> & Hw)].
  - rewrite (ConvertFacts.split_no_sep _ s H).
    now rewrite (ConvertFacts.split_no_sep _ _ (Hkeep s H)).
  - rewrite (ConvertFacts.lower_str_barrier _ w rest slash_barrier).
    rewrite !ConvertFacts.split_app_sep by auto.
    cbn [List.map]. f_equal.
    apply (IH (length rest)); [|reflexivity].
    rewrite length_app. cbn [length]. lia.
Qed.

Lemma in_list_In d l : in_list d l = true <-> In d l.
Proof.
  unfold in_list, eqb. rewrite existsb_exists. split.
  - intros (x & Hx & E). apply bool_decide_eq_true in E. now subst.
  - intros H. exists d. split; [assumption | now apply bool_decide_eq_true].
Qed.

(** The gloss test of the scorer: the small-letter form of some gloss of
    [definitions], trimmed, is the small-letter form of the query. *)
Definition gloss_matches (query : str) (r : result) : Prop :=
  exists gloss, In gloss (split 0x2F%N (definitions r))
                /\ strip (lower_str gloss) = lower_str query.

Lemma gloss_test_spec query r :
  in_list (lower_str query)
    (List.map strip (split 0x2F%N (lower_str (definitions r)))) = true
  <-> gloss_matches query r.
Proof.
  rewrite in_list_In, split_lower, List.map_map, in_map_iff.
  unfold gloss_matches. split; intros (g & H1 & H2); exists g; tauto.
Qed.

Definition match_type_of (r : result) : match_type :=
  default other (_match_type r).

(** The six components, as the specification words them. *)
Definition priority_of (r : result) : Z :=
  match match_type_of r with
  | exact => 0 | starts_with => 1 | fts => 2 | other => 3
  end.
Definition hsk_score_of (r : result) : Z :=
  if hsk_level r =? 0 then 10 else hsk_level r.
Definition penalty_of (r : result) : Z :=
  (if has_examples r =? 0 then 2 else 0)
  + (if has_stroke r =? 0 then 5 else 0).
Definition rank_of (r : result) : Q := default 0%Q (fts_rank r).
Definition length_of (r : result) : Z := Z.of_nat (length (simplified r)).

Lemma score_result_components query r :
  0 <= hsk_level r ->
  exists bonus,
    score_result query r
    = (priority_of r, bonus, hsk_score_of r, penalty_of r, rank_of r,
       length_of r)
    /\ (bonus = -10 /\ match_type_of r = fts /\ gloss_matches query r
        \/ bonus = 0 /\ ~ (match_type_of r = fts /\ gloss_matches query r)).
Proof.
  intros Hh. unfold score_result.
  fold (match_type_of r).
  assert (Eh : (if hsk_level r >? 0 then hsk_level r else 10)
               = hsk_score_of r).
  { unfold hsk_score_of. rewrite Z.gtb_ltb.
    destruct (Z.ltb_spec 0 (hsk_level r)), (Z.eqb_spec (hsk_level r) 0);
      lia. }
  assert (Ep : (let data_score := 0 in
                let data_score :=
                  if has_examples r =? 0 then data_score + 2
                  else data_score in
                if has_stroke r =? 0 then data_score + 5 else data_score)
               = penalty_of r).
  { unfold penalty_of. cbv zeta.
    destruct (has_examples r =? 0), (has_stroke r =? 0); reflexivity. }
  cbv zeta in Ep |- *. rewrite Eh, Ep.
  eexists. split; [reflexivity|].
  unfold priority_of.
  destruct (match_type_of r) eqn:Em;
    try (right; split; [reflexivity | intros [? _]; discriminate]).
  destruct (in_list _ _) eqn:Ein.
  - left. apply gloss_test_spec in Ein. auto.
  - right. split; [reflexivity|]. intros [_ Hg].
    apply gloss_test_spec in Hg. congruence.
Qed.

Lemma score_lt_by_priority query r1 r2 :
  priority_map (match_type_of r1) < priority_map (match_type_of r2) ->
  ltb (score_result query r1) (score_result query r2) = true.
Proof.
  intros H. unfold ltb, score_result. fold (match_type_of r1).
  fold (match_type_of r2). cbv zeta.
  unfold cmp at 1, prod_cmp; cbn [fst snd].
  unfold cmp at 1, prod_cmp; cbn [fst snd].
  unfold cmp at 1, prod_cmp; cbn [fst snd].
  unfold cmp at 1, prod_cmp; cbn [fst snd].
  unfold cmp at 1, prod_cmp; cbn [fst snd].
  unfold cmp at 1, Z_cmp.
  apply Z.compare_lt_iff in H. rewrite H. reflexivity.
Qed.

Lemma match_type_of_set mt r :
  match_type_of (set_match_type (Some mt) r) = mt.
Proof. destruct r; reflexivity. Qed.

Lemma sort_results_ordered query l :
  StronglySorted (key_le (score_result query)) (sort_results query l).
Proof. apply (sort_ordered (score_result query)). Qed.

Lemma sort_results_perm query l : Permutation (sort_results query l) l.
Proof. apply (sort_perm (score_result query)). Qed.

Lemma sort_results_stable query (k : score) l :
  List.filter (fun r => bool_decide (cmp (score_result query r) k = Eq))
    (sort_results query l)
  = List.filter (fun r => bool_decide (cmp (score_result query r) k = Eq)) l.
Proof. apply (sort_stable (score_result query)). Qed.

Lemma sort_results_before query a b l :
  In a l -> In b l ->
  ltb (score_result query a) (score_result query b) = true ->
  exists l1 l2 l3, sort_results query l = l1 ++ a :: l2 ++ b :: l3.
Proof. apply (sort_before (score_result query)). Qed.

(** *** Merging *)

Lemma add_definitions_app a b l :
  add_definitions (a ++ b) l = add_definitions b (add_definitions a l).
Proof. unfold add_definitions. apply fold_left_app. Qed.

Lemma add_definitions_cons d new l :
  add_definitions (d :: new) l
  = add_definitions new
      (if negb (eqb d []) && negb (in_list d l) then l ++ [d] else l).
Proof. reflexivity. Qed.

Lemma eqb_nil_false d : eqb d [] = false <-> d <> [].
Proof. unfold eqb. apply bool_decide_eq_false. Qed.

(** A gloss is in the list after the loop exactly when it was there
    before or is a non-empty new one. *)
Lemma add_definitions_In g new l :
  In g (add_definitions new l) <-> In g l \/ (g <> [] /\ In g new).
Proof.
  revert l. induction new as [|d new IH]; intros l.
  - simpl. split; [auto | intros [H|[_ []]]; exact H].
  - rewrite add_definitions_cons, IH. cbn [In].
    destruct (eqb d []) eqn:Ed; cbn [negb andb].
    + apply bool_decide_eq_true in Ed. subst d.
      split; [tauto|]. intros [H|[Hg [H|H]]]; [tauto | congruence | tauto].
    + apply eqb_nil_false in Ed.
      destruct (in_list d l) eqn:Ein; cbn [negb].
      * apply in_list_In in Ein.
        split; [tauto|]. intros [H|[Hg [H|H]]]; [tauto | subst; tauto | tauto].
      * rewrite in_app_iff. cbn [In].
        split; [|intros [H|[Hg [H|H]]]; [tauto | subst; tauto | tauto]].
        intros [[H|[H|[]]]|H]; [tauto | subst; tauto | tauto].
Qed.

(** The loop only appends: glosses that are new, not empty, and each
    once. *)
Lemma add_definitions_prefix new l :
  exists t, add_definitions new l = l ++ t /\ NoDup t
    /\ forall g, In g t -> ~ In g l /\ g <> [] /\ In g new.
Proof.
  revert l. induction new as [|d new IH]; intros l.
  - exists []. rewrite app_nil_r. split; [reflexivity|].
    split; [constructor | intros g []].
  - rewrite add_definitions_cons.
    destruct (eqb d []) eqn:Ed; cbn [negb andb].
    { destruct (IH l) as (t & E & Hnd & Ht). exists t.
      split; [exact E|]. split; [exact Hnd|].
      intros g Hg. destruct (Ht g Hg) as (H1 & H2 & H3).
      split; [exact H1|]. split; [exact H2 | now right]. }
    apply eqb_nil_false in Ed.
    destruct (in_list d l) eqn:Ein; cbn [negb].
    { destruct (IH l) as (t & E & Hnd & Ht). exists t.
      split; [exact E|]. split; [exact Hnd|].
      intros g Hg. destruct (Ht g Hg) as (H1 & H2 & H3).
      split; [exact H1|]. split; [exact H2 | now right]. }
    destruct (IH (l ++ [d])) as (t & E & Hnd & Ht). exists (d :: t).
    split; [now rewrite E, <- app_assoc|]. split.
    + apply NoDup_cons. split; [|exact Hnd].
      intros Hd. apply list_elem_of_In in Hd.
      destruct (Ht d Hd) as (H1 & _). apply H1.
      apply in_or_app. right. now left.
    + intros g [<-|Hg].
      * split; [|split; [exact Ed | now left]].
        intros Hin. apply in_list_In in Hin. congruence.
      * destruct (Ht g Hg) as (H1 & H2 & H3).
        split; [|split; [exact H2 | now right]].
        intros Hin. apply H1. apply in_or_app. now left.
Qed.

Lemma add_definitions_NoDup new l :
  NoDup l -> NoDup (add_definitions new l).
Proof.
  revert l. induction new as [|d new IH]; intros l Hl; [exact Hl|].
  rewrite add_definitions_cons. apply IH.
  destruct (eqb d []); cbn [negb andb]; [exact Hl|].
  destruct (in_list d l) eqn:Ein; cbn [negb]; [exact Hl|].
  apply NoDup_app; split; [exact Hl|]. split.
  - intros x Hx Hd.
    apply list_elem_of_In in Hx. apply list_elem_of_In in Hd.
    destruct Hd as [<-|[]]. apply in_list_In in Hx. congruence.
  - apply NoDup_singleton.
Qed.

(** The fields of an entry after a later hit is merged into it. *)
Lemma merge_fields_kept e h :
  key_of (merge_fields e h) = key_of e
  /\ _match_type (merge_fields e h) = _match_type e
  /\ fts_rank (merge_fields e h) = fts_rank e
  /\ definition_list (merge_fields e h)
     = add_definitions (split 0x2F%N (definitions h)) (definition_list e).
Proof.
  destruct e, h. unfold merge_fields, key_of.
  cbn [hsk_level set_traditional_variants set_definition_list
       set_has_examples set_has_stroke].
  destruct (_ =? 0); [|destruct (negb _)]; repeat split; reflexivity.
Qed.

Lemma merge_into_definition_list e h :
  definition_list (merge_into e h)
  = add_definitions (split 0x2F%N (definitions h)) (definition_list e).
Proof.
  destruct (merge_fields_kept e h) as (_ & _ & _ & <-).
  unfold merge_into. destruct (merge_fields e h).
  destruct (_ <? _); [destruct (fts_rank h)|]; reflexivity.
Qed.

Lemma merge_into_key e h : key_of (merge_into e h) = key_of e.
Proof.
  destruct (merge_fields_kept e h) as (<- & _).
  unfold merge_into. destruct (merge_fields e h).
  destruct (_ <? _); [destruct (fts_rank h)|]; reflexivity.
Qed.

(** The winner of a merge is the hit when its priority is strictly
    lower, the entry otherwise; the merged entry has the match type of
    the winner, and its rank when the winner has one. *)
Lemma merge_into_match_type e h :
  let m := merge_into e h in
  let winner :=
    if priority_map (match_type_of h) <? priority_map (match_type_of e)
    then h else e in
  _match_type m = _match_type winner
  /\ (is_Some (fts_rank winner) -> fts_rank m = fts_rank winner).
Proof.
  destruct (merge_fields_kept e h) as (_ & Hm & Hr & _).
  unfold merge_into, match_type_of. cbv zeta. rewrite Hm.
  destruct (_ <? _).
  - destruct (fts_rank h) as [rank|] eqn:E.
    + destruct (merge_fields e h). split; reflexivity.
    + destruct (merge_fields e h). split; [reflexivity|].
      intros [x Hx]. discriminate Hx.
  - split; [exact Hm | intros _; exact Hr].
Qed.

Lemma seed_fields h :
  key_of (seed h) = key_of h
  /\ definition_list (seed h) = split 0x2F%N (definitions h)
  /\ _match_type (seed h) = _match_type h
  /\ fts_rank (seed h) = fts_rank h.
Proof. destruct h. repeat split; reflexivity. Qed.

(** *** The dictionary of merged entries *)

Lemma dict_get_app k d1 d2 :
  dict_get k (d1 ++ d2)
  = match dict_get k d1 with Some e => Some e | None => dict_get k d2 end.
Proof.
  induction d1 as [|[k' v] d1 IH]; [reflexivity|]. simpl.
  destruct (bool_decide (k' = k)); [reflexivity | exact IH].
Qed.

Lemma dict_get_alter f k k0 d :
  dict_get k (dict_alter f k0 d)
  = if bool_decide (k = k0) then option_map f (dict_get k d)
    else dict_get k d.
Proof.
  induction d as [|[k' v] d IH]; simpl.
  - now destruct (bool_decide (k = k0)).
  - destruct (bool_decide (k' = k0)) eqn:E0; simpl.
    + apply bool_decide_eq_true in E0. subst k'.
      destruct (bool_decide (k0 = k)) eqn:E1.
      * apply bool_decide_eq_true in E1. subst k0.
        now rewrite bool_decide_eq_true_2.
      * apply bool_decide_eq_false in E1.
        rewrite (bool_decide_eq_false_2 (k = k0)) by congruence.
        reflexivity.
    + apply bool_decide_eq_false in E0.
      destruct (bool_decide (k' = k)) eqn:E1.
      * apply bool_decide_eq_true in E1. subst k'.
        rewrite (bool_decide_eq_false_2 (k = k0)) by congruence.
        reflexivity.
      * exact IH.
Qed.

Lemma dict_alter_keys f k d :
  List.map fst (dict_alter f k d) = List.map fst d.
Proof.
  induction d as [|[k' v] d IH]; [reflexivity|]. simpl.
  destruct (bool_decide (k' = k)); simpl; [reflexivity | now rewrite IH].
Qed.

Lemma dict_get_None k d : dict_get k d = None <-> ~ In k (List.map fst d).
Proof.
  induction d as [|[k' v] d IH]; simpl; [tauto|].
  destruct (bool_decide (k' = k)) eqn:E.
  - apply bool_decide_eq_true in E. split; [discriminate | tauto].
  - apply bool_decide_eq_false in E. rewrite IH. tauto.
Qed.

Lemma dict_get_In k e d :
  NoDup (List.map fst d) -> In (k, e) d -> dict_get k d = Some e.
Proof.
  induction d as [|[k' v] d IH]; simpl; intros Hnd Hin; [destruct Hin|].
  apply NoDup_cons in Hnd. destruct Hnd as [Hk Hnd].
  destruct Hin as [E|Hin].
  - injection E as -> ->. now rewrite bool_decide_eq_true_2.
  - rewrite bool_decide_eq_false_2; [now apply IH|].
    intros ->. apply Hk. apply list_elem_of_In.
    change k with (fst (k, e)). now apply in_map.
Qed.

(** The hits of one key, in order of discovery. *)
Definition group (k : merge_key) (all_results : list result) : list result :=
  List.filter (fun h => bool_decide (key_of h = k)) all_results.

Lemma merge_results_snoc p h :
  merge_results (p ++ [h]) = merge_step (merge_results p) h.
Proof. unfold merge_results. now rewrite fold_left_app. Qed.

Lemma merge_results_keys_NoDup all :
  NoDup (List.map fst (merge_results all)).
Proof.
  induction all as [|h p IH] using rev_ind; [constructor|].
  rewrite merge_results_snoc. unfold merge_step.
  destruct (dict_get (key_of h) (merge_results p)) eqn:E.
  - now rewrite dict_alter_keys.
  - rewrite List.map_app. apply NoDup_app. split; [exact IH|]. split.
    + intros x Hx Hd. apply list_elem_of_In in Hx.
      apply list_elem_of_In in Hd. destruct Hd as [<-|[]].
      apply dict_get_None in E. now apply E.
    + apply NoDup_singleton.
Qed.

(** The entry of a key is its first hit, seeded, with the later hits of
    the key merged into it in order. *)
Lemma merge_results_get all k :
  dict_get k (merge_results all)
  = match group k all with
    | [] => None
    | first :: later => Some (fold_left merge_into later (seed first))
    end.
Proof.
  induction all as [|h p IH] using rev_ind; [reflexivity|].
  rewrite merge_results_snoc. unfold merge_step, group.
  rewrite List.filter_app. cbn [List.filter]. fold (group k p).
  destruct (dict_get (key_of h) (merge_results p)) eqn:E.
  - rewrite dict_get_alter.
    destruct (bool_decide (k = key_of h)) eqn:Ek.
    + apply bool_decide_eq_true in Ek. subst k.
      rewrite bool_decide_eq_true_2 by reflexivity.
      rewrite IH in E |- *.
      destruct (group (key_of h) p) as [|first later]; [discriminate|].
      cbn [option_map app]. now rewrite fold_left_app.
    + apply bool_decide_eq_false in Ek.
      rewrite (bool_decide_eq_false_2 (key_of h = k)) by congruence.
      now rewrite app_nil_r.
  - rewrite dict_get_app. cbn [dict_get].
    destruct (bool_decide (key_of h = k)) eqn:Ek.
    + apply bool_decide_eq_true in Ek. subst k.
      rewrite E. rewrite IH in E.
      destruct (group (key_of h) p); [reflexivity | discriminate].
    + rewrite app_nil_r, IH.
      destruct (group k p); reflexivity.
Qed.

Lemma fold_merge_definition_list later e :
  definition_list (fold_left merge_into later e)
  = add_definitions
      (concat (List.map (fun h => split 0x2F%N (definitions h)) later))
      (definition_list e).
Proof.
  revert e. induction later as [|h later IH]; intros e; [reflexivity|].
  cbn [fold_left List.map concat].
  now rewrite IH, merge_into_definition_list, add_definitions_app.
Qed.

Lemma fold_merge_key later e :
  key_of (fold_left merge_into later e) = key_of e.
Proof.
  revert e. induction later as [|h later IH]; intros e; [reflexivity|].
  cbn [fold_left]. now rewrite IH, merge_into_key.
Qed.

Lemma finalize_fields e :
  key_of (finalize e) = key_of e
  /\ definition_list (finalize e) = definition_list e
  /\ definitions (finalize e) = join [0x2F%N] (definition_list e).
Proof. destruct e. repeat split; reflexivity. Qed.

Lemma rank_In query all r :
  In r (rank query all) <->
  exists k e, In (k, e) (merge_results all) /\ r = finalize e.
Proof.
  unfold rank. split.
  - intros H. apply (Permutation_in _ (sort_results_perm _ _)) in H.
    apply in_map_iff in H. destruct H as ([k e] & <- & Hin).
    now exists k, e.
  - intros (k & e & Hin & ->).
    apply (Permutation_in _ (Permutation_sym (sort_results_perm _ _))).
    apply in_map_iff. now exists (k, e).
Qed.

Lemma split_pieces_no_sep sep s :
  Forall (fun w => ~ In sep w) (split sep s).
Proof.
  induction s as [|c s IH]; cbn [split].
  - constructor; [intros []|constructor].
  - destruct (N.eqb_spec c sep) as [->|Hne].
    + constructor; [intros []|exact IH].
    + destruct (split sep s) as [|w ws]; [repeat constructor; intros [H|[]];
                                          congruence|].
      inversion IH as [|? ? Hw Hws]; subst.
      constructor; [|exact Hws]. intros [H|H]; [congruence | now apply Hw].
Qed.

Lemma split_not_nil sep s : split sep s <> [].
Proof.
  destruct s as [|c s]; cbn [split]; [discriminate|].
  destruct (c =? sep)%N; [discriminate|].
  destruct (split sep s); discriminate.
Qed.

Lemma add_definitions_Forall (P : str -> Prop) new l :
  Forall P l -> Forall P new -> Forall P (add_definitions new l).
Proof.
  intros Hl Hnew. destruct (add_definitions_prefix new l) as (t & -> & _ & Ht).
  apply Forall_app. split; [exact Hl|].
  rewrite List.Forall_forall in *. intros g Hg. apply Hnew.
  now destruct (Ht g Hg) as (_ & _ & H).
Qed.

Lemma merged_entry_of query all r :
  In r (rank query all) ->
  exists first later,
    group (key_of r) all = first :: later
    /\ r = finalize (fold_left merge_into later (seed first)).
Proof.
  intros Hr. apply rank_In in Hr. destruct Hr as (k & e & Hin & ->).
  pose proof (dict_get_In k e _ (merge_results_keys_NoDup all) Hin) as Hg.
  rewrite merge_results_get in Hg.
  destruct (group k all) as [|first later] eqn:Eg; [discriminate|].
  injection Hg as <-.
  assert (Hk : key_of first = k).
  { assert (Hf : In first (group k all)) by (rewrite Eg; now left).
    unfold group in Hf. apply filter_In in Hf. destruct Hf as [_ Hf].
    now apply bool_decide_eq_true in Hf. }
  destruct (finalize_fields (fold_left merge_into later (seed first)))
    as (-> & _).
  rewrite fold_merge_key. destruct (seed_fields first) as (-> & _).
  rewrite Hk, Eg. now exists first, later.
Qed.

(** The [definitions] of a merged result, split again by the scorer, are
    its definition list. *)
Lemma ranked_definitions_split query all r :
  In r (rank query all) ->
  split 0x2F%N (definitions r) = definition_list r.
Proof.
  intros Hr.
  destruct (merged_entry_of query all r Hr) as (first & later & _ & ->).
  destruct (finalize_fields (fold_left merge_into later (seed first)))
    as (_ & -> & ->).
  rewrite fold_merge_definition_list.
  destruct (seed_fields first) as (_ & -> & _).
  apply ConvertFacts.split_join.
  - destruct (add_definitions_prefix
                (concat (List.map (fun h => split 0x2F%N (definitions h))
                           later))
                (split 0x2F%N (definitions first))) as (t & -> & _).
    pose proof (split_not_nil 0x2F%N (definitions first)) as Hne.
    destruct (split 0x2F%N (definitions first)); [congruence | discriminate].
  - apply add_definitions_Forall; [apply split_pieces_no_sep|].
    apply Forall_concat. apply List.Forall_forall. intros l Hl.
    apply in_map_iff in Hl. destruct Hl as (h & <- & _).
    apply split_pieces_no_sep.
Qed.

(** C7, as the code has it.  The definition list of a merged result is
    the gloss list of the first hit of its key, as stored, followed by
    the glosses of the later hits of the key that are not empty and not
    yet in the list, each once and in order of first appearance.  It has
    no duplicate when the glosses of the first hit have none. *)
Theorem merged_definition_list :
  forall (query : str) (all_results : list result) (r : result),
    In r (rank query all_results) ->
    exists first later,
      group (key_of r) all_results = first :: later
      /\ let seed_glosses := split 0x2F%N (definitions first) in
         let later_glosses :=
           concat (List.map (fun h => split 0x2F%N (definitions h)) later) in
         definition_list r = add_definitions later_glosses seed_glosses
         /\ (exists t,
               definition_list r = seed_glosses ++ t /\ NoDup t
               /\ forall g, In g t ->
                    ~ In g seed_glosses /\ g <> [] /\ In g later_glosses)
         /\ (forall g, In g (definition_list r) <->
                       In g seed_glosses \/ (g <> [] /\ In g later_glosses))
         /\ (NoDup seed_glosses -> NoDup (definition_list r)).
Proof.
  intros query all r Hr.
  destruct (merged_entry_of query all r Hr) as (first & later & Eg & ->).
  exists first, later.
  destruct (finalize_fields (fold_left merge_into later (seed first)))
    as (Hk & -> & _).
  split; [exact Eg|]. cbv zeta.
  rewrite fold_merge_definition_list.
  destruct (seed_fields first) as (_ & -> & _).
  split; [reflexivity|]. split; [apply add_definitions_prefix|].
  split; [intros g; apply add_definitions_In|].
  apply add_definitions_NoDup.
Qed.

Definition cat_hit (n : Z) (trad defs : string) : result :=
  {| id := n;
     traditional := u8 trad;
     simplified := u8 "猫";
     pinyin := u8 "mao1";
     pinyin_clean := u8 "mao";
     pinyin_numbered := u8 "mao1";
     pinyin_marks := u8 "māo";
     definitions := u8 defs;
     has_examples := 1;
     has_stroke := 1;
     hsk_level := 2;
     fts_rank := None;
     _match_type := Some exact;
     traditional_variants := ∅;
     definition_list := [];
     examples := [];
     character_breakdown := [] |}.

Lemma merged_definition_list_witness :
  exists r first later,
    In r (rank (u8 "猫") [cat_hit 1 "貓" "cat/feline"; cat_hit 2 "猫" "/cat/kitty"])
    /\ definition_list r = [u8 "cat"; u8 "feline"; u8 "kitty"]
    /\ group (key_of r) [cat_hit 1 "貓" "cat/feline"; cat_hit 2 "猫" "/cat/kitty"]
       = first :: later
    /\ (NoDup (split 0x2F%N (definitions first)) -> NoDup (definition_list r)).
Proof.
  pose (all := [cat_hit 1 "貓" "cat/feline"; cat_hit 2 "猫" "/cat/kitty"]).
  destruct (rank (u8 "猫") all) as [|r rest] eqn:E; [discriminate E|].
  assert (Hr : In r (rank (u8 "猫") all)) by (rewrite E; now left).
  destruct (merged_definition_list (u8 "猫") all r Hr)
    as (first & later & Eg & _ & _ & _ & Hnd).
  exists r, first, later. fold all. rewrite E.
  split; [now left|].
  split; [vm_compute in E; injection E as <- _; reflexivity|].
  split; [exact Eg | exact Hnd].
Defined.

(** C7 as stated fails when the first hit of a key stores a gloss twice:
    both copies stay in the definition list. *)
Lemma merged_definition_list_counterexample :
  exists r,
    In r (rank (u8 "猫") [cat_hit 1 "貓" "cat/cat"])
    /\ definition_list r = [u8 "cat"; u8 "cat"]
    /\ ~ NoDup (definition_list r).
Proof.
  eexists. split; [vm_compute; left; reflexivity|].
  split; [reflexivity|].
  cbn [definition_list]. intros H.
  apply NoDup_cons in H. destruct H as [H _]. apply H. now left.
Qed.

(** C8: when a hit is merged into the entry of its key, the match type
    of strictly lower priority wins and an equal priority keeps the match
    type of the entry; the winner brings its rank when it has one, as
    every full-text hit does.  Two hits of one key make one entry, the
    first hit merged with the second. *)
Theorem merge_match_type_precedence :
  forall (h1 h2 : result),
    key_of h1 = key_of h2 ->
    (match_type_of h2 = fts -> is_Some (fts_rank h2)) ->
    let m := merge_into (seed h1) h2 in
    let p1 := priority_map (match_type_of h1) in
    let p2 := priority_map (match_type_of h2) in
    merge_results [h1; h2] = [(key_of h1, m)]
    /\ priority_map (match_type_of m) = Z.min p1 p2
    /\ (p2 < p1 -> _match_type m = _match_type h2
                   /\ (match_type_of h2 = fts -> fts_rank m = fts_rank h2))
    /\ (p1 <= p2 -> _match_type m = _match_type h1
                    /\ fts_rank m = fts_rank h1).
Proof.
  intros h1 h2 Hk Hfts m p1 p2.
  destruct (seed_fields h1) as (Hsk & _ & Hsm & Hsr).
  assert (Hms : match_type_of (seed h1) = match_type_of h1).
  { unfold match_type_of. now rewrite Hsm. }
  pose proof (merge_into_match_type (seed h1) h2) as Hw. cbv zeta in Hw.
  rewrite Hms in Hw. fold m p1 p2 in Hw.
  split.
  { unfold merge_results. cbn [fold_left]. unfold merge_step at 2.
    cbn [dict_get app]. unfold merge_step. cbn [dict_get].
    rewrite <- Hk, bool_decide_eq_true_2 by reflexivity.
    cbn [dict_alter]. rewrite bool_decide_eq_true_2 by reflexivity.
    reflexivity. }
  revert Hw. destruct (Z.ltb_spec p2 p1) as [Hlt|Hge]; intros [Hm Hr].
  - split.
    { unfold match_type_of at 1. rewrite Hm. fold (match_type_of h2).
      fold p2. lia. }
    split; [|intros; lia]. intros _. split; [exact Hm|].
    intros Hf. apply Hr, Hfts, Hf.
  - rewrite Hsm in Hm. rewrite Hsr in Hr.
    split.
    { unfold match_type_of at 1. rewrite Hm. fold (match_type_of h1).
      fold p1. lia. }
    split; [intros; lia|]. intros _. split; [exact Hm|].
    destruct (fts_rank h1) as [x|] eqn:E; [apply Hr; now exists x|].
    clear Hr. unfold m, merge_into.
    destruct (merge_fields_kept (seed h1) h2) as (_ & Hm' & Hr' & _).
    rewrite Hm', Hsm. fold (match_type_of h2) (match_type_of h1).
    fold p1 p2. replace (p2 <? p1) with false
      by (symmetry; apply Z.ltb_ge; lia).
    now rewrite Hr', Hsr.
Qed.

Definition fts_cat_hit : result :=
  set_fts_rank (Some (-5 # 4)%Q)
    (set_match_type (Some fts) (cat_hit 2 "猫" "cat/kitty")).
Definition other_cat_hit : result :=
  set_match_type (Some other) (cat_hit 1 "貓" "cat").

Lemma merge_match_type_precedence_witness :
  let m := merge_into (seed other_cat_hit) fts_cat_hit in
  merge_results [other_cat_hit; fts_cat_hit] = [(key_of other_cat_hit, m)]
  /\ priority_map (match_type_of m) = 2
  /\ _match_type m = Some fts
  /\ fts_rank m = Some (-5 # 4)%Q.
Proof.
  destruct (merge_match_type_precedence other_cat_hit fts_cat_hit)
    as (H1 & H2 & H3 & _).
  - reflexivity.
  - intros _. now exists (-5 # 4)%Q.
  - cbv zeta. split; [exact H1|]. split; [exact H2|].
    destruct H3 as [H3 H4]; [vm_compute; reflexivity|].
    split; [exact H3 | apply H4; reflexivity].
Defined.

(** *** Enrichment *)

(** The breakdown item of a character: its dictionary entry when the
    store has one, the fallback otherwise. *)
Definition item_of (db : store) (ch : char) : CharInfo.t :=
  match char_row db ch with
  | Ok (Some row) => char_info_of row
  | _ => fallback_info ch
  end.

(** The cache only holds characters that the store has, with the item
    made from their row. *)
Definition cache_sound (db : store) (cache : char_cache) : Prop :=
  forall ch info, cache !! ch = Some info ->
    exists row, char_row db ch = Ok (Some row) /\ info = char_info_of row.

Definition answers {A} (o : outcome A) : Prop := exists a, o = Ok a.

Lemma cache_sound_empty db : cache_sound db ∅.
Proof. intros ch info H. rewrite lookup_empty in H. discriminate. Qed.

Lemma breakdown_step_spec db cache breakdown ch :
  cache_sound db cache -> answers (char_row db ch) ->
  exists cache',
    breakdown_step db (cache, breakdown) ch
    = Ok (cache', breakdown ++ [item_of db ch])
    /\ cache_sound db cache'.
Proof.
  intros Hs [o Ho]. unfold breakdown_step, item_of.
  destruct (cache !! ch) as [info|] eqn:Ec.
  - destruct (Hs ch info Ec) as (row & -> & ->). now exists cache.
  - rewrite Ho. cbn [bind]. destruct o as [row|].
    + eexists. split; [reflexivity|]. intros ch' info' H.
      destruct (decide (ch = ch')) as [<-|Hne].
      * rewrite lookup_insert_eq in H. injection H as <-. now exists row.
      * rewrite lookup_insert_ne in H by assumption. now apply Hs.
    + now exists cache.
Qed.

Lemma breakdown_loop_spec db chars :
  forall cache breakdown,
    cache_sound db cache ->
    (forall ch, In ch chars -> answers (char_row db ch)) ->
    exists cache',
      breakdown_loop db (cache, breakdown) chars
      = Ok (cache', breakdown ++ List.map (item_of db) chars)
      /\ cache_sound db cache'.
Proof.
  induction chars as [|ch chars IH]; intros cache breakdown Hs Ha.
  - exists cache. cbn. now rewrite app_nil_r.
  - cbn [breakdown_loop].
    destruct (breakdown_step_spec db cache breakdown ch Hs)
      as (cache1 & -> & Hs1); [apply Ha; now left|].
    cbn [bind].
    destruct (IH cache1 (breakdown ++ [item_of db ch]) Hs1)
      as (cache2 & -> & Hs2); [intros c Hc; apply Ha; now right|].
    exists cache2. cbn [List.map]. now rewrite <- app_assoc.
Qed.

(** The breakdown of a result: one item per character of a word of two
    characters or more, none otherwise. *)
Definition breakdown_of (db : store) (word : str) : list CharInfo.t :=
  if 2 <=? Z.of_nat (length word) then List.map (item_of db) word else [].

Definition store_answers (db : store) : Prop :=
  (forall n s k, answers (example_rows db n s k))
  /\ (forall ch, answers (char_row db ch)).

Lemma enrich_result_spec db n cache hit :
  store_answers db -> cache_sound db cache ->
  exists cache' hit',
    enrich_result db n cache hit = Ok (cache', hit')
    /\ cache_sound db cache'
    /\ simplified hit' = simplified hit
    /\ definition_list hit' = definition_list hit
    /\ character_breakdown hit' = breakdown_of db (simplified hit).
Proof.
  intros [Hex Hch] Hs. unfold enrich_result, breakdown_of.
  destruct (Hex n (simplified hit) 3) as [xs ->]. cbn [bind].
  destruct (2 <=? Z.of_nat (length (simplified hit))).
  - destruct (breakdown_loop_spec db (simplified hit) cache [] Hs)
      as (cache' & -> & Hs'); [intros ch _; apply Hch|].
    cbn [bind fst snd app]. eexists _, _. split; [reflexivity|].
    split; [exact Hs'|]. destruct hit. repeat split; reflexivity.
  - cbn [bind fst snd]. eexists _, _. split; [reflexivity|].
    split; [exact Hs|]. destruct hit. repeat split; reflexivity.
Qed.

Lemma enrich_loop_spec db paginated_results :
  store_answers db ->
  forall n cache, cache_sound db cache ->
    exists results,
      enrich_loop db n cache paginated_results = Ok results
      /\ Forall2
           (fun hit hit' =>
              simplified hit' = simplified hit
              /\ definition_list hit' = definition_list hit
              /\ character_breakdown hit' = breakdown_of db (simplified hit))
           paginated_results results.
Proof.
  intros Hdb.
  induction paginated_results as [|hit rest IH]; intros n cache Hs.
  - exists []. split; [reflexivity | constructor].
  - cbn [enrich_loop].
    destruct (enrich_result_spec db n cache hit Hdb Hs)
      as (cache' & hit' & -> & Hs' & Hfields).
    cbn [bind fst snd].
    destruct (IH (S n) cache' Hs') as (results & -> & Hall).
    cbn [bind]. exists (hit' :: results).
    split; [reflexivity | now constructor].
Qed.

(** C9: when the store answers, the enrichment of a page returns, and in
    the breakdown of a word of two characters or more the item of a
    character without a one-character entry is the fallback: the
    character itself as simplified and traditional form, and 'N/A' as
    definitions. *)
Theorem missing_character_placeholder :
  forall (db : store) (paginated_results : list result),
    store_answers db ->
    exists results,
      enrich_loop db 0 ∅ paginated_results = Ok results
      /\ Forall2
           (fun hit hit' =>
              simplified hit' = simplified hit
              /\ forall i ch,
                   (2 <= length (simplified hit))%nat ->
                   nth_error (simplified hit) i = Some ch ->
                   char_row db ch = Ok None ->
                   exists item,
                     nth_error (character_breakdown hit') i = Some item
                     /\ item = fallback_info ch
                     /\ CharInfo.definitions item = u8 "N/A"
                     /\ CharInfo.simplified item = [ch]
                     /\ CharInfo.traditional item = [ch])
           paginated_results results.
Proof.
  intros db l Hdb.
  destruct (enrich_loop_spec db l Hdb 0%nat ∅ (cache_sound_empty db))
    as (results & E & Hall).
  exists results. split; [exact E|].
  eapply Forall2_impl; [exact Hall|].
  intros hit hit' (Hs & _ & Hb). split; [exact Hs|].
  intros i ch Hlen Hnth Hrow. exists (fallback_info ch).
  split; [|repeat split; reflexivity].
  rewrite Hb. unfold breakdown_of.
  replace (2 <=? Z.of_nat (length (simplified hit))) with true
    by (symmetry; apply Z.leb_le; lia).
  rewrite nth_error_map, Hnth. cbn [option_map]. unfold item_of.
  now rewrite Hrow.
Qed.

Definition row_of (n : Z) (trad simp marks defs : string) (rank : option Q)
    : Row.t :=
  {| Row.id := n;
     Row.traditional := u8 trad;
     Row.simplified := u8 simp;
     Row.pinyin := [];
     Row.pinyin_clean := [];
     Row.pinyin_numbered := [];
     Row.pinyin_marks := u8 marks;
     Row.definitions := u8 defs;
     Row.has_examples := 1;
     Row.has_stroke := 1;
     Row.hsk_level := 1;
     Row.fts_rank := rank |}.

(** A store with the panda and the cat, no entry for the bear alone, and
    a full-text index that refuses every query. *)
Definition demo_store : store :=
  {| exact_rows := fun _ _ _ => Ok [];
     start_rows := fun _ _ _ =>
       Ok [row_of 3 "熊貓" "熊猫" "xióng māo" "panda" None];
     fts_rows := fun _ => Raise (DatabaseError (u8 "fts5: syntax error"));
     example_rows := fun _ _ _ => Ok [];
     char_row := fun ch =>
       if (ch =? 0x732B)%N
       then Ok (Some (row_of 1 "貓" "猫" "māo" "cat/feline/kitty/puss" None))
       else Ok None |}.

Lemma demo_store_answers : store_answers demo_store.
Proof.
  split.
  - intros n s k. now exists [].
  - intros ch. unfold answers. cbn [char_row demo_store].
    destruct (ch =? 0x732B)%N; eexists; reflexivity.
Qed.

Lemma missing_character_placeholder_witness :
  exists results,
    enrich_loop demo_store 0 ∅
      [dict_of_row (row_of 3 "熊貓" "熊猫" "xióng māo" "panda" None)]
    = Ok results
    /\ List.map (fun r => List.map CharInfo.definitions (character_breakdown r))
         results
       = [[u8 "N/A"; u8 "cat/feline/kitty/puss"]].
Proof.
  destruct (missing_character_placeholder demo_store
              [dict_of_row (row_of 3 "熊貓" "熊猫" "xióng māo" "panda" None)]
              demo_store_answers) as (results & E & _).
  exists results. split; [exact E|].
  vm_compute in E. injection E as <-. reflexivity.
Defined.

(** *** The guarded full-text strategy *)

(** The same store with a full-text index that finds nothing. *)
Definition without_fts (db : store) : store :=
  {| exact_rows := exact_rows db;
     start_rows := start_rows db;
     fts_rows := fun _ => Ok [];
     example_rows := example_rows db;
     char_row := char_row db |}.

(** The hits of the exact and of the prefix strategy alone. *)
Definition exact_and_prefix_hits (rows_e rows_s : list Row.t) : hits :=
  add_unique_results rows_s starts_with
    (add_unique_results rows_e exact ([], ∅)).

Lemma gather_fts_raise db query e :
  fts_rows db (fts_query query) = Raise e ->
  gather db query
  = (rows_e <- exact_query db query ;;
     rows_s <- start_query db query ;;
     Ok (exact_and_prefix_hits rows_e rows_s)).
Proof.
  intros H. unfold gather. rewrite H. reflexivity.
Qed.

Lemma gather_without_fts db query :
  gather (without_fts db) query
  = (rows_e <- exact_query db query ;;
     rows_s <- start_query db query ;;
     Ok (exact_and_prefix_hits rows_e rows_s)).
Proof. reflexivity. Qed.

Lemma breakdown_loop_without_fts db chars :
  forall st,
    breakdown_loop (without_fts db) st chars = breakdown_loop db st chars.
Proof.
  induction chars as [|ch chars IH]; intros st; [reflexivity|].
  cbn [breakdown_loop].
  change (breakdown_step (without_fts db) st ch)
    with (breakdown_step db st ch).
  destruct (breakdown_step db st ch); cbn [bind]; [apply IH | reflexivity].
Qed.

Lemma enrich_loop_without_fts db l :
  forall n cache,
    enrich_loop (without_fts db) n cache l = enrich_loop db n cache l.
Proof.
  induction l as [|hit rest IH]; intros n cache; [reflexivity|].
  cbn [enrich_loop].
  assert (E : enrich_result (without_fts db) n cache hit
              = enrich_result db n cache hit).
  { unfold enrich_result.
    change (example_rows (without_fts db)) with (example_rows db).
    destruct (example_rows db n (simplified hit) 3); cbn [bind];
      [|reflexivity].
    now rewrite breakdown_loop_without_fts. }
  rewrite E. destruct (enrich_result db n cache hit); cbn [bind];
    [|reflexivity].
  now rewrite IH.
Qed.

(** C5: when the full-text statement raises, the search is the search
    over a full-text index that finds nothing: the hits are those of the
    exact and of the prefix strategy, and when the store answers the
    other statements they are merged, scored, sorted, paginated and
    returned. *)
Theorem search_fts_fail_soft :
  forall (db : store) (q : str) (page : Z) (e : exn),
    fts_rows db (fts_query (strip q)) = Raise e ->
    search db q page = search (without_fts db) q page
    /\ forall rows_e rows_s,
         strip q <> [] ->
         exact_query db (strip q) = Ok rows_e ->
         start_query db (strip q) = Ok rows_s ->
         store_answers db ->
         let all_results :=
           rank (strip q) (fst (exact_and_prefix_hits rows_e rows_s)) in
         exists results,
           enrich_loop db 0 ∅ (paginate all_results page) = Ok results
           /\ search db q page
              = Ok (ResultsPage
                      {| ctx_query := strip q;
                         ctx_results := results;
                         ctx_page := page;
                         ctx_total_pages :=
                           total_pages_of (Z.of_nat (length all_results));
                         ctx_total_results := Z.of_nat (length all_results);
                         ctx_results_per_page := 20 |}).
Proof.
  intros db q page e Hfts. split.
  - unfold search. destruct (strip q) as [|c query] eqn:Eq; [reflexivity|].
    rewrite (gather_fts_raise db _ e Hfts), gather_without_fts.
    destruct (exact_query db (c :: query)); cbn [bind]; [|reflexivity].
    destruct (start_query db (c :: query)); cbn [bind]; [|reflexivity].
    now rewrite enrich_loop_without_fts.
  - intros rows_e rows_s Hq He Hs Hdb all_results.
    destruct (enrich_loop_spec db (paginate all_results page) Hdb 0%nat ∅
                (cache_sound_empty db)) as (results & E & _).
    exists results. split; [exact E|].
    unfold search. rewrite (gather_fts_raise db _ e Hfts).
    destruct (strip q) as [|c query] eqn:Eq; [congruence|].
    rewrite He, Hs. cbn [bind]. fold all_results. rewrite E. reflexivity.
Qed.

Lemma search_fts_fail_soft_witness :
  search demo_store (u8 " 熊 ") 1 = search (without_fts demo_store) (u8 " 熊 ") 1
  /\ exists results,
       search demo_store (u8 " 熊 ") 1
       = Ok (ResultsPage
               {| ctx_query := u8 "熊";
                  ctx_results := results;
                  ctx_page := 1;
                  ctx_total_pages := 1;
                  ctx_total_results := 1;
                  ctx_results_per_page := 20 |})
       /\ List.map id results = [3].
Proof.
  destruct (search_fts_fail_soft demo_store (u8 " 熊 ") 1
              (DatabaseError (u8 "fts5: syntax error")) eq_refl)
    as [H1 H2].
  split; [exact H1|].
  destruct (H2 [] [row_of 3 "熊貓" "熊猫" "xióng māo" "panda" None])
    as (results & E & Hs).
  - discriminate.
  - reflexivity.
  - reflexivity.
  - exact demo_store_answers.
  - exists results. split; [exact Hs|].
    vm_compute in E. injection E as <-. reflexivity.
Defined.

(** The other strategies are not guarded: their failure is the failure
    of the search. *)
Lemma search_exact_raise db q page e :
  strip q <> [] -> exact_query db (strip q) = Raise e ->
  search db q page = Raise e.
Proof.
  intros Hq He. unfold search. destruct (strip q); [congruence|].
  unfold gather. rewrite He. reflexivity.
Qed.

(** *** The order of the results *)

(** C1, as the code has it.  The key of a result (of non-negative HSK
    level) is the six-tuple of: the priority of its match type; -10 when
    the match type is fts and the small-letter query equals the
    small-letter, trimmed form of a gloss of its definitions, else 0; its
    HSK level, 10 when that is 0; 2 for no examples plus 5 for no stroke
    data; its relevance rank, 0 when it has none; the length of its
    simplified form.  The sort gives a permutation of its input in
    ascending lexicographic order of that key, and it is stable: the
    results of one key keep the order they had.  Of results that differ
    in match type only, an exact one comes before a starts_with one, and
    that one before an fts one.  For a merged result the glosses of its
    definitions are its definition list. *)
Theorem score_result_orders_results :
  (forall query r,
     0 <= hsk_level r ->
     exists bonus,
       score_result query r
       = (priority_of r, bonus, hsk_score_of r, penalty_of r, rank_of r,
          length_of r)
       /\ (bonus = -10 /\ match_type_of r = fts /\ gloss_matches query r
           \/ bonus = 0
              /\ ~ (match_type_of r = fts /\ gloss_matches query r)))
  /\ (forall query l,
        Permutation (sort_results query l) l
        /\ StronglySorted
             (fun a b => leb (score_result query a) (score_result query b)
                         = true)
             (sort_results query l)
        /\ forall k : score,
             List.filter
               (fun r => bool_decide (cmp (score_result query r) k = Eq))
               (sort_results query l)
             = List.filter
                 (fun r => bool_decide (cmp (score_result query r) k = Eq))
                 l)
  /\ (forall query r l,
        let r_exact := set_match_type (Some exact) r in
        let r_starts := set_match_type (Some starts_with) r in
        let r_fts := set_match_type (Some fts) r in
        (In r_exact l -> In r_starts l ->
         exists l1 l2 l3,
           sort_results query l = l1 ++ r_exact :: l2 ++ r_starts :: l3)
        /\ (In r_starts l -> In r_fts l ->
            exists l1 l2 l3,
              sort_results query l = l1 ++ r_starts :: l2 ++ r_fts :: l3))
  /\ (forall query all_results r,
        In r (rank query all_results) ->
        (gloss_matches query r <->
         exists gloss, In gloss (definition_list r)
                       /\ strip (lower_str gloss) = lower_str query)).
Proof.
  split; [exact score_result_components|].
  split; [|split; [|intros query all r Hr; unfold gloss_matches;
                    now rewrite (ranked_definitions_split query all r Hr)]].
  - intros query l. split; [apply sort_results_perm|].
    split; [apply sort_results_ordered|].
    intros k. apply sort_results_stable.
  - intros query r l r_exact r_starts r_fts. split; intros Ha Hb.
    + apply sort_results_before; [assumption..|].
      apply score_lt_by_priority. unfold r_exact, r_starts.
      rewrite !match_type_of_set. reflexivity.
    + apply sort_results_before; [assumption..|].
      apply score_lt_by_priority. unfold r_starts, r_fts.
      rewrite !match_type_of_set. reflexivity.
Qed.

Definition china_hit : result :=
  {| id := 4;
     traditional := u8 "中國";
     simplified := u8 "中国";
     pinyin := u8 "Zhong1 guo2";
     pinyin_clean := u8 "zhongguo";
     pinyin_numbered := u8 "zhong1guo2";
     pinyin_marks := u8 "Zhōng guó";
     definitions := u8 "China";
     has_examples := 0;
     has_stroke := 1;
     hsk_level := 0;
     fts_rank := Some (-3 # 2)%Q;
     _match_type := Some fts;
     traditional_variants := {[u8 "中國"]};
     definition_list := [u8 "China"];
     examples := [];
     character_breakdown := [] |}.

Lemma score_result_orders_witness :
  (exists bonus,
     score_result (u8 "china") china_hit
     = (priority_of china_hit, bonus, hsk_score_of china_hit,
        penalty_of china_hit, rank_of china_hit, length_of china_hit)
     /\ (bonus = -10 /\ match_type_of china_hit = fts
         /\ gloss_matches (u8 "china") china_hit
         \/ bonus = 0
            /\ ~ (match_type_of china_hit = fts
                  /\ gloss_matches (u8 "china") china_hit)))
  /\ exists l1 l2 l3,
       sort_results (u8 "china")
         [set_match_type (Some starts_with) china_hit;
          set_match_type (Some exact) china_hit]
       = l1 ++ set_match_type (Some exact) china_hit
            :: l2 ++ set_match_type (Some starts_with) china_hit :: l3.
Proof.
  split.
  - apply (proj1 score_result_orders_results (u8 "china") china_hit).
    simpl. lia.
  - apply (proj1 (proj1 (proj2 (proj2 score_result_orders_results))
                    (u8 "china") china_hit _)).
    + right. left. reflexivity.
    + left. reflexivity.
Defined.

(** The comparison of the gloss with the query is blind to case in every
    script, and to white space around the gloss. *)
Example score_result_gloss_case :
  score_result (u8 "ω") (set_definitions (u8 "alpha/ Ω /") china_hit)
  = (2, -10, 10, 2, (-3 # 2)%Q, 2)
  /\ score_result (u8 "ΟΔΟΣ") (set_definitions (u8 "οδος") china_hit)
     = (2, -10, 10, 2, (-3 # 2)%Q, 2).
Proof. split; vm_compute; reflexivity. Qed.

(** C1 as stated fails on the bonus: for the query 'china' the full-text
    hit whose only gloss is 'China' gets -10, although the small-letter
    query is none of its glosses. *)
Lemma score_result_bonus_counterexample :
  match_type_of china_hit = fts
  /\ ~ In (strip (lower_str (u8 "china"))) (definition_list china_hit)
  /\ ~ In (strip (lower_str (u8 "china")))
         (split 0x2F%N (definitions china_hit))
  /\ score_result (u8 "china") china_hit = (2, -10, 10, 2, (-3 # 2)%Q, 2).
Proof.
  split; [reflexivity|].
  split; [intros [H|[]]; discriminate H|].
  split; [intros [H|[]]; discriminate H|].
  reflexivity.
Qed.

End AppFacts.

(* ===================================================================== *)
(** ** The order of strings                                               *)
(* ===================================================================== *)

Module StrOrder.
Import OrderFacts.

#[global] Instance N_order : CmpOrder N.
Proof.
  split; unfold cmp, N_cmp.
  - intros x y. apply N.compare_antisym.
  - intros x y z H. apply N.compare_eq in H. now subst.
  - intros x y z. rewrite !N.compare_lt_iff. lia.
Qed.

Lemma list_cmp_eq (s t : list N) : list_cmp s t = Eq -> s = t.
Proof.
  revert t. induction s as [|x s IH]; intros [|y t]; cbn; try discriminate;
    [reflexivity|].
  unfold cmp, N_cmp. destruct (N.compare_spec x y) as [Exy|Exy|Exy]; cbn;
    try discriminate.
  intros Est. subst. f_equal. now apply IH.
Qed.

Section ListLaws.
Context {A : Type} `{CmpOrder A}.

Lemma list_cmp_antisym (x y : list A) :
  list_cmp y x = CompOpp (list_cmp x y).
Proof.
  revert y. induction x as [|a x IH]; intros [|b y]; cbn; try reflexivity.
  rewrite (cmp_antisym a b), IH. destruct (cmp a b); reflexivity.
Qed.

Lemma list_cmp_eq_l (x y z : list A) :
  list_cmp x y = Eq -> list_cmp x z = list_cmp y z.
Proof.
  revert y z. induction x as [|a x IH]; intros [|b y] [|c z]; cbn;
    try discriminate; try reflexivity.
  intros E. destruct (cmp a b) eqn:Eab; cbn in E; try discriminate.
  rewrite (cmp_eq_l a b c Eab). destruct (cmp b c); cbn; try reflexivity.
  now apply IH.
Qed.

Lemma list_cmp_lt_trans (x y z : list A) :
  list_cmp x y = Lt -> list_cmp y z = Lt -> list_cmp x z = Lt.
Proof.
  revert y z. induction x as [|a x IH]; intros [|b y] [|c z]; cbn;
    try discriminate; try reflexivity.
  intros E1 E2. destruct (cmp a b) eqn:Eab; cbn in E1; try discriminate.
  - rewrite (cmp_eq_l a b c Eab).
    destruct (cmp b c); cbn in *; try discriminate; [|reflexivity].
    now apply (IH y z).
  - destruct (cmp b c) eqn:Ebc; cbn in E2; try discriminate.
    + now rewrite <- (cmp_eq_r a b c Ebc), Eab.
    + now rewrite (cmp_lt_trans a b c Eab Ebc).
Qed.
End ListLaws.

#[global] Instance list_order {A} `{CmpOrder A} : CmpOrder (list A).
Proof.
  split.
  - exact list_cmp_antisym.
  - exact list_cmp_eq_l.
  - exact list_cmp_lt_trans.
Qed.

(** A sorted list without repetition is strictly ascending. *)
Lemma sorted_NoDup_strict (l : list (list N)) :
  StronglySorted (fun a b => leb a b = true) l -> List.NoDup l ->
  StronglySorted (fun a b => cmp a b = Lt) l.
Proof.
  induction 1 as [|x l Hs IH Hx]; intros Hnd; [constructor|].
  inversion Hnd as [|? ? Hnin Hnd']; subst.
  constructor; [now apply IH|].
  rewrite List.Forall_forall in *. intros y Hy.
  specialize (Hx y Hy). unfold leb in Hx.
  destruct (cmp x y) eqn:E; [|reflexivity|discriminate].
  apply list_cmp_eq in E. subst. contradiction.
Qed.

(** Two strictly ascending lists with the same elements are equal. *)
Lemma strict_sorted_unique (l1 l2 : list (list N)) :
  StronglySorted (fun a b => cmp a b = Lt) l1 ->
  StronglySorted (fun a b => cmp a b = Lt) l2 ->
  (forall x, In x l1 <-> In x l2) -> l1 = l2.
Proof.
  intros H1. revert l2. induction H1 as [|x l1 Hs1 IH Hx]; intros l2 H2 Hin.
  - destruct l2 as [|y l2]; [reflexivity|].
    exfalso. apply (Hin y). now left.
  - destruct H2 as [|y l2 Hs2 Hy].
    { exfalso. apply (Hin x). now left. }
    rewrite List.Forall_forall in Hx, Hy.
    assert (Exy : x = y).
    { destruct (proj1 (Hin x) (or_introl eq_refl)) as [E|Hx2]; [now symmetry|].
      destruct (proj2 (Hin y) (or_introl eq_refl)) as [E|Hy1]; [exact E|].
      pose proof (Hx y Hy1) as L1. pose proof (Hy x Hx2) as L2.
      rewrite (cmp_antisym x y), L1 in L2. discriminate. }
    subst y. f_equal. apply IH; [exact Hs2|].
    assert (Hirr : forall z : list N, cmp z z = Lt -> False).
    { intros z Hz. rewrite cmp_refl in Hz. discriminate. }
    intros z. split; intros Hz.
    + destruct (proj1 (Hin z) (or_intror Hz)) as [<-|H]; [|exact H].
      exfalso. apply (Hirr x). now apply Hx.
    + destruct (proj2 (Hin z) (or_intror Hz)) as [<-|H]; [|exact H].
      exfalso. apply (Hirr x). now apply Hy.
Qed.

End StrOrder.

(* ===================================================================== *)
(** ** Further properties of the transliterator and of the line parser    *)
(* ===================================================================== *)

Module ConvertMore.
Import PyStr Convert ConvertFacts.

(** *** Neutral tone and missing digit *)

Lemma replace2_absent a b r s : ~ In b s -> replace2 a b r s = s.
Proof.
  induction s as [|x s IH]; intros H; [reflexivity|].
  destruct s as [|y s']; [reflexivity|].
  cbn [replace2].
  destruct (N.eqb_spec y b) as [->|Hne].
  - exfalso. apply H. right. now left.
  - rewrite andb_false_r. f_equal.
    apply IH. intros Hin. apply H. now right.
Qed.

Lemma decode_syllable_neutral b c :
  isdigit c = true -> int_of_char c = Some 5 ->
  decode_syllable (b ++ [c]) = rewrite_u_colon b.
Proof.
  intros Hd Hi. unfold decode_syllable.
  rewrite (tone_and_base_digit b c 5 Hd Hi). reflexivity.
Qed.

Lemma decode_syllable_no_digit b c :
  isdigit c = false \/ int_of_char c = None ->
  decode_syllable (b ++ [c]) = rewrite_u_colon (b ++ [c]).
Proof.
  intros H. unfold decode_syllable, tone_and_base. rewrite last_last.
  destruct (isdigit c); [|reflexivity].
  destruct H as [H|H]; [discriminate|]. rewrite H. reflexivity.
Qed.

(** X10: a syllable whose last character is the digit 5 loses that digit
    and gets no mark; a syllable whose last character is no digit, or a
    digit that is no number (a superscript), is kept whole and gets no
    mark.  In both cases the only change left is the rewriting of 'u:'
    and 'U:', so a syllable without a colon comes out as it is. *)
Theorem decode_pinyin_neutral_tone :
  forall (b : str) (c : char),
    ~ In 0x20%N (b ++ [c]) ->
    (isdigit c = true -> int_of_char c = Some 5 ->
     decode_pinyin (b ++ [c]) = rewrite_u_colon b
     /\ (~ In 0x3A%N b -> decode_pinyin (b ++ [c]) = b))
    /\ (isdigit c = false \/ int_of_char c = None ->
        decode_pinyin (b ++ [c]) = rewrite_u_colon (b ++ [c])
        /\ (~ In 0x3A%N (b ++ [c]) -> decode_pinyin (b ++ [c]) = b ++ [c])).
Proof.
  intros b c Hsp. rewrite decode_pinyin_syllable by exact Hsp. split.
  - intros Hd Hi. pose proof (decode_syllable_neutral b c Hd Hi) as E.
    split; [exact E|]. intros Hc. etransitivity; [exact E|].
    unfold rewrite_u_colon.
    now rewrite (replace2_absent _ _ _ b Hc), (replace2_absent _ _ _ b Hc).
  - intros H. pose proof (decode_syllable_no_digit b c H) as E.
    split; [exact E|]. intros Hc. etransitivity; [exact E|].
    unfold rewrite_u_colon.
    now rewrite (replace2_absent _ _ _ _ Hc), (replace2_absent _ _ _ _ Hc).
Qed.

Lemma decode_pinyin_neutral_tone_witness :
  decode_pinyin (u8 "de5") = u8 "de"
  /\ decode_pinyin (u8 "de５") = u8 "de"
  /\ decode_pinyin (u8 "nü") = u8 "nü"
  /\ decode_pinyin (u8 "x²") = u8 "x²".
Proof.
  split; [|split; [|split]].
  - apply (decode_pinyin_neutral_tone (u8 "de") 0x35%N).
    + vm_compute. intuition discriminate.
    + reflexivity.
    + reflexivity.
    + vm_compute. intuition discriminate.
  - apply (decode_pinyin_neutral_tone (u8 "de") 0xFF15%N).
    + vm_compute. intuition discriminate.
    + reflexivity.
    + reflexivity.
    + vm_compute. intuition discriminate.
  - apply (decode_pinyin_neutral_tone (u8 "n") 0xFC%N).
    + vm_compute. intuition discriminate.
    + left. reflexivity.
    + vm_compute. intuition discriminate.
  - apply (decode_pinyin_neutral_tone (u8 "x") 0xB2%N).
    + vm_compute. intuition discriminate.
    + right. reflexivity.
    + vm_compute. intuition discriminate.
Defined.

(** *** Spaces *)







(** *** The line parser *)

(** X12: [parse_line] accepts exactly the lines that have the shape of a
    dictionary line, and the shape fixes the parts.  The two words are
    not empty and hold no white space; the pinyin is the text between
    the opening bracket and the first closing bracket after which white
    space, a slash and a later slash of the same line follow; the
    definitions are the text between that slash and the last slash of
    the line; neither holds an end of line. *)
Theorem parse_line_shape :
  forall line : str,
    (forall e, parse_line line = Some e ->
       line_shape line (traditional e) (simplified e) (pinyin e)
         (definitions e))
    /\ (forall g1 g2 g3 g4,
          line_shape line g1 g2 g3 g4 ->
          exists e, parse_line line = Some e
            /\ traditional e = g1 /\ simplified e = g2
            /\ pinyin e = g3 /\ definitions e = g4)
    /\ (forall g1 g2 g3 g4 g1' g2' g3' g4',
          line_shape line g1 g2 g3 g4 -> line_shape line g1' g2' g3' g4' ->
          g1 = g1' /\ g2 = g2' /\ g3 = g3' /\ g4 = g4').
Proof.
  intros line. split; [|split].
  - intros e H. unfold parse_line in H.
    destruct (match_line line) as [[[[g1 g2] g3] g4]|] eqn:E; [|discriminate].
    injection H as <-. cbn [traditional simplified pinyin definitions].
    now apply match_line_sound.
  - intros g1 g2 g3 g4 H. apply match_line_complete in H.
    unfold parse_line. rewrite H. eexists. split; [reflexivity|].
    repeat split; reflexivity.
  - intros g1 g2 g3 g4 g1' g2' g3' g4' H H'.
    apply match_line_complete in H, H'. rewrite H in H'.
    injection H' as <- <- <- <-. repeat split; reflexivity.
Qed.

(** A line with a bracket inside the pinyin and a slash after the
    glosses. *)
Definition line_brackets : str := u8 "甲 乙 [a] b] /c/d/ e".

Lemma parse_line_shape_witness :
  exists e, parse_line line_brackets = Some e
    /\ line_shape line_brackets (traditional e) (simplified e) (pinyin e)
         (definitions e)
    /\ pinyin e = u8 "a] b" /\ definitions e = u8 "c/d"
    /\ ~ line_shape line_brackets (u8 "甲") (u8 "乙") (u8 "a] b") (u8 "c").
Proof.
  destruct (parse_line line_brackets) as [e|] eqn:E;
    [|vm_compute in E; discriminate E].
  exists e. split; [reflexivity|].
  destruct (parse_line_shape line_brackets) as (H1 & _ & H3).
  split; [exact (H1 e E)|].
  pose proof (H1 e E) as Hs.
  vm_compute in E. injection E as <-.
  split; [reflexivity|]. split; [reflexivity|].
  intros H. cbn [traditional simplified pinyin definitions] in Hs.
  destruct (H3 _ _ _ _ _ _ _ _ Hs H) as (_ & _ & _ & E).
  vm_compute in E. discriminate E.
Defined.

(** The line written for an entry: one space between the parts. *)
Definition format_line (trad simp pin defs : str) : str :=
  trad ++ [0x20%N] ++ simp ++ [0x20%N; 0x5B%N] ++ pin
  ++ [0x5D%N; 0x20%N; 0x2F%N] ++ defs ++ [0x2F%N].

Lemma match_line_format trad simp pin defs :
  trad <> [] -> all_of re_nonspace trad ->
  simp <> [] -> all_of re_nonspace simp ->
  all_of re_dot pin -> ~ In 0x5D%N pin -> all_of re_dot defs ->
  match_line (format_line trad simp pin defs) = Some (trad, simp, pin, defs).
Proof.
  intros Nt At Ns As Ap Hb Ad. unfold match_line, format_line.
  apply plus_greedy_run; [exact Nt | exact At | |].
  { intros c rest' E. injection E as <- _. reflexivity. }
  apply (plus_greedy_run _ _ [0x20%N]);
    [discriminate | repeat constructor | |].
  { intros c rest' E. destruct simp as [|x simp']; [congruence|].
    injection E as <- _. inversion As as [|? ? Hx _]; subst.
    unfold re_nonspace in Hx. unfold re_space.
    now apply negb_true_iff in Hx. }
  apply plus_greedy_run; [exact Ns | exact As | |].
  { intros c rest' E. injection E as <- _. reflexivity. }
  change ([0x20%N; 0x5B%N] ++ pin ++ [0x5D%N; 0x20%N; 0x2F%N] ++ defs
          ++ [0x2F%N])
    with ([0x20%N] ++ 0x5B%N :: pin ++ [0x5D%N; 0x20%N; 0x2F%N] ++ defs
          ++ [0x2F%N]).
  apply (plus_greedy_run _ _ [0x20%N]);
    [discriminate | repeat constructor | |].
  { intros c rest' E. injection E as <- _. reflexivity. }
  cbn [lit N.eqb Pos.eqb].
  apply star_lazy_run; [exact Ap | |].
  { intros w1 c w2 -> . cbn [app lit].
    destruct (N.eqb_spec c 0x5D%N) as [->|Hne]; [|reflexivity].
    exfalso. apply Hb. apply in_or_app. right. now left. }
  cbn [app lit N.eqb Pos.eqb].
  change (0x20%N :: 0x2F%N :: defs ++ [0x2F%N])
    with ([0x20%N] ++ 0x2F%N :: defs ++ [0x2F%N]).
  apply (plus_greedy_run _ _ [0x20%N]);
    [discriminate | repeat constructor | |].
  { intros c rest' E. injection E as <- _. reflexivity. }
  cbn [lit N.eqb Pos.eqb].
  apply star_greedy_back.
  - apply Forall_app. split; [exact Ad | repeat constructor].
  - reflexivity.
  - cbn [app lit N.eqb Pos.eqb]. reflexivity.
Qed.

(** X13: [parse_line] reads back a written line: for two non-empty words
    without space, a pinyin without newline and closing bracket and
    definitions without newline (slashes allowed), the entry of the
    formatted line has exactly these four parts. *)
Theorem parse_line_format :
  forall trad simp pin defs : str,
    trad <> [] -> all_of re_nonspace trad ->
    simp <> [] -> all_of re_nonspace simp ->
    all_of re_dot pin -> ~ In 0x5D%N pin -> all_of re_dot defs ->
    exists e,
      parse_line (format_line trad simp pin defs) = Some e
      /\ traditional e = trad /\ simplified e = simp
      /\ pinyin e = pin /\ definitions e = defs
      /\ pinyin_marks e = decode_pinyin pin.
Proof.
  intros trad simp pin defs Nt At Ns As Ap Hb Ad. unfold parse_line.
  rewrite match_line_format by assumption.
  eexists. split; [reflexivity|]. repeat split; reflexivity.
Qed.

Lemma parse_line_format_witness :
  exists e,
    parse_line (format_line (u8 "媽") (u8 "妈") (u8 "ma1") (u8 "mother/mom"))
    = Some e
    /\ definitions e = u8 "mother/mom" /\ pinyin_marks e = u8 "mā".
Proof.
  destruct (parse_line_format (u8 "媽") (u8 "妈") (u8 "ma1") (u8 "mother/mom"))
    as (e & E & _ & _ & _ & Hd & Hm).
  - discriminate.
  - vm_compute. repeat constructor.
  - discriminate.
  - vm_compute. repeat constructor.
  - vm_compute. repeat constructor.
  - vm_compute. intros [H|[H|[H|[]]]]; discriminate H.
  - vm_compute. repeat constructor.
  - exists e. split; [exact E|]. split; [exact Hd|]. rewrite Hm. reflexivity.
Defined.

(** *** The pinyin keys of an entry *)

Lemma filter_filter {A} (f g : A -> bool) l :
  List.filter f (List.filter g l) = List.filter (fun x => g x && f x) l.
Proof.
  induction l as [|x l IH]; [reflexivity|]. cbn [List.filter].
  destruct (g x); cbn [List.filter andb]; [destruct (f x)|]; now rewrite IH.
Qed.

Lemma filter_id {A} (f : A -> bool) l :
  Forall (fun x => f x = true) l -> List.filter f l = l.
Proof.
  induction 1 as [|x l Hx _ IH]; [reflexivity|].
  cbn [List.filter]. now rewrite Hx, IH.
Qed.

(** Deleting inert characters and [lower], without a capital sigma, can
    be done in either order. *)
Lemma filter_flat_lower (g : char -> bool) :
  (forall c, g c = true -> inert c = true) ->
  forall s,
    List.filter (fun x => negb (g x)) (flat_map lower_char s)
    = flat_map lower_char (List.filter (fun x => negb (g x)) s).
Proof.
  intros Hg. induction s as [|c s IH]; [reflexivity|].
  cbn [flat_map List.filter]. rewrite List.filter_app, IH.
  destruct (g c) eqn:Ec; cbn [negb flat_map].
  - rewrite (lower_char_inert c (Hg c Ec)). cbn [List.filter].
    now rewrite Ec.
  - f_equal. apply filter_id, List.Forall_forall. intros x Hx.
    apply negb_true_iff. destruct (g x) eqn:Ex; [|reflexivity].
    destruct (inert c) eqn:Ei.
    + rewrite (lower_char_inert c Ei) in Hx. destruct Hx as [<-|[]].
      congruence.
    + specialize (Hg x Ex). rewrite (lower_char_active c x Ei Hx) in Hg.
      discriminate.
Qed.

(** The characters of a small-letter text are their own small-letter
    form, and none is a capital sigma. *)
Definition settled (c : char) : bool :=
  eqb (lower_char c) [c] && negb (c =? 0x3A3)%N.

Lemma lower_char_settled c : forallb settled (lower_char c) = true.
Proof.
  revert c. apply lower_char_cases; [vm_compute; reflexivity|].
  intros c H. rewrite H. cbn [forallb]. unfold settled. rewrite H.
  rewrite andb_true_r. apply andb_true_iff. split.
  - unfold eqb. now apply bool_decide_eq_true.
  - apply negb_true_iff, N.eqb_neq. intros ->. vm_compute in H.
    discriminate H.
Qed.

Lemma lower_from_settled s :
  forall before, Forall (fun c => settled c = true) (lower_from before s).
Proof.
  induction s as [|c s IH]; intros before; [constructor|].
  cbn [lower_from]. apply Forall_app. split; [|apply IH].
  destruct (c =? 0x3A3)%N.
  - destruct (final_sigma before s); repeat constructor.
  - apply List.Forall_forall. apply forallb_forall, lower_char_settled.
Qed.

Lemma lower_str_settled t :
  Forall (fun c => settled c = true) t -> lower_str t = t.
Proof.
  intros H. unfold lower_str. rewrite lower_from_flat.
  - induction H as [|c t Hc _ IH]; [reflexivity|].
    cbn [flat_map]. rewrite IH. apply andb_true_iff in Hc.
    destruct Hc as [Hc _]. unfold eqb in Hc.
    apply bool_decide_eq_true in Hc. now rewrite Hc.
  - intros Hin. rewrite List.Forall_forall in H. specialize (H _ Hin).
    vm_compute in H. discriminate H.
Qed.

(** [lower] applied twice is [lower]. *)
Lemma lower_str_idem s : lower_str (lower_str s) = lower_str s.
Proof. apply lower_str_settled, lower_from_settled. Qed.

Lemma lower_str_free (p : char -> bool) s :
  (forall c, p c = true -> inert c = true) ->
  Forall (fun c => p c = false) s ->
  Forall (fun c => p c = false) (lower_str s).
Proof.
  intros Hp Hs. apply List.Forall_forall. intros x Hx.
  destruct (p x) eqn:Ex; [|reflexivity].
  apply (lower_from_keeps x s (Hp x Ex) []) in Hx.
  rewrite List.Forall_forall in Hs. rewrite (Hs x Hx) in Ex. discriminate.
Qed.

(** X14: the two pinyin keys stored for an entry are normal forms of its
    pinyin: neither holds white space, [pinyin_clean] holds no ASCII
    digit, and [lower] leaves both as they are.  When the pinyin has no
    capital sigma, whose small form depends on its neighbours,
    [pinyin_clean] is [pinyin_numbered] without its ASCII digits; when
    moreover its only white space is the space itself, the two keys are
    the keys that [search] computes from the same text, [clean_query]
    and [clean_pinyin_no_tones], and the exact statement for that text is
    run on the stored key of the column it compares. *)
Theorem parse_line_pinyin_keys :
  forall (line : str) (e : entry),
    parse_line line = Some e ->
    Forall (fun c => isspace c = false) (pinyin_numbered e)
    /\ Forall (fun c => isspace c = false /\ in_range 0x30 0x39 c = false)
         (pinyin_clean e)
    /\ lower_str (pinyin_numbered e) = pinyin_numbered e
    /\ lower_str (pinyin_clean e) = pinyin_clean e
    /\ (~ In 0x3A3%N (pinyin e) ->
        App.remove_ascii_digits (pinyin_numbered e) = pinyin_clean e
        /\ (Forall (fun c => isspace c = true -> c = 0x20%N) (pinyin e) ->
            App.clean_query (pinyin e) = pinyin_numbered e
            /\ App.clean_pinyin_no_tones (pinyin e) = pinyin_clean e
            /\ forall db,
                 App.exact_query db (pinyin e)
                 = App.exact_rows db (App.has_tones (pinyin e)) (pinyin e)
                     (if App.has_tones (pinyin e) then pinyin_numbered e
                      else pinyin_clean e))).
Proof.
  intros line e H. unfold parse_line in H.
  destruct (match_line line) as [[[[g1 g2] g3] g4]|]; [|discriminate].
  injection H as <-. cbn [pinyin pinyin_numbered pinyin_clean].
  assert (Hsp : forall c, isspace c = true -> inert c = true).
  { intros c Hc. unfold inert. now rewrite Hc. }
  assert (Hdg : forall c, in_range 0x30 0x39 c = true -> inert c = true).
  { intros c Hc. unfold inert. rewrite Hc. apply orb_true_iff. left.
    apply orb_true_r. }
  split; [|split; [|split; [|split]]].
  - apply (lower_str_free isspace _ Hsp). unfold remove_spaces.
    apply List.Forall_forall. intros c Hc. apply filter_In in Hc.
    now apply negb_true_iff.
  - assert (H1 : Forall (fun c => isspace c = false)
                   (lower_str (remove_digits_spaces g3))).
    { apply (lower_str_free isspace _ Hsp). unfold remove_digits_spaces.
      apply List.Forall_forall. intros c Hc. apply filter_In in Hc.
      destruct Hc as [_ Hc]. now apply negb_true_iff, orb_false_iff in Hc. }
    assert (H2 : Forall (fun c => in_range 0x30 0x39 c = false)
                   (lower_str (remove_digits_spaces g3))).
    { apply (lower_str_free (in_range 0x30 0x39) _ Hdg).
      unfold remove_digits_spaces.
      apply List.Forall_forall. intros c Hc. apply filter_In in Hc.
      destruct Hc as [_ Hc]. now apply negb_true_iff, orb_false_iff in Hc. }
    rewrite List.Forall_forall in *. intros c Hc. split; auto.
  - apply lower_str_idem.
  - apply lower_str_idem.
  - intros Hsig.
    assert (Hfree : forall f, ~ In 0x3A3%N (List.filter f g3)).
    { intros f Hin. apply filter_In in Hin. now apply Hsig. }
    assert (Hrel : App.remove_ascii_digits (lower_str (remove_spaces g3))
                   = lower_str (remove_digits_spaces g3)).
    { unfold App.remove_ascii_digits, remove_spaces, remove_digits_spaces,
        lower_str.
      rewrite !lower_from_flat by apply Hfree.
      rewrite (filter_flat_lower (in_range 0x30 0x39) Hdg).
      f_equal. rewrite filter_filter. apply filter_ext. intros c.
      rewrite negb_orb. apply andb_comm. }
    split; [exact Hrel|]. intros Honly.
    assert (Hq : App.clean_query g3 = lower_str (remove_spaces g3)).
    { unfold App.clean_query, App.remove_char, remove_spaces, lower_str.
      rewrite lower_from_flat by exact Hsig.
      rewrite lower_from_flat by apply Hfree.
      rewrite (filter_flat_lower (fun x => (x =? 0x20)%N)).
      - f_equal. apply filter_ext_in. intros c Hc.
        rewrite List.Forall_forall in Honly. specialize (Honly c Hc).
        destruct (N.eqb_spec c 0x20%N) as [->|Hne]; [reflexivity|].
        destruct (isspace c); [|reflexivity]. now specialize (Honly eq_refl).
      - intros c Hc. apply N.eqb_eq in Hc. now subst. }
    assert (Hc : App.clean_pinyin_no_tones g3
                 = lower_str (remove_digits_spaces g3)).
    { unfold App.clean_pinyin_no_tones. now rewrite Hq. }
    split; [exact Hq|]. split; [exact Hc|].
    intros db. unfold App.exact_query. rewrite Hq, Hc.
    now destruct (App.has_tones g3).
Qed.

Lemma parse_line_pinyin_keys_witness :
  exists e,
    parse_line (u8 "北京 北京 [Bei3 jing1] /Beijing/") = Some e
    /\ App.clean_query (pinyin e) = pinyin_numbered e
    /\ App.clean_pinyin_no_tones (pinyin e) = pinyin_clean e
    /\ pinyin_numbered e = u8 "bei3jing1" /\ pinyin_clean e = u8 "beijing".
Proof.
  destruct (parse_line (u8 "北京 北京 [Bei3 jing1] /Beijing/")) as [e|] eqn:E;
    [|vm_compute in E; discriminate E].
  exists e. split; [reflexivity|].
  destruct (parse_line_pinyin_keys _ e E) as (_ & _ & _ & _ & H).
  vm_compute in E. injection E as <-.
  destruct H as [_ H].
  - cbn [pinyin]. vm_compute. intuition discriminate.
  - destruct H as (H1 & H2 & _).
    + cbn [pinyin]. repeat constructor; vm_compute; congruence.
    + split; [exact H1|]. split; [exact H2|]. split; reflexivity.
Defined.

(** Where the hypotheses of the keys are needed: a capital sigma before
    a digit or a space is final in one key and not in the other. *)
Example pinyin_keys_sigma :
  (exists e, parse_line (u8 "甲 乙 [aΣ1b] /c/") = Some e
     /\ App.remove_ascii_digits (pinyin_numbered e) = u8 "aςb"
     /\ pinyin_clean e = u8 "aσb")
  /\ (exists e, parse_line (u8 "甲 乙 [aΣ b] /c/") = Some e
        /\ App.clean_query (pinyin e) = u8 "aςb"
        /\ pinyin_numbered e = u8 "aσb").
Proof.
  split; eexists; (split; [vm_compute; reflexivity|]);
    split; vm_compute; reflexivity.
Qed.

(** *** The rewriting of the umlaut digraphs *)

(** The first character of a replacement result is the new character or
    the first character of the input. *)
Lemma replace2_head a b r s :
  hd_error (replace2 a b r s) = Some r
  \/ hd_error (replace2 a b r s) = hd_error s.
Proof.
  destruct s as [|x [|y s']]; cbn [replace2]; [now right..|].
  destruct ((x =? a) && (y =? b))%N; [now left | now right].
Qed.

Lemma replace2_eq a b r x y s' :
  replace2 a b r (x :: y :: s')
  = if ((x =? a) && (y =? b))%N then r :: replace2 a b r s'
    else x :: replace2 a b r (y :: s').
Proof. reflexivity. Qed.

Lemma contains2_cons a b x t :
  contains2 a b (x :: t)
  = (match hd_error t with
     | Some y => (x =? a)%N && (y =? b)%N
     | None => false
     end) || contains2 a b t.
Proof. destruct t as [|y t]; reflexivity. Qed.

Lemma replace2_keeps_absent a b a' b' r' :
  r' <> a -> r' <> b ->
  forall n s, (length s <= n)%nat ->
    contains2 a b s = false ->
    contains2 a b (replace2 a' b' r' s) = false.
Proof.
  intros Ha Hb. induction n as [|n IH]; intros s Hn Hs.
  { destruct s; [reflexivity | cbn in Hn; lia]. }
  destruct s as [|x [|y s']]; [reflexivity..|].
  cbn [length] in Hn. rewrite contains2_cons in Hs.
  apply orb_false_iff in Hs. destruct Hs as [Hxy Ht]. cbn [hd_error] in Hxy.
  rewrite replace2_eq. destruct ((x =? a') && (y =? b'))%N.
  - rewrite contains2_cons.
    rewrite (proj2 (N.eqb_neq r' a) Ha). cbn [andb].
    replace (match hd_error (replace2 a' b' r' s') with
             | Some _ => false | None => false end) with false
      by now destruct (hd_error _).
    cbn [orb]. apply IH; [lia|].
    rewrite contains2_cons in Ht. now apply orb_false_iff in Ht.
  - rewrite contains2_cons, (IH (y :: s')) by (cbn [length]; lia || exact Ht).
    rewrite orb_false_r.
    destruct (replace2_head a' b' r' (y :: s')) as [-> | ->]; cbn [hd_error].
    + rewrite (proj2 (N.eqb_neq r' b) Hb). apply andb_false_r.
    + exact Hxy.
Qed.

Lemma replace2_removes a b r :
  r <> a -> r <> b ->
  forall n s, (length s <= n)%nat ->
    contains2 a b (replace2 a b r s) = false.
Proof.
  intros Ha Hb. induction n as [|n IH]; intros s Hn.
  { destruct s; [reflexivity | cbn in Hn; lia]. }
  destruct s as [|x [|y s']]; [reflexivity..|].
  cbn [length] in Hn. rewrite replace2_eq.
  destruct ((x =? a) && (y =? b))%N eqn:E.
  - rewrite contains2_cons, (proj2 (N.eqb_neq r a) Ha). cbn [andb].
    replace (match hd_error (replace2 a b r s') with
             | Some _ => false | None => false end) with false
      by now destruct (hd_error _).
    cbn [orb]. apply IH. lia.
  - rewrite contains2_cons, (IH (y :: s')) by (cbn [length]; lia).
    rewrite orb_false_r.
    destruct (replace2_head a b r (y :: s')) as [-> | ->]; cbn [hd_error].
    + rewrite (proj2 (N.eqb_neq r b) Hb). apply andb_false_r.
    + exact E.
Qed.

Lemma replace2_length a b r s : (length (replace2 a b r s) <= length s)%nat.
Proof.
  assert (H : forall n s, (length s <= n)%nat ->
                          (length (replace2 a b r s) <= length s)%nat).
  { induction n as [|n IH]; intros t Hn.
    - destruct t; [cbn; lia | cbn in Hn; lia].
    - destruct t as [|x [|y t']]; [cbn; lia..|].
      cbn [length] in Hn. rewrite replace2_eq.
      destruct ((x =? a) && (y =? b))%N; cbn [length].
      + specialize (IH t' ltac:(lia)). lia.
      + specialize (IH (y :: t') ltac:(cbn [length]; lia)).
        cbn [length] in IH. lia. }
  now apply (H (length s)).
Qed.

(** X15: after the rewriting no 'u:' and no 'U:' is left in the text,
    whatever the text was, and the text has not grown. *)
Theorem rewrite_u_colon_complete :
  forall s : str,
    ~ has_digraph 0x75%N 0x3A%N (rewrite_u_colon s)
    /\ ~ has_digraph 0x55%N 0x3A%N (rewrite_u_colon s)
    /\ (length (rewrite_u_colon s) <= length s)%nat.
Proof.
  intros s. unfold rewrite_u_colon. rewrite <- !contains2_spec.
  split; [|split].
  - rewrite (replace2_keeps_absent 0x75%N 0x3A%N 0x55%N 0x3A%N 0xDC%N
               ltac:(discriminate) ltac:(discriminate) _ _ (Nat.le_refl _));
      [discriminate|].
    now apply (replace2_removes 0x75%N 0x3A%N 0xFC%N
                 ltac:(discriminate) ltac:(discriminate) (length s)).
  - rewrite (replace2_removes 0x55%N 0x3A%N 0xDC%N
               ltac:(discriminate) ltac:(discriminate) _ _ (Nat.le_refl _)).
    discriminate.
  - etransitivity; [apply replace2_length | apply replace2_length].
Qed.

End ConvertMore.

(* ===================================================================== *)
(** ** Further properties of the search pipeline                          *)
(* ===================================================================== *)

Module AppMore.
Import PyStr App OrderFacts StrOrder AppFacts.

(** *** The pages of a result list *)

Lemma firstn_min_length {A} (k : nat) (l : list A) :
  firstn (Nat.min k (length l)) l = firstn k l.
Proof.
  destruct (Nat.le_ge_cases k (length l)) as [H|H].
  - now rewrite Nat.min_l.
  - rewrite Nat.min_r by assumption.
    now rewrite firstn_all, firstn_all2.
Qed.

(** From the first page on, a page is the window of 20 results that
    starts after the earlier pages. *)
Lemma paginate_window {A} (l : list A) (page : Z) :
  1 <= page ->
  paginate l page = firstn 20 (skipn (20 * Z.to_nat (page - 1)) l).
Proof.
  intros Hp. unfold paginate, slice, slice_bound, RESULTS_PER_PAGE.
  set (n := Z.of_nat (length l)).
  replace ((page - 1) * 20 <? 0) with false by (symmetry; apply Z.ltb_ge; lia).
  replace ((page - 1) * 20 + 20 <? 0) with false
    by (symmetry; apply Z.ltb_ge; lia).
  destruct (Z.le_gt_cases n ((page - 1) * 20)) as [Hge|Hlt].
  - rewrite (skipn_all2 (n := 20 * Z.to_nat (page - 1))) by (subst n; lia).
    rewrite skipn_all2 by (subst n; lia).
    now rewrite !firstn_nil.
  - replace (Z.to_nat (Z.min ((page - 1) * 20) n))
      with (20 * Z.to_nat (page - 1))%nat by lia.
    rewrite <- (firstn_min_length 20).
    f_equal. rewrite length_skipn. subst n. lia.
Qed.

Lemma firstn_add {A} (a b : nat) (l : list A) :
  firstn (a + b) l = firstn a l ++ firstn b (skipn a l).
Proof.
  revert l. induction a as [|a IH]; intros l; [reflexivity|].
  destruct l as [|x l]; [cbn [skipn]; now rewrite !firstn_nil|].
  cbn [Nat.add firstn skipn app]. now rewrite IH.
Qed.

Lemma windows_concat {A} (l : list A) (m : nat) :
  concat (List.map (fun k => firstn 20 (skipn (20 * k) l)) (List.seq 0 m))
  = firstn (20 * m) l.
Proof.
  induction m as [|m IH]; [reflexivity|].
  rewrite seq_S, List.map_app, concat_app, IH. cbn [List.map concat Nat.add].
  rewrite app_nil_r.
  replace (20 * S m)%nat with (20 * m + 20)%nat by lia.
  now rewrite firstn_add.
Qed.

(** The page numbers 1 .. [total_pages_of n]. *)
Definition page_numbers (n : Z) : list Z :=
  List.map (fun k => Z.of_nat k + 1) (List.seq 0 (Z.to_nat (total_pages_of n))).

(** X1: the pages 1 to [total_pages], one after the other, are the whole
    result list: no result is lost or shown twice.  A page holds at most
    20 results, every page before the last holds exactly 20, and the
    last one is not empty. *)
Theorem pages_partition :
  forall (A : Type) (all_results : list A),
    let n := Z.of_nat (length all_results) in
    concat (List.map (paginate all_results) (page_numbers n)) = all_results
    /\ (forall page, (length (paginate all_results page) <= 20)%nat)
    /\ (forall page, 1 <= page < total_pages_of n ->
                     length (paginate all_results page) = 20%nat)
    /\ (0 < n ->
        length (paginate all_results (total_pages_of n))
        = Z.to_nat (n - 20 * (total_pages_of n - 1))
        /\ paginate all_results (total_pages_of n) <> []).
Proof.
  intros A l n.
  pose proof (total_pages_bounds n) as B. unfold RESULTS_PER_PAGE in B.
  split; [|split; [|split]].
  - unfold page_numbers. rewrite List.map_map.
    rewrite (map_ext_in _ (fun k => firstn 20 (skipn (20 * k) l))).
    + rewrite windows_concat. apply firstn_all2. subst n. lia.
    + intros k _. rewrite paginate_window by lia.
      do 3 f_equal. lia.
  - intros page. unfold paginate, slice. rewrite length_firstn.
    unfold slice_bound, RESULTS_PER_PAGE. fold n.
    destruct ((page - 1) * 20 <? 0) eqn:E1;
      destruct ((page - 1) * 20 + 20 <? 0) eqn:E2;
      rewrite ?Z.ltb_lt, ?Z.ltb_ge in *; lia.
  - intros page Hp. rewrite paginate_window by lia.
    rewrite length_firstn, length_skipn. subst n. lia.
  - intros Hn.
    assert (Hlen : length (paginate l (total_pages_of n))
                   = Z.to_nat (n - 20 * (total_pages_of n - 1))).
    { rewrite paginate_window by lia.
      rewrite length_firstn, length_skipn. subst n. lia. }
    split; [exact Hlen|]. intros E. rewrite E in Hlen. cbn in Hlen. lia.
Qed.

(** *** The bonus of an exact gloss *)

(** X2: of two full-text hits, one with a gloss equal to the query (small
    letters, trimmed) and one without, the first has the smaller key
    whatever their HSK levels, data flags, ranks and lengths are, and so
    is sorted before the second. *)
Theorem gloss_match_sorts_first :
  forall (query : str) (r1 r2 : result) (l : list result),
    match_type_of r1 = fts -> match_type_of r2 = fts ->
    gloss_matches query r1 -> ~ gloss_matches query r2 ->
    ltb (score_result query r1) (score_result query r2) = true
    /\ (In r1 l -> In r2 l ->
        exists l1 l2 l3, sort_results query l = l1 ++ r1 :: l2 ++ r2 :: l3).
Proof.
  intros query r1 r2 l H1 H2 Hg1 Hg2.
  assert (Hlt : ltb (score_result query r1) (score_result query r2) = true).
  { unfold ltb, score_result. fold (match_type_of r1) (match_type_of r2).
    rewrite H1, H2. cbv zeta.
    apply gloss_test_spec in Hg1. rewrite Hg1.
    destruct (in_list (lower_str query)
                (List.map strip (split 47%N (lower_str (definitions r2)))))
      eqn:E2; [apply gloss_test_spec in E2; contradiction|].
    reflexivity. }
  split; [exact Hlt|]. intros Ha Hb. now apply sort_results_before.
Qed.

Lemma pages_partition_witness :
  concat (List.map (paginate (List.seq 0 45)) [1; 2; 3]) = List.seq 0 45
  /\ length (paginate (List.seq 0 45) 3) = 5%nat
  /\ paginate (List.seq 0 45) 3 <> [].
Proof.
  destruct (pages_partition nat (List.seq 0 45)) as (H1 & _ & _ & H4).
  split; [exact H1|]. apply H4. reflexivity.
Defined.

Lemma gloss_match_sorts_first_witness :
  ltb (score_result (u8 "china") china_hit)
      (score_result (u8 "china")
         (set_hsk_level 1 (set_definitions (u8 "Chinese") china_hit)))
  = true.
Proof.
  apply (gloss_match_sorts_first (u8 "china") china_hit
           (set_hsk_level 1 (set_definitions (u8 "Chinese") china_hit)) []).
  - reflexivity.
  - reflexivity.
  - exists (u8 "China"). split; [left|]; reflexivity.
  - rewrite <- gloss_test_spec. vm_compute. discriminate.
Defined.

(** *** One entry per key *)

(** The distinct elements of a list, in order of first appearance. *)
Fixpoint first_seen {K} `{EqDecision K} (l : list K) : list K :=
  match l with
  | [] => []
  | k :: l' => k :: List.filter (fun x => negb (bool_decide (x = k)))
                      (first_seen l')
  end.

Lemma first_seen_In {K} `{EqDecision K} (l : list K) x :
  In x (first_seen l) <-> In x l.
Proof.
  induction l as [|k l IH]; [reflexivity|]. cbn [first_seen In].
  rewrite filter_In, IH, negb_true_iff, bool_decide_eq_false.
  destruct (decide (k = x)) as [->|Hne]; [tauto|].
  split; [tauto|]. intros [E|Hin]; [tauto|]. right. split; [exact Hin|].
  congruence.
Qed.

Lemma first_seen_snoc {K} `{EqDecision K} (l : list K) k :
  first_seen (l ++ [k])
  = if bool_decide (k ∈ l) then first_seen l else first_seen l ++ [k].
Proof.
  induction l as [|a l IH]; cbn [first_seen app].
  - rewrite bool_decide_eq_false_2 by apply not_elem_of_nil. reflexivity.
  - rewrite IH. destruct (decide (k = a)) as [->|Hne].
    + rewrite (bool_decide_eq_true_2 (a ∈ a :: l)) by (rewrite elem_of_cons; now left).
      destruct (bool_decide (a ∈ l)); [reflexivity|].
      rewrite List.filter_app. cbn [List.filter].
      rewrite bool_decide_eq_true_2 by reflexivity. cbn [negb].
      now rewrite app_nil_r.
    + destruct (bool_decide (k ∈ l)) eqn:E.
      * apply bool_decide_eq_true in E.
        now rewrite (bool_decide_eq_true_2 (k ∈ a :: l))
          by (rewrite elem_of_cons; now right).
      * apply bool_decide_eq_false in E.
        rewrite (bool_decide_eq_false_2 (k ∈ a :: l))
          by (rewrite elem_of_cons; intros [?|?]; congruence).
        rewrite List.filter_app. cbn [List.filter].
        rewrite (bool_decide_eq_false_2 (k = a)) by assumption.
        reflexivity.
Qed.

Lemma first_seen_NoDup {K} `{EqDecision K} (l : list K) :
  List.NoDup (first_seen l).
Proof.
  induction l as [|k l IH]; [constructor|]. cbn [first_seen].
  constructor.
  - intros Hin. apply filter_In in Hin.
    destruct Hin as [_ Hin]. apply negb_true_iff, bool_decide_eq_false in Hin.
    congruence.
  - apply List.NoDup_filter, IH.
Qed.

Lemma merge_results_keys all :
  List.map fst (merge_results all) = first_seen (List.map key_of all).
Proof.
  induction all as [|h p IH] using rev_ind; [reflexivity|].
  rewrite merge_results_snoc, List.map_app. cbn [List.map].
  rewrite first_seen_snoc, <- IH. unfold merge_step.
  destruct (dict_get (key_of h) (merge_results p)) eqn:E.
  - rewrite dict_alter_keys.
    assert (Hin : In (key_of h) (List.map fst (merge_results p))).
    { destruct (in_dec (fun a b => decide (a = b)) (key_of h)
                  (List.map fst (merge_results p))) as [Hin|Hn];
        [exact Hin|].
      apply dict_get_None in Hn. congruence. }
    rewrite IH, first_seen_In in Hin.
    now rewrite bool_decide_eq_true_2 by now apply list_elem_of_In.
  - apply dict_get_None in E. rewrite IH, first_seen_In in E.
    rewrite bool_decide_eq_false_2 by now rewrite list_elem_of_In.
    now rewrite List.map_app.
Qed.

Lemma merged_entry_key all k e :
  In (k, e) (merge_results all) -> key_of (finalize e) = k.
Proof.
  intros Hin.
  pose proof (dict_get_In k e _ (merge_results_keys_NoDup all) Hin) as Hg.
  rewrite merge_results_get in Hg.
  destruct (group k all) as [|first later] eqn:Eg; [discriminate|].
  injection Hg as <-.
  destruct (finalize_fields (fold_left merge_into later (seed first)))
    as (-> & _).
  rewrite fold_merge_key. destruct (seed_fields first) as (-> & _).
  assert (Hf : In first (group k all)) by (rewrite Eg; now left).
  unfold group in Hf. apply filter_In in Hf. destruct Hf as [_ Hf].
  now apply bool_decide_eq_true in Hf.
Qed.

(** X3: the ranked list has exactly one result for each distinct key
    (simplified, small-letter pinyin_marks) among the hits: its keys are
    a rearrangement of the distinct keys of the hits, no two results
    share a key, and before the sort the entries stand in the order in
    which their keys were first seen. *)
Theorem ranked_one_result_per_key :
  forall (query : str) (all_results : list result),
    List.map fst (merge_results all_results)
    = first_seen (List.map key_of all_results)
    /\ Permutation (List.map key_of (rank query all_results))
         (first_seen (List.map key_of all_results))
    /\ List.NoDup (List.map key_of (rank query all_results))
    /\ (length (rank query all_results) <= length all_results)%nat.
Proof.
  intros query all.
  assert (Hk : List.map key_of
                 (List.map (fun kv => finalize (snd kv)) (merge_results all))
               = first_seen (List.map key_of all)).
  { rewrite <- merge_results_keys, List.map_map.
    apply map_ext_in. intros [k e] Hin. cbn [fst snd].
    now apply merged_entry_key in Hin. }
  assert (Hp : Permutation (List.map key_of (rank query all))
                 (first_seen (List.map key_of all))).
  { rewrite <- Hk. apply Permutation_map. unfold rank.
    apply sort_results_perm. }
  split; [apply merge_results_keys|]. split; [exact Hp|]. split.
  - eapply Permutation_NoDup; [symmetry; exact Hp|].
    apply first_seen_NoDup.
  - rewrite <- (length_map key_of), (Permutation_length Hp).
    rewrite <- (length_map key_of all).
    apply NoDup_incl_length; [apply first_seen_NoDup|].
    intros x Hx. now apply (first_seen_In (List.map key_of all)).
Qed.

(** *** The hits of the three strategies *)

(** The rows that [add_unique_results] keeps: those whose id is neither in
    [seen] nor on an earlier row. *)
Fixpoint fresh (seen : gset Z) (rows : list Row.t) : list Row.t :=
  match rows with
  | [] => []
  | row :: rest =>
    if bool_decide (Row.id row ∈ seen) then fresh seen rest
    else row :: fresh (seen ∪ {[Row.id row]}) rest
  end.

Definition ids_of (rows : list Row.t) : gset Z :=
  list_to_set (List.map Row.id rows).

Definition tag (mt : match_type) (row : Row.t) : result :=
  set_match_type (Some mt) (dict_of_row row).

Lemma add_unique_results_fresh rows mt :
  forall all seen,
    add_unique_results rows mt (all, seen)
    = (all ++ List.map (tag mt) (fresh seen rows), seen ∪ ids_of rows).
Proof.
  unfold add_unique_results, ids_of.
  induction rows as [|row rest IH]; intros all seen; cbn [fold_left fresh].
  - rewrite app_nil_r. f_equal. cbn. set_solver.
  - destruct (bool_decide (Row.id row ∈ seen)) eqn:E.
    + rewrite IH. f_equal. apply bool_decide_eq_true in E.
      cbn [List.map list_to_set]. set_solver.
    + rewrite IH. cbn [List.map]. rewrite <- app_assoc. f_equal.
      cbn [list_to_set]. set_solver.
Qed.

Lemma ids_of_In i rows :
  (i ∈ ids_of rows) <-> (exists row, In row rows /\ Row.id row = i).
Proof.
  unfold ids_of. rewrite elem_of_list_to_set, list_elem_of_In, in_map_iff.
  split; intros (row & H1 & H2); exists row; tauto.
Qed.

(** A kept row is the first row of its id, and its id was not seen. *)
Lemma fresh_In seen rows row :
  In row (fresh seen rows) <->
  (Row.id row ∉ seen)
  /\ exists l1 l2, rows = l1 ++ row :: l2
                   /\ forall r, In r l1 -> Row.id r <> Row.id row.
Proof.
  revert seen. induction rows as [|r0 rest IH]; intros seen; cbn [fresh].
  - split; [intros []|]. intros (_ & l1 & l2 & E & _).
    destruct l1; discriminate.
  - destruct (bool_decide (Row.id r0 ∈ seen)) eqn:E0.
    + apply bool_decide_eq_true in E0. rewrite IH. split.
      * intros (Hs & l1 & l2 & -> & Hl). split; [exact Hs|].
        exists (r0 :: l1), l2. split; [reflexivity|].
        intros r [<-|Hr]; [|now apply Hl]. intros Eid. now rewrite Eid in E0.
      * intros (Hs & l1 & l2 & E & Hl). split; [exact Hs|].
        destruct l1 as [|x l1]; cbn in E; injection E as -> ->;
          [contradiction|].
        exists l1, l2. split; [reflexivity|]. intros r Hr. apply Hl. now right.
    + apply bool_decide_eq_false in E0. cbn [In]. rewrite IH. split.
      * intros [<-|(Hs & l1 & l2 & -> & Hl)].
        -- split; [exact E0|]. exists [], rest. split; [reflexivity|].
           intros r [].
        -- split; [set_solver|]. exists (r0 :: l1), l2.
           split; [reflexivity|]. intros r [<-|Hr]; [|now apply Hl].
           set_solver.
      * intros (Hs & l1 & l2 & E & Hl).
        destruct l1 as [|x l1]; cbn in E; injection E as -> ->; [now left|].
        right. split.
        -- assert (Row.id x <> Row.id row) by (apply Hl; now left).
           set_solver.
        -- exists l1, l2. split; [reflexivity|]. intros r Hr. apply Hl.
           now right.
Qed.

Lemma fresh_ids_NoDup seen rows :
  List.NoDup (List.map Row.id (fresh seen rows)).
Proof.
  revert seen. induction rows as [|r0 rest IH]; intros seen; cbn [fresh];
    [constructor|].
  destruct (bool_decide (Row.id r0 ∈ seen)); [apply IH|].
  cbn [List.map]. constructor; [|apply IH].
  intros Hin. apply in_map_iff in Hin. destruct Hin as (r & Eid & Hr).
  apply fresh_In in Hr. destruct Hr as [Hs _]. set_solver.
Qed.

Lemma tag_fields mt row :
  id (tag mt row) = Row.id row /\ _match_type (tag mt row) = Some mt
  /\ fts_rank (tag mt row) = Row.fts_rank row.
Proof. repeat split; reflexivity. Qed.

(** The rows of the three statements as [gather] saw them; a full-text
    statement that raised counts for no rows. *)
Definition fts_rows_or_none (db : store) (query : str) : list Row.t :=
  match fts_rows db (fts_query query) with
  | Ok rows => rows
  | Raise _ => []
  end.

Lemma gather_fresh db query st :
  gather db query = Ok st ->
  exists rows_e rows_s,
    exact_query db query = Ok rows_e /\ start_query db query = Ok rows_s
    /\ let rows_f := fts_rows_or_none db query in
       fst st
       = List.map (tag exact) (fresh ∅ rows_e)
         ++ List.map (tag starts_with) (fresh (ids_of rows_e) rows_s)
         ++ List.map (tag fts)
              (fresh (ids_of rows_e ∪ ids_of rows_s) rows_f)
       /\ snd st = ids_of rows_e ∪ ids_of rows_s ∪ ids_of rows_f.
Proof.
  unfold gather, fts_rows_or_none. intros H.
  destruct (exact_query db query) as [rows_e|]; [|discriminate].
  destruct (start_query db query) as [rows_s|]; [|discriminate].
  cbn [bind] in H. exists rows_e, rows_s.
  split; [reflexivity|]. split; [reflexivity|].
  rewrite !add_unique_results_fresh in H. cbn [app] in H.
  rewrite !(left_id_L ∅ (∪)) in H.
  destruct (fts_rows db (fts_query query)) as [rows_f|];
    injection H as <-.
  - rewrite add_unique_results_fresh. cbn [fst snd].
    now rewrite <- app_assoc.
  - cbn [fst snd fresh List.map]. rewrite app_nil_r.
    split; [reflexivity|]. unfold ids_of at 3. cbn. set_solver.
Qed.

Lemma fresh_complete seen rows row :
  In row rows -> Row.id row ∉ seen ->
  In (Row.id row) (List.map Row.id (fresh seen rows)).
Proof.
  revert seen. induction rows as [|r0 rest IH]; intros seen Hin Hs;
    [destruct Hin|]. cbn [fresh].
  destruct (bool_decide (Row.id r0 ∈ seen)) eqn:E0.
  - apply bool_decide_eq_true in E0. destruct Hin as [->|Hin];
      [contradiction | now apply IH].
  - cbn [List.map In].
    destruct (decide (Row.id r0 = Row.id row)) as [E|Hne]; [now left|].
    right. destruct Hin as [->|Hin]; [congruence|].
    apply IH; [exact Hin | set_solver].
Qed.

Lemma fresh_id seen rows i :
  In i (List.map Row.id (fresh seen rows)) ->
  (i ∉ seen) /\ (i ∈ ids_of rows).
Proof.
  intros Hin. apply in_map_iff in Hin. destruct Hin as (row & <- & Hr).
  apply fresh_In in Hr. destruct Hr as (Hs & l1 & l2 & -> & _).
  split; [exact Hs|]. apply ids_of_In. exists row. split; [|reflexivity].
  apply in_or_app. right. now left.
Qed.

(** X4: among the hits no id occurs twice, every row found by a strategy
    has its id among them, and a hit carries the tag of the first
    strategy, in the order exact, prefix, full-text, that found its id:
    a row found again by a later strategy is dropped, not re-tagged. *)
Theorem gather_first_strategy_tags :
  forall (db : store) (query : str) (st : hits),
    gather db query = Ok st ->
    exists rows_e rows_s,
      exact_query db query = Ok rows_e /\ start_query db query = Ok rows_s
      /\ let rows_f := fts_rows_or_none db query in
         List.NoDup (List.map id (fst st))
         /\ (forall row, In row (rows_e ++ rows_s ++ rows_f) ->
                         In (Row.id row) (List.map id (fst st)))
         /\ forall h, In h (fst st) ->
              exists row mt,
                h = tag mt row
                /\ (mt = exact /\ In row rows_e
                    \/ mt = starts_with /\ In row rows_s
                       /\ (Row.id row ∉ ids_of rows_e)
                    \/ mt = fts /\ In row rows_f
                       /\ (Row.id row ∉ ids_of rows_e)
                       /\ (Row.id row ∉ ids_of rows_s)).
Proof.
  intros db query st H.
  destruct (gather_fresh db query st H) as (re & rs & He & Hs & Hall & Hseen).
  exists re, rs. split; [exact He|]. split; [exact Hs|]. cbv zeta in *.
  set (rf := fts_rows_or_none db query) in *.
  assert (Hids : List.map id (fst st)
                 = List.map Row.id (fresh ∅ re)
                   ++ List.map Row.id (fresh (ids_of re) rs)
                   ++ List.map Row.id (fresh (ids_of re ∪ ids_of rs) rf)).
  { rewrite Hall, !List.map_app, !List.map_map. reflexivity. }
  split; [|split].
  - rewrite Hids. apply List.NoDup_app; [apply fresh_ids_NoDup| |].
    + apply List.NoDup_app; [apply fresh_ids_NoDup..|].
      intros i H1 H2. apply fresh_id in H1, H2. set_solver.
    + intros i H1 H2. apply fresh_id in H1. apply in_app_or in H2.
      destruct H2 as [H2|H2]; apply fresh_id in H2; set_solver.
  - intros row Hrow. rewrite Hids, !in_app_iff.
    destruct (decide (Row.id row ∈ ids_of re)) as [Hre|Hre].
    { left. apply ids_of_In in Hre. destruct Hre as (row' & Hin & <-).
      apply fresh_complete; [exact Hin | set_solver]. }
    destruct (decide (Row.id row ∈ ids_of rs)) as [Hrs|Hrs].
    { right; left. apply ids_of_In in Hrs. destruct Hrs as (row' & Hin & E).
      rewrite <- E in *. now apply fresh_complete. }
    right; right. rewrite !in_app_iff in Hrow.
    destruct Hrow as [Hr|[Hr|Hr]].
    + exfalso. apply Hre, ids_of_In. now exists row.
    + exfalso. apply Hrs, ids_of_In. now exists row.
    + apply fresh_complete; [exact Hr | set_solver].
  - intros h Hh. rewrite Hall, !in_app_iff, !in_map_iff in Hh.
    destruct Hh as [(row & <- & Hr)|[(row & <- & Hr)|(row & <- & Hr)]];
      apply fresh_In in Hr; destruct Hr as (Hseen' & l1 & l2 & E & _);
      exists row; eexists; (split; [reflexivity|]).
    + left. split; [reflexivity|]. rewrite E. apply in_or_app. right.
      now left.
    + right; left. split; [reflexivity|]. split; [|exact Hseen'].
      rewrite E. apply in_or_app. right. now left.
    + right; right. split; [reflexivity|]. split; [|set_solver].
      rewrite E. apply in_or_app. right. now left.
Qed.

Lemma gather_first_strategy_tags_witness :
  exists st,
    gather demo_store (u8 "熊") = Ok st
    /\ List.NoDup (List.map id (fst st))
    /\ List.map _match_type (fst st) = [Some starts_with].
Proof.
  destruct (gather demo_store (u8 "熊")) as [st|] eqn:E; [|discriminate E].
  exists st. split; [reflexivity|].
  destruct (gather_first_strategy_tags demo_store (u8 "熊") st E)
    as (re & rs & _ & _ & H & _).
  split; [exact H|]. vm_compute in E. injection E as <-. reflexivity.
Defined.

(** *** The match type of a merged result *)

Definition prio (h : result) : Z := priority_map (match_type_of h).

Lemma merge_into_keeps_match_type e h :
  prio e <= prio h ->
  _match_type (merge_into e h) = _match_type e
  /\ fts_rank (merge_into e h) = fts_rank e.
Proof.
  intros Hp. destruct (merge_fields_kept e h) as (_ & Hm & Hr & _).
  unfold merge_into. rewrite Hm. fold (match_type_of h) (match_type_of e).
  fold (prio h) (prio e).
  replace (prio h <? prio e) with false by (symmetry; apply Z.ltb_ge; lia).
  split; assumption.
Qed.

Lemma fold_merge_keeps_match_type later e :
  Forall (fun h => prio e <= prio h) later ->
  _match_type (fold_left merge_into later e) = _match_type e
  /\ fts_rank (fold_left merge_into later e) = fts_rank e.
Proof.
  revert e. induction later as [|h later IH]; intros e Hall;
    [split; reflexivity|].
  inversion Hall as [|? ? Hh Hlater]; subst. cbn [fold_left].
  destruct (merge_into_keeps_match_type e h Hh) as [Hm Hr].
  assert (Hp : prio (merge_into e h) = prio e).
  { unfold prio, match_type_of. now rewrite Hm. }
  destruct (IH (merge_into e h)) as [Hm' Hr'].
  - rewrite Hp. exact Hlater.
  - split; congruence.
Qed.

Lemma finalize_keeps e :
  _match_type (finalize e) = _match_type e
  /\ fts_rank (finalize e) = fts_rank e
  /\ has_examples (finalize e) = has_examples e
  /\ has_stroke (finalize e) = has_stroke e
  /\ hsk_level (finalize e) = hsk_level e
  /\ traditional (finalize e)
     = join (u8 " / ") (sort ltb (elements (traditional_variants e))).
Proof. destruct e. repeat split; reflexivity. Qed.

Lemma seed_keeps h :
  has_examples (seed h) = has_examples h
  /\ has_stroke (seed h) = has_stroke h
  /\ hsk_level (seed h) = hsk_level h
  /\ traditional_variants (seed h) = {[traditional h]}.
Proof. destruct h. repeat split; reflexivity. Qed.

Lemma group_sorted R k all :
  StronglySorted R all -> StronglySorted R (group k all).
Proof.
  unfold group. induction 1 as [|h all Hs IH Hh]; cbn [List.filter];
    [constructor|].
  destruct (bool_decide (key_of h = k)); [|exact IH].
  constructor; [exact IH|].
  rewrite List.Forall_forall in *. intros x Hx. apply filter_In in Hx.
  now apply Hh.
Qed.

Lemma StronglySorted_app_intro {A} (R : A -> A -> Prop) l1 l2 :
  StronglySorted R l1 -> StronglySorted R l2 ->
  (forall a b, In a l1 -> In b l2 -> R a b) ->
  StronglySorted R (l1 ++ l2).
Proof.
  induction 1 as [|x l1 Hs IH Hx]; intros H2 Hc; [exact H2|].
  cbn [app]. constructor.
  - apply IH; [exact H2|]. intros a b Ha Hb. apply Hc; [now right|exact Hb].
  - apply Forall_app. split; [exact Hx|].
    apply List.Forall_forall. intros b Hb. apply Hc; [now left|exact Hb].
Qed.

Lemma tagged_sorted mt rows :
  StronglySorted (fun a b => prio a <= prio b) (List.map (tag mt) rows).
Proof.
  induction rows as [|row rows IH]; cbn [List.map]; constructor; [exact IH|].
  apply List.Forall_forall. intros b Hb. apply in_map_iff in Hb.
  destruct Hb as (r & <- & _). unfold prio, match_type_of.
  destruct (tag_fields mt row) as (_ & -> & _).
  destruct (tag_fields mt r) as (_ & -> & _). reflexivity.
Qed.

Lemma tagged_prio mt rows h :
  In h (List.map (tag mt) rows) -> prio h = priority_map mt.
Proof.
  intros Hh. apply in_map_iff in Hh. destruct Hh as (r & <- & _).
  reflexivity.
Qed.

Lemma gather_sorted db query st :
  gather db query = Ok st ->
  StronglySorted (fun a b => prio a <= prio b) (fst st).
Proof.
  intros H. destruct (gather_fresh db query st H) as (re & rs & _ & _ & -> & _).
  apply StronglySorted_app_intro; [apply tagged_sorted| |].
  - apply StronglySorted_app_intro; [apply tagged_sorted..|].
    intros a b Ha Hb. apply tagged_prio in Ha, Hb. rewrite Ha, Hb. cbn. lia.
  - intros a b Ha Hb. apply tagged_prio in Ha. apply in_app_or in Hb.
    destruct Hb as [Hb|Hb]; apply tagged_prio in Hb; rewrite Ha, Hb; cbn; lia.
Qed.

(** X5: in [search] the hits arrive in the order exact, prefix,
    full-text, so a later hit of a key never has a strictly better match
    type than the entry: a merged result always keeps the match type
    and the rank entry of the first hit of its key. *)
Theorem search_keeps_first_match_type :
  forall (db : store) (query : str) (st : hits) (r : result),
    gather db query = Ok st ->
    In r (rank query (fst st)) ->
    exists first later,
      group (key_of r) (fst st) = first :: later
      /\ Forall (fun h => prio first <= prio h) later
      /\ _match_type r = _match_type first
      /\ fts_rank r = fts_rank first.
Proof.
  intros db query st r Hg Hr.
  destruct (merged_entry_of query (fst st) r Hr) as (first & later & Eg & ->).
  exists first, later.
  destruct (finalize_fields (fold_left merge_into later (seed first)))
    as (Hk & _).
  split; [exact Eg|].
  assert (Hall : Forall (fun h => prio first <= prio h) later).
  { pose proof (group_sorted _ (key_of (finalize
        (fold_left merge_into later (seed first)))) _ (gather_sorted _ _ _ Hg))
      as Hs.
    rewrite Eg in Hs. apply StronglySorted_inv in Hs. apply Hs. }
  split; [exact Hall|].
  destruct (finalize_keeps (fold_left merge_into later (seed first)))
    as (-> & -> & _).
  destruct (seed_fields first) as (_ & _ & Hsm & Hsr).
  destruct (fold_merge_keeps_match_type later (seed first)) as [Hm Hrk].
  { unfold prio at 1, match_type_of. rewrite Hsm. exact Hall. }
  rewrite Hm, Hrk, Hsm, Hsr. split; reflexivity.
Qed.

Lemma search_keeps_first_match_type_witness :
  exists st r,
    gather demo_store (u8 "熊") = Ok st
    /\ In r (rank (u8 "熊") (fst st))
    /\ _match_type r = Some starts_with.
Proof.
  destruct (gather demo_store (u8 "熊")) as [st|] eqn:E; [|discriminate E].
  destruct (rank (u8 "熊") (fst st)) as [|r rest] eqn:Er.
  { vm_compute in E. injection E as <-. discriminate Er. }
  assert (Hr : In r (rank (u8 "熊") (fst st))) by (rewrite Er; now left).
  exists st, r. split; [reflexivity|]. rewrite Er. split; [now left|].
  destruct (search_keeps_first_match_type demo_store (u8 "熊") st r E Hr)
    as (first & later & Eg & _ & Hm & _).
  rewrite Hm. vm_compute in E. injection E as <-.
  vm_compute in Er. injection Er as <- _.
  vm_compute in Eg. injection Eg as <- _. reflexivity.
Defined.


(** *** The merged flags and the merged HSK level *)

Lemma merge_into_flags e h :
  has_examples (merge_into e h) = py_or (has_examples e) (has_examples h)
  /\ has_stroke (merge_into e h) = py_or (has_stroke e) (has_stroke h)
  /\ hsk_level (merge_into e h)
     = (if hsk_level e =? 0 then hsk_level h
        else if negb (hsk_level h =? 0)
             then Z.min (hsk_level e) (hsk_level h)
             else hsk_level e)
  /\ traditional_variants (merge_into e h)
     = traditional_variants e ∪ {[traditional h]}.
Proof.
  assert (Hf : has_examples (merge_fields e h)
               = py_or (has_examples e) (has_examples h)
               /\ has_stroke (merge_fields e h)
                  = py_or (has_stroke e) (has_stroke h)
               /\ hsk_level (merge_fields e h)
                  = (if hsk_level e =? 0 then hsk_level h
                     else if negb (hsk_level h =? 0)
                          then Z.min (hsk_level e) (hsk_level h)
                          else hsk_level e)
               /\ traditional_variants (merge_fields e h)
                  = traditional_variants e ∪ {[traditional h]}).
  { destruct e, h. unfold merge_fields.
    cbn [hsk_level has_examples has_stroke traditional traditional_variants
         set_traditional_variants set_definition_list set_has_examples
         set_has_stroke].
    destruct (_ =? 0); [|destruct (negb _)]; repeat split; reflexivity. }
  destruct Hf as (<- & <- & <- & <-).
  unfold merge_into. destruct (merge_fields e h).
  destruct (_ <? _); [destruct (fts_rank h)|]; repeat split; reflexivity.
Qed.

Lemma fold_merge_flag (f : result -> Z) later e :
  (forall e h, f (merge_into e h) = py_or (f e) (f h)) ->
  (f (fold_left merge_into later e) = 0
   <-> f e = 0 /\ Forall (fun h => f h = 0) later).
Proof.
  intros Hf. revert e. induction later as [|h later IH]; intros e.
  - cbn. split; [intros H; split; [exact H | constructor] | tauto].
  - cbn [fold_left]. rewrite IH, Hf. unfold py_or. rewrite Forall_cons.
    destruct (Z.eqb_spec (f e) 0) as [E|E]; [rewrite E|]; tauto.
Qed.

(** The HSK level kept for the levels [l]: 0 when all are 0, the least of
    the others otherwise. *)
Definition least_level (level : Z) (l : list Z) : Prop :=
  (level = 0 <-> Forall (fun x => x = 0) l)
  /\ (level <> 0 ->
      In level l /\ forall x, In x l -> x <> 0 -> level <= x).

Lemma fold_merge_hsk later :
  forall e seen,
    least_level (hsk_level e) seen ->
    least_level (hsk_level (fold_left merge_into later e))
      (seen ++ List.map hsk_level later).
Proof.
  induction later as [|h later IH]; intros e seen He.
  - cbn. now rewrite app_nil_r.
  - cbn [fold_left List.map].
    replace (seen ++ hsk_level h :: List.map hsk_level later)
      with ((seen ++ [hsk_level h]) ++ List.map hsk_level later)
      by now rewrite <- app_assoc.
    apply IH. destruct (merge_into_flags e h) as (_ & _ & -> & _).
    destruct He as [H0 Hn]. unfold least_level.
    rewrite Forall_app, Forall_singleton.
    destruct (Z.eqb_spec (hsk_level e) 0) as [E|E].
    + assert (Hz : Forall (fun x => x = 0) seen) by now apply H0.
      split; [tauto|]. intros Hh. split; [apply in_or_app; right; now left|].
      intros x Hx Hx0. apply in_app_or in Hx. destruct Hx as [Hx|[<-|[]]];
        [|lia]. rewrite List.Forall_forall in Hz. now apply Hz in Hx.
    + destruct (Hn E) as [Hin Hmin].
      destruct (Z.eqb_spec (hsk_level h) 0) as [E'|E']; cbn [negb].
      * split; [tauto|]. intros _. split; [apply in_or_app; now left|].
        intros x Hx Hx0. apply in_app_or in Hx. destruct Hx as [Hx|[<-|[]]];
          [now apply Hmin | congruence].
      * split; [split; [lia | intros [_ ?]; congruence]|]. intros _. split.
        -- apply in_or_app.
           destruct (Z.min_spec (hsk_level e) (hsk_level h)) as [[_ ->]|[_ ->]];
             [now left | right; now left].
        -- intros x Hx Hx0. apply in_app_or in Hx.
           destruct Hx as [Hx|[<-|[]]]; [|lia].
           specialize (Hmin x Hx Hx0). lia.
Qed.

(** X6: a merged result has examples (resp. stroke data) exactly when
    one of the hits of its key has; its HSK level is 0 when all those
    hits are unranked, and otherwise the least of their non-zero
    levels. *)
Theorem merged_flags_and_level :
  forall (query : str) (all_results : list result) (r : result),
    In r (rank query all_results) ->
    let hits := group (key_of r) all_results in
    hits <> []
    /\ (has_examples r = 0 <-> Forall (fun h => has_examples h = 0) hits)
    /\ (has_stroke r = 0 <-> Forall (fun h => has_stroke h = 0) hits)
    /\ least_level (hsk_level r) (List.map hsk_level hits).
Proof.
  intros query all r Hr.
  destruct (merged_entry_of query all r Hr) as (first & later & Eg & ->).
  cbv zeta. rewrite Eg.
  destruct (finalize_keeps (fold_left merge_into later (seed first)))
    as (_ & _ & -> & -> & -> & _).
  destruct (seed_keeps first) as (He & Hs & Hh & _).
  split; [discriminate|]. rewrite !Forall_cons. split; [|split].
  - rewrite (fold_merge_flag has_examples), He; [reflexivity|].
    intros e h. apply merge_into_flags.
  - rewrite (fold_merge_flag has_stroke), Hs; [reflexivity|].
    intros e h. apply merge_into_flags.
  - apply (fold_merge_hsk later (seed first) [hsk_level first]).
    rewrite Hh. unfold least_level. rewrite Forall_singleton.
    split; [reflexivity|]. intros Hn. split; [now left|].
    intros x [<-|[]] _. lia.
Qed.

Lemma merged_flags_and_level_witness :
  exists r,
    In r (rank (u8 "猫")
            [set_hsk_level 0 (cat_hit 1 "貓" "cat");
             set_hsk_level 3 (cat_hit 2 "猫" "cat");
             set_hsk_level 2 (cat_hit 5 "猫" "kitty")])
    /\ hsk_level r = 2 /\ has_examples r <> 0.
Proof.
  pose (all := [set_hsk_level 0 (cat_hit 1 "貓" "cat");
                set_hsk_level 3 (cat_hit 2 "猫" "cat");
                set_hsk_level 2 (cat_hit 5 "猫" "kitty")]).
  destruct (rank (u8 "猫") all) as [|r rest] eqn:E; [discriminate E|].
  assert (Hr : In r (rank (u8 "猫") all)) by (rewrite E; now left).
  exists r. fold all. rewrite E. split; [now left|].
  destruct (merged_flags_and_level (u8 "猫") all r Hr) as (_ & He & _ & Hl).
  vm_compute in E. injection E as <- _. split; [reflexivity | discriminate].
Defined.

(** *** The traditional forms of a merged result *)

Lemma fold_merge_variants later e :
  traditional_variants (fold_left merge_into later e)
  = traditional_variants e ∪ list_to_set (List.map traditional later).
Proof.
  revert e. induction later as [|h later IH]; intros e; cbn [fold_left].
  - cbn. set_solver.
  - rewrite IH. destruct (merge_into_flags e h) as (_ & _ & _ & ->).
    cbn [List.map list_to_set]. set_solver.
Qed.

Lemma merged_variants first later t :
  t ∈ traditional_variants (fold_left merge_into later (seed first))
  <-> exists h, In h (first :: later) /\ traditional h = t.
Proof.
  rewrite fold_merge_variants. destruct (seed_keeps first) as (_ & _ & _ & ->).
  rewrite elem_of_union, elem_of_singleton, elem_of_list_to_set,
    list_elem_of_In, in_map_iff. cbn [In]. split.
  - intros [->|(h & <- & Hh)]; [exists first | exists h]; tauto.
  - intros (h & [<-|Hh] & <-); [now left|]. right. now exists h.
Qed.

Lemma sorted_strings_strict (s : gset str) :
  StronglySorted (fun a b : str => cmp a b = Lt) (sort ltb (elements s))
  /\ forall t, In t (sort ltb (elements s)) <-> t ∈ s.
Proof.
  pose proof (sort_perm (fun x : str => x) (elements s)) as Hp.
  pose proof (sort_ordered (fun x : str => x) (elements s)) as Hs.
  change (sort (key_lt (fun x : str => x))) with (sort (A:=str) ltb) in *.
  split.
  - apply sorted_NoDup_strict; [exact Hs|].
    eapply Permutation_NoDup; [symmetry; exact Hp|].
    apply NoDup_ListNoDup, NoDup_elements.
  - intros t. rewrite <- elem_of_elements, list_elem_of_In. split.
    + apply Permutation_in, Hp.
    + apply Permutation_in. symmetry. exact Hp.
Qed.

(** X7: the traditional field of a merged result is the ' / '-joined list
    of the traditional forms of the hits of its key, each once, in
    strictly ascending order of their code points. *)
Theorem merged_traditional_rendering :
  forall (query : str) (all_results : list result) (r : result),
    In r (rank query all_results) ->
    exists forms : list str,
      traditional r = join (u8 " / ") forms
      /\ StronglySorted (fun a b : str => cmp a b = Lt) forms
      /\ forall t, In t forms <->
           exists h, In h (group (key_of r) all_results) /\ traditional h = t.
Proof.
  intros query all r Hr.
  destruct (merged_entry_of query all r Hr) as (first & later & Eg & ->).
  destruct (finalize_keeps (fold_left merge_into later (seed first)))
    as (_ & _ & _ & _ & _ & ->).
  destruct (sorted_strings_strict
              (traditional_variants (fold_left merge_into later (seed first))))
    as [Hs Hin].
  eexists. split; [reflexivity|]. split; [exact Hs|].
  intros t. rewrite Hin, merged_variants, Eg. reflexivity.
Qed.

Lemma merged_traditional_rendering_witness :
  exists r,
    In r (rank (u8 "猫") [cat_hit 1 "貓" "cat"; cat_hit 2 "猫" "cat";
                          cat_hit 3 "貓" "kitty"])
    /\ traditional r = u8 "猫 / 貓".
Proof.
  pose (all := [cat_hit 1 "貓" "cat"; cat_hit 2 "猫" "cat";
                cat_hit 3 "貓" "kitty"]).
  destruct (rank (u8 "猫") all) as [|r rest] eqn:E; [discriminate E|].
  assert (Hr : In r (rank (u8 "猫") all)) by (rewrite E; now left).
  exists r. fold all. rewrite E. split; [now left|].
  destruct (merged_traditional_rendering (u8 "猫") all r Hr)
    as (forms & _ & _ & _).
  vm_compute in E. injection E as <- _. reflexivity.
Defined.

(** *** The order of the hits *)

Lemma group_perm k all all' :
  Permutation all all' -> Permutation (group k all) (group k all').
Proof.
  unfold group. induction 1 as [|x l l' Hp IH|x y l|l1 l2 l3 H1 IH1 H2 IH2];
    cbn [List.filter].
  - constructor.
  - destruct (bool_decide (key_of x = k)); [now constructor | exact IH].
  - destruct (bool_decide (key_of x = k)), (bool_decide (key_of y = k));
      try reflexivity. apply perm_swap.
  - now transitivity (List.filter (fun h => bool_decide (key_of h = k)) l2).
Qed.

Lemma least_level_unique a b l l' :
  Permutation l l' -> least_level a l -> least_level b l' -> a = b.
Proof.
  intros Hp [Ha0 Han] [Hb0 Hbn].
  assert (Hall : Forall (fun x => x = 0) l <-> Forall (fun x => x = 0) l').
  { rewrite !List.Forall_forall. split; intros H x Hx; apply H.
    - eapply Permutation_in; [symmetry; exact Hp | exact Hx].
    - eapply Permutation_in; [exact Hp | exact Hx]. }
  destruct (Z.eq_dec a 0) as [Ea|Ea].
  - rewrite Ea. symmetry. apply Hb0, Hall, Ha0, Ea.
  - assert (Eb : b <> 0) by (intros Eb; apply Ea, Ha0, Hall, Hb0, Eb).
    destruct (Han Ea) as [Hina Hmina]. destruct (Hbn Eb) as [Hinb Hminb].
    assert (a <= b).
    { apply Hmina; [|exact Eb].
      eapply Permutation_in; [symmetry; exact Hp | exact Hinb]. }
    assert (b <= a).
    { apply Hminb; [|exact Ea]. eapply Permutation_in; [exact Hp | exact Hina]. }
    lia.
Qed.

Lemma merged_gloss_In first later g :
  g <> [] ->
  (In g (definition_list (fold_left merge_into later (seed first)))
   <-> exists h, In h (first :: later)
                 /\ In g (split 0x2F%N (definitions h))).
Proof.
  intros Hg. rewrite fold_merge_definition_list.
  destruct (seed_fields first) as (_ & -> & _).
  rewrite add_definitions_In, in_concat. cbn [In]. split.
  - intros [H|(_ & l & Hl & Hgl)]; [exists first; tauto|].
    apply in_map_iff in Hl. destruct Hl as (h & <- & Hh). exists h. tauto.
  - intros (h & [<-|Hh] & Hgl); [now left|]. right. split; [exact Hg|].
    exists (split 0x2F%N (definitions h)). split; [|exact Hgl].
    apply in_map_iff. now exists h.
Qed.

(** X8: what a merged result holds does not depend on the order in which
    the hits were found, except for the order of its glosses: for the
    same hits in another order, the result of a key has the same
    traditional field, the same non-empty glosses, the same data flags up
    to truth value and the same HSK level.  (An empty gloss stays only
    when it is one of the first hit.) *)
Theorem merge_order_independent :
  forall (query query' : str) (all_results all_results' : list result)
         (r r' : result),
    Permutation all_results all_results' ->
    In r (rank query all_results) -> In r' (rank query' all_results') ->
    key_of r = key_of r' ->
    traditional r = traditional r'
    /\ (forall g, g <> [] ->
          (In g (definition_list r) <-> In g (definition_list r')))
    /\ (has_examples r = 0 <-> has_examples r' = 0)
    /\ (has_stroke r = 0 <-> has_stroke r' = 0)
    /\ hsk_level r = hsk_level r'.
Proof.
  intros query query' all all' r r' Hp Hr Hr' Hk.
  pose proof (group_perm (key_of r) all all' Hp) as Hg.
  destruct (merged_entry_of query all r Hr) as (first & later & Eg & Er).
  destruct (merged_entry_of query' all' r' Hr') as (first' & later' & Eg' & Er').
  rewrite <- Hk in Eg'. rewrite Eg, Eg' in Hg. clear Eg Eg' Hk Hr Hr' Hp.
  subst r r'.
  set (e := fold_left merge_into later (seed first)).
  set (e' := fold_left merge_into later' (seed first')).
  destruct (finalize_keeps e) as (_ & _ & -> & -> & -> & ->).
  destruct (finalize_keeps e') as (_ & _ & -> & -> & -> & ->).
  destruct (finalize_fields e) as (_ & -> & _).
  destruct (finalize_fields e') as (_ & -> & _).
  assert (Hin : forall h, In h (first :: later) <-> In h (first' :: later')).
  { intros h. split; apply Permutation_in; [exact Hg | now symmetry]. }
  destruct (seed_keeps first) as (He & Hs & Hh & _).
  destruct (seed_keeps first') as (He' & Hs' & Hh' & _).
  assert (Hflag : forall f : result -> Z,
            (Forall (fun h => f h = 0) (first :: later)
             <-> Forall (fun h => f h = 0) (first' :: later'))).
  { intros f. rewrite !List.Forall_forall. split; intros H h Hh0; apply H;
      now apply Hin. }
  split; [|split; [|split; [|split]]].
  - do 2 f_equal. f_equal. apply set_eq. intros t. unfold e, e'.
    rewrite !merged_variants. split; intros (h & Hh0 & Et); exists h;
      (split; [now apply Hin | exact Et]).
  - intros g Hgne. unfold e, e'. rewrite !merged_gloss_In by exact Hgne.
    split; intros (h & Hh0 & Hgl); exists h; (split; [now apply Hin|exact Hgl]).
  - unfold e, e'.
    rewrite !(fold_merge_flag has_examples)
      by (intros; apply merge_into_flags).
    rewrite He, He', <- !(Forall_cons (fun h => has_examples h = 0)).
    apply (Hflag has_examples).
  - unfold e, e'.
    rewrite !(fold_merge_flag has_stroke) by (intros; apply merge_into_flags).
    rewrite Hs, Hs', <- !(Forall_cons (fun h => has_stroke h = 0)).
    apply (Hflag has_stroke).
  - apply (least_level_unique _ _ (List.map hsk_level (first :: later))
             (List.map hsk_level (first' :: later')));
      [now apply Permutation_map| |].
    + apply (fold_merge_hsk later (seed first) [hsk_level first]).
      rewrite Hh. unfold least_level. rewrite Forall_singleton.
      split; [reflexivity|]. intros Hn. split; [now left|].
      intros x [<-|[]] _. lia.
    + apply (fold_merge_hsk later' (seed first') [hsk_level first']).
      rewrite Hh'. unfold least_level. rewrite Forall_singleton.
      split; [reflexivity|]. intros Hn. split; [now left|].
      intros x [<-|[]] _. lia.
Qed.

Lemma merge_order_independent_witness :
  exists r r',
    In r (rank (u8 "猫") [cat_hit 1 "貓" "cat/feline"; cat_hit 2 "猫" "kitty"])
    /\ In r' (rank (u8 "猫")
                [cat_hit 2 "猫" "kitty"; cat_hit 1 "貓" "cat/feline"])
    /\ traditional r = traditional r'
    /\ definition_list r = [u8 "cat"; u8 "feline"; u8 "kitty"]
    /\ definition_list r' = [u8 "kitty"; u8 "cat"; u8 "feline"].
Proof.
  pose (all := [cat_hit 1 "貓" "cat/feline"; cat_hit 2 "猫" "kitty"]).
  pose (all' := [cat_hit 2 "猫" "kitty"; cat_hit 1 "貓" "cat/feline"]).
  destruct (rank (u8 "猫") all) as [|r rest] eqn:E; [discriminate E|].
  destruct (rank (u8 "猫") all') as [|r' rest'] eqn:E'; [discriminate E'|].
  assert (Hr : In r (rank (u8 "猫") all)) by (rewrite E; now left).
  assert (Hr' : In r' (rank (u8 "猫") all')) by (rewrite E'; now left).
  exists r, r'. fold all all'. rewrite E, E'.
  split; [now left|]. split; [now left|].
  destruct (merge_order_independent (u8 "猫") (u8 "猫") all all' r r')
    as (Ht & _); [apply perm_swap | exact Hr | exact Hr' | |].
  - vm_compute in E, E'. injection E as <- _. injection E' as <- _.
    reflexivity.
  - split; [exact Ht|].
    vm_compute in E, E'. injection E as <- _. injection E' as <- _.
    split; reflexivity.
Defined.

(** *** What enrichment adds *)

(** The result of the loop body for a hit and the examples found. *)
Definition enriched (db : store) (xs : list sentence) (hit : result)
    : result :=
  set_match_type None
    (set_character_breakdown (breakdown_of db (simplified hit))
       (set_examples xs hit)).

Lemma enrich_result_exact db n cache hit :
  store_answers db -> cache_sound db cache ->
  exists cache' xs,
    example_rows db n (simplified hit) 3 = Ok xs
    /\ enrich_result db n cache hit = Ok (cache', enriched db xs hit)
    /\ cache_sound db cache'.
Proof.
  intros [Hex Hch] Hs. unfold enrich_result, enriched, breakdown_of.
  destruct (Hex n (simplified hit) 3) as [xs Exs]. rewrite Exs. cbn [bind].
  destruct (2 <=? Z.of_nat (length (simplified hit))).
  - destruct (breakdown_loop_spec db (simplified hit) cache [] Hs)
      as (cache' & -> & Hs'); [intros ch _; apply Hch|].
    cbn [bind fst snd app]. exists cache', xs.
    split; [reflexivity|]. split; [|exact Hs'].
    destruct hit; reflexivity.
  - cbn [bind fst snd]. exists cache, xs.
    split; [reflexivity|]. split; [|exact Hs]. destruct hit; reflexivity.
Qed.

Lemma enrich_loop_exact db l :
  store_answers db ->
  forall n cache, cache_sound db cache ->
    exists results,
      enrich_loop db n cache l = Ok results
      /\ length results = length l
      /\ forall i hit, nth_error l i = Some hit ->
           exists xs,
             example_rows db (n + i) (simplified hit) 3 = Ok xs
             /\ nth_error results i = Some (enriched db xs hit).
Proof.
  intros Hdb. induction l as [|hit rest IH]; intros n cache Hs.
  - exists []. split; [reflexivity|]. split; [reflexivity|].
    intros [|i] h Hh; discriminate Hh.
  - cbn [enrich_loop].
    destruct (enrich_result_exact db n cache hit Hdb Hs)
      as (cache' & xs & Exs & -> & Hs').
    cbn [bind fst snd].
    destruct (IH (S n) cache' Hs') as (results & -> & Hlen & Hnth).
    cbn [bind]. eexists. split; [reflexivity|].
    split; [cbn; now rewrite Hlen|].
    intros [|i] h Hh; cbn in Hh.
    + injection Hh as <-. exists xs. rewrite Nat.add_0_r.
      split; [exact Exs | reflexivity].
    + destruct (Hnth i h Hh) as (xs' & Exs' & Hr). exists xs'.
      replace (n + S i)%nat with (S n + i)%nat by lia.
      split; [exact Exs' | exact Hr].
Qed.

Lemma short_definitions_split row :
  split 0x2F%N (CharInfo.short_definitions (char_info_of row))
  = firstn 3 (split 0x2F%N (Row.definitions row)).
Proof.
  cbn [char_info_of CharInfo.short_definitions].
  apply ConvertFacts.split_join.
  - pose proof (split_not_nil 0x2F%N (Row.definitions row)) as Hne.
    destruct (split 0x2F%N (Row.definitions row)); [congruence|discriminate].
  - apply Forall_take, split_pieces_no_sep.
Qed.

(** X9: when the store answers, enrichment returns the results of the
    page in their order, each with its stored fields, the examples the
    store gave for its simplified form (limit 3), no match type, and its
    breakdown: empty for a word of fewer than two characters, otherwise
    one item per character in order, and for a character that has a
    one-character entry the columns of that entry with its first three
    glosses (or fewer) as short definitions. *)
Theorem enrichment_adds :
  forall (db : store) (paginated_results : list result),
    store_answers db ->
    exists results,
      enrich_loop db 0 ∅ paginated_results = Ok results
      /\ length results = length paginated_results
      /\ forall i hit, nth_error paginated_results i = Some hit ->
           exists xs hit',
             example_rows db i (simplified hit) 3 = Ok xs
             /\ nth_error results i = Some hit'
             /\ hit' = enriched db xs hit
             /\ _match_type hit' = None /\ examples hit' = xs
             /\ ((length (simplified hit) < 2)%nat ->
                 character_breakdown hit' = [])
             /\ ((2 <= length (simplified hit))%nat ->
                 length (character_breakdown hit') = length (simplified hit)
                 /\ forall j ch row,
                      nth_error (simplified hit) j = Some ch ->
                      char_row db ch = Ok (Some row) ->
                      exists item,
                        nth_error (character_breakdown hit') j = Some item
                        /\ CharInfo.source item = Some row
                        /\ CharInfo.definitions item = Row.definitions row
                        /\ split 0x2F%N (CharInfo.short_definitions item)
                           = firstn 3 (split 0x2F%N (Row.definitions row))).
Proof.
  intros db l Hdb.
  destruct (enrich_loop_exact db l Hdb 0%nat ∅ (cache_sound_empty db))
    as (results & E & Hlen & Hnth).
  exists results. split; [exact E|]. split; [exact Hlen|].
  intros i hit Hi. destruct (Hnth i hit Hi) as (xs & Exs & Hr).
  exists xs, (enriched db xs hit). cbn [Nat.add] in Exs.
  split; [exact Exs|]. split; [exact Hr|]. split; [reflexivity|].
  assert (Hb : character_breakdown (enriched db xs hit)
               = breakdown_of db (simplified hit))
    by (destruct hit; reflexivity).
  split; [destruct hit; reflexivity|]. split; [destruct hit; reflexivity|].
  rewrite Hb. unfold breakdown_of. split.
  - intros Hlt.
    replace (2 <=? Z.of_nat (length (simplified hit))) with false
      by (symmetry; apply Z.leb_gt; lia). reflexivity.
  - intros Hge.
    replace (2 <=? Z.of_nat (length (simplified hit))) with true
      by (symmetry; apply Z.leb_le; lia).
    split; [apply length_map|].
    intros j ch row Hj Hrow. exists (char_info_of row).
    split; [|split; [reflexivity|split; [reflexivity|]]].
    + rewrite nth_error_map, Hj. cbn [option_map]. unfold item_of.
      now rewrite Hrow.
    + apply short_definitions_split.
Qed.

Lemma enrichment_adds_witness :
  exists results,
    enrich_loop demo_store 0 ∅
      [tag starts_with (row_of 3 "熊貓" "熊猫" "xióng māo" "panda" None)]
    = Ok results
    /\ List.map _match_type results = [None]
    /\ List.map (fun r => List.map CharInfo.short_definitions
                            (character_breakdown r)) results
       = [[u8 "N/A"; u8 "cat/feline/kitty"]].
Proof.
  destruct (enrichment_adds demo_store
              [tag starts_with (row_of 3 "熊貓" "熊猫" "xióng māo" "panda" None)]
              demo_store_answers) as (results & E & _).
  exists results. split; [exact E|].
  vm_compute in E. injection E as <-. split; reflexivity.
Defined.

(** *** The blank query and the unguarded statements *)

Lemma lstrip_nil s :
  lstrip s = [] <-> Forall (fun c => isspace c = true) s.
Proof.
  induction s as [|c s IH]; [now split|]. cbn [lstrip].
  destruct (isspace c) eqn:E.
  - rewrite IH. split; [now constructor|]. intros H. now inversion H.
  - split; [discriminate|]. intros H. inversion H. congruence.
Qed.

Lemma lstrip_first s : isspace (hd 0%N (lstrip s)) = false.
Proof.
  induction s as [|c s IH]; [reflexivity|]. cbn [lstrip].
  destruct (isspace c) eqn:E; [exact IH | exact E].
Qed.

Lemma strip_nil s :
  strip s = [] <-> Forall (fun c => isspace c = true) s.
Proof.
  rewrite <- lstrip_nil. unfold strip. split.
  - intros H. apply (f_equal (@rev _)) in H.
    rewrite rev_involutive in H. cbn in H. apply lstrip_nil in H.
    pose proof (lstrip_first s) as Hf.
    destruct (lstrip s) as [|c t]; [reflexivity|].
    cbn [hd] in Hf. rewrite List.Forall_forall in H.
    specialize (H c). rewrite H in Hf; [discriminate|].
    apply in_rev. rewrite rev_involutive. now left.
  - now intros ->.
Qed.

(** X20: a query that is empty or made of white space only gives the
    index page, whatever the store does: no statement is run.  Any other
    query never gives the index page, and of the statements only the
    full-text one is guarded: an error of the exact statement, of the
    prefix statement, or of a statement run for the examples and the
    breakdown is the outcome of the request. *)
Theorem search_blank_query_and_errors :
  forall (db : store) (q : str) (page : Z),
    (Forall (fun c => isspace c = true) q -> search db q page = Ok IndexPage)
    /\ (~ Forall (fun c => isspace c = true) q ->
        search db q page <> Ok IndexPage
        /\ (forall e, exact_query db (strip q) = Raise e ->
                      search db q page = Raise e)
        /\ (forall rows e,
              exact_query db (strip q) = Ok rows ->
              start_query db (strip q) = Raise e ->
              search db q page = Raise e)
        /\ (forall st e,
              gather db (strip q) = Ok st ->
              enrich_loop db 0 ∅
                (paginate (rank (strip q) (fst st)) page) = Raise e ->
              search db q page = Raise e)).
Proof.
  intros db q page. split.
  - intros H. apply strip_nil in H. unfold search. now rewrite H.
  - intros H. rewrite <- strip_nil in H. unfold search.
    destruct (strip q) as [|c query]; [congruence|].
    set (query' := c :: query). split; [|split; [|split]].
    + destruct (gather db query'); cbn [bind]; [|discriminate].
      destruct (enrich_loop db 0 ∅ _); cbn [bind]; discriminate.
    + intros e He. unfold gather. now rewrite He.
    + intros rows e He Hs. unfold gather. rewrite He. cbn [bind].
      now rewrite Hs.
    + intros st e Hg He. rewrite Hg. cbn [bind]. now rewrite He.
Qed.

(** A store whose exact statement fails. *)
Definition broken_store : store :=
  {| exact_rows := fun _ _ _ => Raise (DatabaseError (u8 "database is locked"));
     start_rows := fun _ _ _ => Ok [];
     fts_rows := fun _ => Ok [];
     example_rows := fun _ _ _ => Ok [];
     char_row := fun _ => Ok None |}.

Lemma search_blank_query_and_errors_witness :
  search broken_store (u8 "  ") 1 = Ok IndexPage
  /\ search broken_store (u8 " mao1 ") 1
     = Raise (DatabaseError (u8 "database is locked")).
Proof.
  split.
  - apply (proj1 (search_blank_query_and_errors broken_store (u8 "  ") 1)).
    repeat constructor.
  - apply (proj2 (search_blank_query_and_errors broken_store (u8 " mao1 ") 1)).
    + intros H. inversion H as [|? ? _ H']. inversion H' as [|? ? E _].
      discriminate E.
    + reflexivity.
Defined.

End AppMore.

(* ===================================================================== *)
(** ** Properties of the tables                                           *)
(* ===================================================================== *)

Module IngestFacts.
Import PyStr Convert Ingest.

(** *** The HSK levels *)

(** The row lists the word among its variants. *)
Definition lists (w : str) (row : hsk_row) : Prop :=
  In w (split 0x7C%N (Simplified row)).

(** [m] holds, for every word, the least level of the rows [done] that
    list it, and nothing for a word that no row lists. *)
Definition least_levels (m : gmap str Z) (done : list hsk_row) : Prop :=
  forall w,
    match m !! w with
    | None => forall row, In row done -> ~ lists w row
    | Some l =>
      (exists row, In row done /\ lists w row /\ level_of row = Some l)
      /\ forall row l', In row done -> lists w row ->
                        level_of row = Some l' -> l <= l'
    end.

Lemma add_words_lookup level words :
  forall (m : gmap str Z) w,
    add_words level words m !! w
    = if bool_decide (w ∈ words)
      then Some (match m !! w with
                 | Some old => Z.min old level
                 | None => level
                 end)
      else m !! w.
Proof.
  unfold add_words. induction words as [|w0 words IH]; intros m w.
  - cbn. rewrite bool_decide_eq_false_2 by apply not_elem_of_nil. reflexivity.
  - cbn [fold_left]. rewrite IH.
    set (m1 := match m !! w0 with
               | Some old => if level <? old then <[w0:=level]> m else m
               | None => <[w0:=level]> m
               end).
    assert (H0 : m1 !! w0 = Some (match m !! w0 with
                                  | Some old => Z.min old level
                                  | None => level
                                  end)).
    { subst m1. destruct (m !! w0) as [old|] eqn:E.
      - destruct (Z.ltb_spec level old).
        + rewrite lookup_insert_eq. f_equal. lia.
        + rewrite E. f_equal. lia.
      - apply lookup_insert_eq. }
    assert (Hne : forall w', w' <> w0 -> m1 !! w' = m !! w').
    { intros w' Hw. subst m1. destruct (m !! w0) as [old|];
        [destruct (level <? old)|]; try reflexivity;
        now rewrite lookup_insert_ne. }
    destruct (decide (w = w0)) as [->|Hw].
    + rewrite (bool_decide_eq_true_2 (w0 ∈ w0 :: words))
        by (rewrite elem_of_cons; now left).
      rewrite H0. destruct (bool_decide (w0 ∈ words)); [|reflexivity].
      f_equal. destruct (m !! w0); lia.
    + rewrite (Hne w Hw).
      destruct (bool_decide (w ∈ words)) eqn:E.
      * apply bool_decide_eq_true in E.
        now rewrite (bool_decide_eq_true_2 (w ∈ w0 :: words))
          by (rewrite elem_of_cons; now right).
      * apply bool_decide_eq_false in E.
        now rewrite (bool_decide_eq_false_2 (w ∈ w0 :: words))
          by (rewrite elem_of_cons; intros [?|?]; congruence).
Qed.

Lemma least_levels_step m done row level :
  level_of row = Some level -> least_levels m done ->
  least_levels (add_words level (split 0x7C%N (Simplified row)) m)
    (done ++ [row]).
Proof.
  intros Hl Hm w. specialize (Hm w). rewrite add_words_lookup.
  destruct (bool_decide (w ∈ split 0x7C%N (Simplified row))) eqn:E.
  - apply bool_decide_eq_true, list_elem_of_In in E.
    destruct (m !! w) as [old|].
    + destruct Hm as [(r0 & Hr0 & Hw0 & Hl0) Hmin]. split.
      * destruct (Z.min_spec old level) as [[_ ->]|[_ ->]].
        -- exists r0. split; [apply in_or_app; now left | tauto].
        -- exists row. split; [apply in_or_app; right; now left | tauto].
      * intros r l' Hr Hw' Hl'. apply in_app_or in Hr.
        destruct Hr as [Hr|[<-|[]]].
        -- specialize (Hmin r l' Hr Hw' Hl'). lia.
        -- rewrite Hl in Hl'. injection Hl' as <-. lia.
    + split.
      * exists row. split; [apply in_or_app; right; now left | tauto].
      * intros r l' Hr Hw' Hl'. apply in_app_or in Hr.
        destruct Hr as [Hr|[<-|[]]]; [now apply Hm in Hr|].
        rewrite Hl in Hl'. injection Hl' as <-. lia.
  - apply bool_decide_eq_false in E. rewrite list_elem_of_In in E.
    destruct (m !! w) as [old|].
    + destruct Hm as [(r0 & Hr0 & Hw0 & Hl0) Hmin]. split.
      * exists r0. split; [apply in_or_app; now left | tauto].
      * intros r l' Hr Hw' Hl'. apply in_app_or in Hr.
        destruct Hr as [Hr|[<-|[]]]; [now apply (Hmin r)|contradiction].
    + intros r Hr. apply in_app_or in Hr.
      destruct Hr as [Hr|[<-|[]]]; [now apply Hm | exact E].
Qed.

Lemma read_hsk_least rows :
  forall m done,
    Forall (fun row => level_of row <> None) rows ->
    least_levels m done -> least_levels (read_hsk rows m) (done ++ rows).
Proof.
  induction rows as [|row rows IH]; intros m done Hall Hm.
  - now rewrite app_nil_r.
  - inversion Hall as [|? ? Hrow Hrows]; subst. cbn [read_hsk].
    destruct (level_of row) as [level|] eqn:El; [|congruence].
    replace (done ++ row :: rows) with ((done ++ [row]) ++ rows)
      by now rewrite <- app_assoc.
    apply IH; [exact Hrows|]. now apply least_levels_step.
Qed.

Lemma read_hsk_stops rows1 bad rows2 m :
  Forall (fun row => level_of row <> None) rows1 ->
  level_of bad = None ->
  read_hsk (rows1 ++ bad :: rows2) m = read_hsk rows1 m.
Proof.
  revert m. induction rows1 as [|row rows1 IH]; intros m Hall Hbad.
  - cbn. now rewrite Hbad.
  - inversion Hall as [|? ? Hrow Hrows]; subst. cbn [app read_hsk].
    destruct (level_of row); [|congruence]. now apply IH.
Qed.

(** X16: when every level of the list is a number, the HSK map gives a
    word the least level of the rows that list it among their variants,
    and gives nothing for a word that no row lists.  A row whose level is
    no number ends the reading: the map is the one of the rows before
    it, and the rows after it are not read. *)
Theorem read_hsk_levels :
  forall (rows : list hsk_row),
    (Forall (fun row => level_of row <> None) rows ->
     least_levels (read_hsk rows ∅) rows)
    /\ (forall rows1 bad rows2,
          rows = rows1 ++ bad :: rows2 ->
          Forall (fun row => level_of row <> None) rows1 ->
          level_of bad = None ->
          read_hsk rows ∅ = read_hsk rows1 ∅
          /\ least_levels (read_hsk rows ∅) rows1).
Proof.
  intros rows. split.
  - intros Hall. apply (read_hsk_least rows ∅ [] Hall).
    intros w. rewrite lookup_empty. intros row [].
  - intros rows1 bad rows2 -> Hall Hbad.
    rewrite (read_hsk_stops rows1 bad rows2 ∅ Hall Hbad).
    split; [reflexivity|].
    apply (read_hsk_least rows1 ∅ [] Hall).
    intros w. rewrite lookup_empty. intros row [].
Qed.

Definition hsk_sample : list hsk_row :=
  [ {| Level := u8 "3"; Simplified := u8 "猫|猫儿" |};
    {| Level := u8 "１"; Simplified := u8 "猫" |};
    {| Level := u8 "7-9"; Simplified := u8 "熊猫" |} ].

Definition hsk_bad_row : hsk_row :=
  {| Level := u8 "x"; Simplified := u8 "狗" |}.

Definition hsk_after : list hsk_row :=
  [ {| Level := u8 "1"; Simplified := u8 "人" |} ].

Lemma hsk_sample_levels :
  Forall (fun row => level_of row <> None) hsk_sample.
Proof. repeat constructor; vm_compute; discriminate. Qed.

Lemma read_hsk_levels_witness :
  least_levels (read_hsk hsk_sample ∅) hsk_sample
  /\ read_hsk hsk_sample ∅ !! u8 "猫" = Some 1
  /\ read_hsk hsk_sample ∅ !! u8 "熊猫" = Some 7
  /\ read_hsk (hsk_sample ++ hsk_bad_row :: hsk_after) ∅
     = read_hsk hsk_sample ∅.
Proof.
  split; [|split; [vm_compute; reflexivity|split; [vm_compute; reflexivity|]]].
  - exact (proj1 (read_hsk_levels hsk_sample) hsk_sample_levels).
  - assert (Hbad : level_of hsk_bad_row = None) by (vm_compute; reflexivity).
    exact (proj1 (proj2 (read_hsk_levels
                           (hsk_sample ++ hsk_bad_row :: hsk_after))
                    hsk_sample hsk_bad_row hsk_after eq_refl
                    hsk_sample_levels Hbad)).
Defined.

(** *** The entries *)

(** The entry made of a line, [None] for a comment or a line that does
    not parse. *)
Definition entry_of_line (hsk_map : gmap str Z) (line : str)
    : option stored :=
  if startswith 0x23%N line || startswith 0x25%N line then None
  else
    match parse_line (strip line) with
    | None => None
    | Some parts =>
      Some {| fields := parts; has_examples := 0;
              has_stroke :=
                if existsb (in_range 0x4E00 0x9FFF) (Convert.simplified parts)
                then 1 else 0;
              hsk_level := default 0 (hsk_map !! Convert.simplified parts) |}
    end.

Definition word (e : stored) : str := Convert.simplified (fields e).

(** [j] is the last index of [es] whose entry has the simplified form
    [w]. *)
Definition last_index (es : list stored) (w : str) (j : nat) : Prop :=
  (exists e, es !! j = Some e /\ word e = w)
  /\ forall j' e', (j < j')%nat -> es !! j' = Some e' -> word e' <> w.

Definition loader_inv (hsk_map : gmap str Z) (lines : list str)
    (st : loaded) : Prop :=
  count st = length (entries st)
  /\ entries st = omap (entry_of_line hsk_map) lines
  /\ forall w j, word_to_id st !! w = Some j <-> last_index (entries st) w j.

Lemma load_lines_snoc hsk_map lines line :
  load_lines hsk_map (lines ++ [line])
  = load_line hsk_map (load_lines hsk_map lines) line.
Proof. unfold load_lines. now rewrite fold_left_app. Qed.

Lemma omap_snoc {A B} (f : A -> option B) l x :
  omap f (l ++ [x])
  = omap f l ++ match f x with Some y => [y] | None => [] end.
Proof.
  induction l as [|a l IH]; cbn [app omap list_omap].
  - destruct (f x); reflexivity.
  - destruct (f a); cbn [app]; now rewrite IH.
Qed.

Lemma last_index_snoc es e w j :
  last_index (es ++ [e]) w j
  <-> (j = length es /\ word e = w)
      \/ (word e <> w /\ last_index es w j).
Proof.
  unfold last_index. split.
  - intros [(e0 & Hj & Hw) Hlast].
    destruct (decide (word e = w)) as [Ew|Ew].
    + left. split; [|exact Ew].
      destruct (Nat.lt_trichotomy j (length es)) as [Hlt|[->|Hgt]];
        [|reflexivity|].
      * exfalso. apply (Hlast (length es) e Hlt); [|exact Ew].
        rewrite lookup_app_r, Nat.sub_diag by lia. reflexivity.
      * apply lookup_lt_Some in Hj. rewrite length_app in Hj. cbn in Hj. lia.
    + right. split; [exact Ew|].
      assert (Hlt : (j < length es)%nat).
      { pose proof (lookup_lt_Some _ _ _ Hj) as Hb.
        rewrite length_app in Hb. cbn in Hb.
        destruct (decide (j = length es)) as [->|]; [|lia].
        rewrite lookup_app_r, Nat.sub_diag in Hj by lia.
        injection Hj as ->. contradiction. }
      split.
      * exists e0. rewrite lookup_app_l in Hj by exact Hlt. tauto.
      * intros j' e' Hj' He'. apply (Hlast j' e' Hj').
        rewrite lookup_app_l; [exact He'|]. now apply lookup_lt_Some in He'.
  - intros [[-> Ew]|[Ew [(e0 & Hj & Hw) Hlast]]].
    + split.
      * exists e. rewrite lookup_app_r, Nat.sub_diag by lia. tauto.
      * intros j' e' Hj' He'. apply lookup_lt_Some in He'.
        rewrite length_app in He'. cbn in He'. lia.
    + split.
      * exists e0. split; [|exact Hw].
        rewrite lookup_app_l; [exact Hj|]. now apply lookup_lt_Some in Hj.
      * intros j' e' Hj' He'.
        destruct (decide (j' < length es)%nat) as [Hlt|Hge].
        -- rewrite lookup_app_l in He' by exact Hlt. now apply (Hlast j' e').
        -- assert (j' = length es).
           { apply lookup_lt_Some in He'. rewrite length_app in He'.
             cbn in He'. lia. }
           subst j'. rewrite lookup_app_r, Nat.sub_diag in He' by lia.
           injection He' as <-. exact Ew.
Qed.

Lemma load_lines_inv hsk_map lines :
  loader_inv hsk_map lines (load_lines hsk_map lines).
Proof.
  induction lines as [|line lines IH] using rev_ind.
  - split; [reflexivity|]. split; [reflexivity|].
    intros w j. cbn [load_lines fold_left word_to_id entries].
    rewrite lookup_empty. split; [discriminate|].
    intros [(e & He & _) _]. discriminate He.
  - rewrite load_lines_snoc.
    destruct IH as (Hc & He & Hid). set (st := load_lines hsk_map lines) in *.
    unfold loader_inv. rewrite omap_snoc. unfold load_line, entry_of_line.
    destruct (startswith 0x23%N line || startswith 0x25%N line).
    { rewrite app_nil_r. tauto. }
    destruct (parse_line (strip line)) as [parts|].
    2:{ rewrite app_nil_r. tauto. }
    cbn [entries word_to_id count].
    split; [rewrite length_app; cbn; lia|]. split; [now rewrite He|].
    intros w j. rewrite last_index_snoc. unfold word at 1 2. cbn [fields].
    destruct (decide (Convert.simplified parts = w)) as [<-|Hne].
    + rewrite lookup_insert_eq, Hc. split.
      * intros E. injection E as <-. now left.
      * intros [[-> _]|[Hw _]]; [reflexivity | congruence].
    + rewrite lookup_insert_ne by exact Hne. rewrite Hid. split.
      * intros H. now right.
      * intros [[_ Hw]|[_ H]]; [congruence | exact H].
Qed.

(** X17: the loader keeps one entry for each line that is no comment
    ('#' or '%' first) and that [parse_line] accepts, in the order of the
    file, with no examples yet, with the stroke flag set exactly when the
    simplified form has a character from U+4E00 to U+9FFF, and with the
    HSK level of its simplified form (0 when the map has none).  The
    index kept for a simplified form is the one of the last entry that
    has it. *)
Theorem load_lines_entries :
  forall (hsk_map : gmap str Z) (lines : list str),
    let st := load_lines hsk_map lines in
    entries st = omap (entry_of_line hsk_map) lines
    /\ count st = length (entries st)
    /\ (forall w j, word_to_id st !! w = Some j <->
                    last_index (entries st) w j)
    /\ Forall (fun e =>
                 has_examples e = 0
                 /\ hsk_level e = default 0 (hsk_map !! word e)
                 /\ (has_stroke e = 1 <->
                     exists c, In c (word e)
                               /\ (0x4E00 <= c <= 0x9FFF)%N)
                 /\ (has_stroke e = 1 \/ has_stroke e = 0))
         (entries st).
Proof.
  intros hsk_map lines st.
  destruct (load_lines_inv hsk_map lines) as (Hc & He & Hid). fold st in Hc, He, Hid.
  split; [exact He|]. split; [exact Hc|]. split; [exact Hid|].
  rewrite He. apply List.Forall_forall. intros e Hin.
  apply list_elem_of_In, list_elem_of_omap in Hin.
  destruct Hin as (line & _ & Hl). unfold entry_of_line in Hl.
  destruct (startswith 0x23%N line || startswith 0x25%N line); [discriminate|].
  destruct (parse_line (strip line)) as [parts|]; [|discriminate].
  injection Hl as <-. unfold word. cbn [fields has_examples hsk_level has_stroke].
  split; [reflexivity|]. split; [reflexivity|].
  destruct (existsb (in_range 0x4E00 0x9FFF) (Convert.simplified parts)) eqn:E.
  - split; [|now left]. split; [intros _|reflexivity].
    apply existsb_exists in E. destruct E as (c & Hc' & Hr). exists c.
    split; [exact Hc'|]. unfold in_range in Hr.
    apply andb_true_iff in Hr. rewrite !N.leb_le in Hr. exact Hr.
  - split; [|now right]. split; [discriminate|].
    intros (c & Hc' & Hr). exfalso.
    assert (Ht : existsb (in_range 0x4E00 0x9FFF) (Convert.simplified parts)
                 = true).
    { apply existsb_exists. exists c. split; [exact Hc'|]. unfold in_range.
      apply andb_true_iff. now rewrite !N.leb_le. }
    congruence.
Qed.

(** *** The examples flag *)

(** [w] is a piece of [s]. *)
Definition occurs (w s : str) : Prop :=
  exists pre post, s = pre ++ w ++ post.

(** [es'] is [es] with the examples flag set on the entries whose index
    satisfies [P], and nothing else changed. *)
Definition marks (P : nat -> Prop) (es es' : list stored) : Prop :=
  length es' = length es
  /\ forall j e, es !! j = Some e ->
       (P j /\ es' !! j = Some (set_has_examples e))
       \/ (~ P j /\ es' !! j = Some e).

Lemma marks_none es : marks (fun _ => False) es es.
Proof. split; [reflexivity|]. intros j e He. right. tauto. Qed.

Lemma marks_iff P Q es es' :
  (forall j, P j <-> Q j) -> marks P es es' -> marks Q es es'.
Proof.
  intros HPQ [Hlen H]. split; [exact Hlen|]. intros j e He.
  destruct (H j e He) as [[Hp E]|[Hp E]]; [left|right];
    (split; [|exact E]); [apply HPQ, Hp | rewrite <- HPQ; exact Hp].
Qed.

Lemma marks_trans P Q es es1 es2 :
  marks P es es1 -> marks Q es1 es2 -> marks (fun j => P j \/ Q j) es es2.
Proof.
  intros [Hl1 H1] [Hl2 H2]. split; [congruence|]. intros j e He.
  destruct (H1 j e He) as [[Hp E1]|[Hp E1]];
    destruct (H2 j _ E1) as [[Hq E2]|[Hq E2]].
  - left. split; [now left|]. rewrite E2. now destruct e.
  - left. split; [now left | exact E2].
  - left. split; [now right | exact E2].
  - right. split; [tauto | exact E2].
Qed.

Lemma marks_alter idx es :
  marks (fun j => j = idx) es (alter set_has_examples idx es).
Proof.
  split; [apply length_alter|]. intros j e He.
  destruct (decide (j = idx)) as [->|Hne].
  - left. split; [reflexivity|]. now rewrite list_lookup_alter_eq, He.
  - right. split; [exact Hne|]. now rewrite list_lookup_alter_ne.
Qed.

Lemma marks_fold {A} (f : list stored -> A -> list stored)
    (P : A -> nat -> Prop) :
  (forall x es, marks (P x) es (f es x)) ->
  forall l es,
    marks (fun j => exists x, In x l /\ P x j) es (fold_left f l es).
Proof.
  intros Hf. induction l as [|x l IH]; intros es.
  - cbn. eapply marks_iff; [|apply marks_none].
    intros j. split; [tauto|]. now intros (x & [] & _).
  - cbn [fold_left]. eapply marks_iff; [|exact (marks_trans _ _ _ _ _
                                                  (Hf x es) (IH (f es x)))].
    intros j. cbn. split.
    + intros [Hp|(y & Hy & Hp)]; [exists x | exists y]; tauto.
    + intros (y & [<-|Hy] & Hp); [now left|]. right. now exists y.
Qed.

(** The piece of [len] characters at offset [i] names the entry [j]. *)
Definition names (ids : gmap str nat) (sentence : str) (i len j : nat)
    : Prop :=
  (i + len <= length sentence)%nat
  /\ ids !! firstn len (skipn i sentence) = Some j.

Lemma mark_lengths_marks ids sentence i lengths :
  Sorted.StronglySorted le lengths ->
  forall es,
    marks (fun j => exists len, In len lengths /\ names ids sentence i len j)
          es (mark_lengths ids sentence i lengths es).
Proof.
  induction lengths as [|len rest IH]; intros Hs es.
  - cbn. eapply marks_iff; [|apply marks_none].
    intros j. split; [tauto|]. now intros (x & [] & _).
  - apply Sorted.StronglySorted_inv in Hs. destruct Hs as [Hs Hle].
    cbn [mark_lengths]. destruct (length sentence <? i + len)%nat eqn:E.
    + apply Nat.ltb_lt in E. eapply marks_iff; [|apply marks_none].
      intros j. split; [tauto|]. intros (l & Hl & Hb & _).
      destruct Hl as [<-|Hl]; [lia|].
      rewrite List.Forall_forall in Hle. specialize (Hle l Hl). lia.
    + apply Nat.ltb_ge in E.
      set (es1 := match ids !! firstn len (skipn i sentence) with
                  | Some idx => alter set_has_examples idx es
                  | None => es
                  end).
      assert (H1 : marks (fun j => names ids sentence i len j) es es1).
      { subst es1. unfold names.
        destruct (ids !! firstn len (skipn i sentence)) as [idx|].
        - eapply marks_iff; [|apply marks_alter]. intros j. cbn. split.
          + intros ->. split; [exact E | reflexivity].
          + intros [_ Hj]. congruence.
        - eapply marks_iff; [|apply marks_none]. intros j. cbn.
          split; [tauto|]. now intros [_ Hj]. }
      eapply marks_iff; [|exact (marks_trans _ _ _ _ _ H1 (IH Hs es1))].
      intros j. cbn. split.
      * intros [Hp|(l & Hl & Hp)]; [exists len | exists l]; tauto.
      * intros (l & [<-|Hl] & Hp); [now left|]. right. now exists l.
Qed.

Lemma names_occurs ids sentence j :
  (exists i len, In i (List.seq 0 (length sentence))
                 /\ In len [1; 2; 3; 4]%nat /\ names ids sentence i len j)
  <-> exists w, ids !! w = Some j
                /\ (1 <= length w <= 4)%nat /\ occurs w sentence.
Proof.
  unfold names, occurs. split.
  - intros (i & len & Hi & Hlen & Hb & Hj).
    exists (firstn len (skipn i sentence)). split; [exact Hj|].
    assert (Hl : length (firstn len (skipn i sentence)) = len).
    { rewrite length_firstn, length_skipn. lia. }
    split.
    + rewrite Hl. cbn in Hlen. lia.
    + exists (firstn i sentence), (skipn len (skipn i sentence)).
      now rewrite !firstn_skipn.
  - intros (w & Hj & Hl & pre & post & ->).
    exists (length pre), (length w). split.
    { apply in_seq. rewrite !length_app. lia. } split.
    { cbn. lia. } split.
    { rewrite !length_app. lia. }
    now rewrite drop_app_length, take_app_length.
Qed.

Lemma mark_sentence_marks ids sentence es :
  marks (fun j => exists w, ids !! w = Some j
                            /\ (1 <= length w <= 4)%nat /\ occurs w sentence)
        es (mark_sentence ids es sentence).
Proof.
  eapply marks_iff; [apply names_occurs|]. unfold mark_sentence.
  eapply marks_iff;
    [|apply (marks_fold
               (fun es i => mark_lengths ids sentence i [1; 2; 3; 4]%nat es)
               (fun i j => exists len, In len [1; 2; 3; 4]%nat
                                       /\ names ids sentence i len j))].
  - intros j. split.
    + intros (i & Hi & len & Hlen & H). now exists i, len.
    + intros (i & len & Hi & Hlen & H). exists i. split; [exact Hi|].
      now exists len.
  - intros i es0. apply mark_lengths_marks.
    repeat constructor; lia.
Qed.

Lemma mark_examples_marks ids sentences es :
  marks (fun j => exists w, ids !! w = Some j
                            /\ (1 <= length w <= 4)%nat
                            /\ exists s, In s (List.map fst sentences)
                                         /\ occurs w s)
        es (mark_examples ids sentences es).
Proof.
  unfold mark_examples.
  eapply marks_iff;
    [|apply (marks_fold
               (fun es sentence => mark_sentence ids es (fst sentence))
               (fun sentence j =>
                  exists w, ids !! w = Some j
                            /\ (1 <= length w <= 4)%nat
                            /\ occurs w (fst sentence)))].
  - intros j. split.
    + intros (p & Hp & w & Hj & Hl & Ho). exists w.
      split; [exact Hj|]. split; [exact Hl|]. exists (fst p).
      split; [now apply in_map | exact Ho].
    + intros (w & Hj & Hl & s0 & Hs & Ho). apply in_map_iff in Hs.
      destruct Hs as (p & <- & Hp). exists p. split; [exact Hp|].
      now exists w.
  - intros p es0. apply mark_sentence_marks.
Qed.

(** X18: the table built from the dictionary lines and the sentences has
    the loaded entries, in their order, with nothing but the examples
    flag changed.  The flag of an entry is 1 exactly when its simplified
    form has one to four characters, occurs in the Chinese text of a
    sentence, and no later entry has the same simplified form; it is 0
    otherwise.  So of several entries that share a simplified form only
    the last can get the flag, and a form of five characters or more
    never gets it. *)
Theorem build_entries_examples :
  forall (hsk_map : gmap str Z) (lines : list str)
         (sentences : list (str * str)) (j : nat) (e : stored),
    entries (load_lines hsk_map lines) !! j = Some e ->
    length (build_entries hsk_map lines sentences)
    = length (entries (load_lines hsk_map lines))
    /\ exists e',
         build_entries hsk_map lines sentences !! j = Some e'
         /\ fields e' = fields e
         /\ has_stroke e' = has_stroke e
         /\ hsk_level e' = hsk_level e
         /\ (has_examples e' = 1 \/ has_examples e' = 0)
         /\ (has_examples e' = 1 <->
             (1 <= length (word e) <= 4)%nat
             /\ (exists s, In s (List.map fst sentences)
                           /\ occurs (word e) s)
             /\ forall j' e0, (j < j')%nat ->
                  entries (load_lines hsk_map lines) !! j' = Some e0 ->
                  word e0 <> word e).
Proof.
  intros hsk_map lines sentences j e He.
  destruct (load_lines_inv hsk_map lines) as (_ & Hes & Hid).
  assert (H0 : has_examples e = 0).
  { rewrite Hes in He. apply list_elem_of_lookup_2, list_elem_of_omap in He.
    destruct He as (line & _ & Hl). unfold entry_of_line in Hl.
    destruct (startswith 0x23%N line || startswith 0x25%N line);
      [discriminate|].
    destruct (parse_line (strip line)); [|discriminate].
    now injection Hl as <-. }
  unfold build_entries.
  destruct (mark_examples_marks (word_to_id (load_lines hsk_map lines))
              sentences (entries (load_lines hsk_map lines))) as [Hlen Hm].
  split; [exact Hlen|].
  set (P := fun j0 : nat =>
              exists w : str,
                word_to_id (load_lines hsk_map lines) !! w = Some j0
                /\ (1 <= length w <= 4)%nat
                /\ exists s, In s (List.map fst sentences) /\ occurs w s)
    in Hm.
  assert (HP : P j <->
               (1 <= length (word e) <= 4)%nat
               /\ (exists s, In s (List.map fst sentences)
                             /\ occurs (word e) s)
               /\ forall j' e0, (j < j')%nat ->
                    entries (load_lines hsk_map lines) !! j' = Some e0 ->
                    word e0 <> word e).
  { unfold P. split.
    - intros (w & Hj & Hl & Hs). apply Hid in Hj.
      destruct Hj as [(e1 & He1 & Hw) Hlast].
      assert (e1 = e) by congruence. subst e1. subst w. tauto.
    - intros (Hl & Hs & Hlast). exists (word e).
      split; [|tauto]. apply Hid. split; [|exact Hlast].
      now exists e. }
  destruct (Hm j e He) as [[Hp E]|[Hp E]].
  - exists (set_has_examples e). split; [exact E|].
    cbn [set_has_examples fields has_stroke hsk_level has_examples].
    repeat (split; [reflexivity|]). split; [now left|].
    split; [intros _; now apply HP | reflexivity].
  - exists e. split; [exact E|]. repeat (split; [reflexivity|]).
    split; [now right|]. rewrite H0.
    split; [discriminate|]. intros H. exfalso. apply Hp, HP, H.
Qed.

Definition dictionary_sample : list str :=
  [ u8 "# CC-CEDICT";
    u8 "貓 猫 [mao1] /cat/";
    u8 "熊貓 熊猫 [xiong2 mao1] /panda/";
    u8 "猫 猫 [mao1] /variant of cat/" ].

Definition sentence_sample : list (str * str) :=
  [ (u8 "我喜欢猫", u8 "I like cats") ].

Lemma build_entries_examples_witness :
  exists e e',
    entries (load_lines ∅ dictionary_sample) !! 2%nat = Some e
    /\ build_entries ∅ dictionary_sample sentence_sample !! 2%nat = Some e'
    /\ fields e' = fields e
    /\ has_examples e' = 1.
Proof.
  destruct (entries (load_lines ∅ dictionary_sample) !! 2%nat) as [e|] eqn:E;
    [|discriminate E].
  destruct (build_entries_examples ∅ dictionary_sample sentence_sample
              2%nat e E) as (_ & e' & He' & Hf & _ & _ & _ & Hx).
  exists e, e'. split; [reflexivity|]. split; [exact He'|].
  split; [exact Hf|]. apply Hx.
  vm_compute in E. injection E as <-. split; [cbn; lia|]. split.
  - exists (u8 "我喜欢猫"). split; [now left|].
    exists (u8 "我喜欢"), []. reflexivity.
  - intros j' e0 Hj' He0. apply lookup_lt_Some in He0.
    vm_compute in He0. lia.
Defined.

(** *** The sentence lines *)

Lemma lstrip_spaces u v :
  Forall (fun c => isspace c = true) u -> lstrip (u ++ v) = lstrip v.
Proof.
  induction 1 as [|c u Hc _ IH]; [reflexivity|].
  cbn [app lstrip]. now rewrite Hc.
Qed.

Lemma lstrip_head s : isspace (hd 0%N s) = false -> lstrip s = s.
Proof. destruct s as [|c s]; [reflexivity|]. cbn. now intros ->. Qed.

Lemma hd_rev_last (s : str) : hd 0%N (rev s) = List.last s 0%N.
Proof.
  destruct s as [|c0 s0] using rev_ind; [reflexivity|].
  now rewrite rev_unit, last_last.
Qed.

Lemma strip_body body eol :
  body <> [] ->
  isspace (hd 0%N body) = false ->
  isspace (List.last body 0%N) = false ->
  Forall (fun c => isspace c = true) eol ->
  strip (body ++ eol) = body.
Proof.
  intros Hne Hhd Hlast Heol. unfold strip.
  rewrite (lstrip_head (body ++ eol)) by (destruct body; [congruence|exact Hhd]).
  rewrite rev_app_distr, lstrip_spaces.
  - rewrite lstrip_head by now rewrite hd_rev_last.
    apply rev_involutive.
  - apply List.Forall_forall. intros c Hc. apply in_rev in Hc.
    rewrite List.Forall_forall in Heol. now apply Heol.
Qed.

Lemma rstrip_chars_last chars (s : str) :
  mem (List.last s 0%N) chars = false -> rstrip_chars chars s = s.
Proof.
  unfold rstrip_chars. destruct s as [|c0 s0] using rev_ind; [reflexivity|].
  rewrite last_last, rev_unit. intros H. cbn [lstrip_chars]. rewrite H.
  now rewrite <- rev_unit, rev_involutive.
Qed.

Lemma join_last sep (ws : list str) :
  ws <> [] ->
  List.last (join [sep] ws) 0%N
  = match List.last ws [] with
    | [] => match ws with [_] => 0%N | _ => sep end
    | w => List.last w 0%N
    end.
Proof.
  induction ws as [|w ws IH]; [congruence|]. intros _.
  destruct ws as [|w' ws'].
  - cbn. now destruct w.
  - change (join [sep] (w :: w' :: ws'))
      with (w ++ sep :: join [sep] (w' :: ws')).
    change (List.last (w :: w' :: ws') []) with (List.last (w' :: ws') []).
    assert (Hne : w' :: ws' <> []) by discriminate.
    specialize (IH Hne).
    assert (E : forall x (y : str),
               List.last (x ++ sep :: y) 0%N
               = match y with [] => sep | _ => List.last y 0%N end).
    { intros x y. induction x as [|x0 x IHx]; [now destruct y|].
      cbn [app]. rewrite <- IHx. now destruct x. }
    rewrite E.
    destruct (join [sep] (w' :: ws')) as [|j0 js] eqn:Ej.
    + destruct ws' as [|w'' ws''].
      * cbn in Ej. subst w'. reflexivity.
      * exfalso. change (join [sep] (w' :: w'' :: ws''))
          with (w' ++ sep :: join [sep] (w'' :: ws'')) in Ej.
        now destruct w'.
    + rewrite IH. destruct (List.last (w' :: ws') []) as [|l0 ls] eqn:El.
      * destruct ws' as [|w'' ws'']; [|reflexivity].
        cbn in El, Ej. congruence.
      * reflexivity.
Qed.

(** X19: a line of the sentence file made of tab-separated fields,
    followed by any white space (the end of line), whose text neither
    starts nor ends with white space, gives no sentence when it has fewer
    than four fields, and else the pair of its second field and of its
    fourth field without the carriage returns and line feeds at its end.
    With exactly four fields the fourth field is kept as it is.  A line
    whose English field is empty falls under the first case, the tab
    before it being white space at the end of the line. *)
Theorem sentence_of_line_fields :
  forall (ws : list str) (eol : str),
    Forall (fun w => ~ In 0x09%N w) ws ->
    join [0x09%N] ws <> [] ->
    isspace (hd 0%N (join [0x09%N] ws)) = false ->
    isspace (List.last (join [0x09%N] ws) 0%N) = false ->
    Forall (fun c => isspace c = true) eol ->
    sentence_of_line (join [0x09%N] ws ++ eol)
    = (if (length ws <? 4)%nat then None
       else Some (nth 1 ws [],
                  rstrip_chars [0x0D; 0x0A]%N (nth 3 ws [])))
    /\ (length ws = 4%nat ->
        rstrip_chars [0x0D; 0x0A]%N (nth 3 ws []) = nth 3 ws []).
Proof.
  intros ws eol Htab Hne Hhd Hlast Heol.
  assert (Hws : ws <> []) by (intros ->; now apply Hne).
  split.
  - unfold sentence_of_line. rewrite strip_body by assumption.
    destruct (join [0x09%N] ws) as [|c0 body] eqn:Ej; [congruence|].
    rewrite <- Ej, ConvertFacts.split_join by assumption. reflexivity.
  - intros H4. apply rstrip_chars_last.
    rewrite join_last in Hlast by exact Hws.
    destruct ws as [|a [|b [|c [|d [|? ?]]]]]; try discriminate H4.
    cbn [nth].
    destruct d as [|d0 d']; [vm_compute in Hlast; discriminate Hlast|].
    change (isspace (List.last (d0 :: d') 0%N) = false) in Hlast.
    revert Hlast. generalize (List.last (d0 :: d') 0%N). intros x Hx.
    cbn [mem existsb].
    destruct (N.eqb_spec x 0x0D) as [->|_]; [discriminate Hx|].
    destruct (N.eqb_spec x 0x0A) as [->|_]; [discriminate Hx|].
    reflexivity.
Qed.

Lemma sentence_of_line_fields_witness :
  sentence_of_line
    (u8 "12" ++ 0x09%N :: u8 "我喜欢猫" ++ 0x09%N :: u8 "34"
        ++ 0x09%N :: u8 "I like cats" ++ [0x0D; 0x0A]%N)
  = Some (u8 "我喜欢猫", u8 "I like cats")
  /\ sentence_of_line
       (u8 "12" ++ 0x09%N :: u8 "我喜欢猫" ++ 0x09%N :: u8 "34"
           ++ [0x09; 0x0A]%N) = None.
Proof.
  split.
  - exact (proj1 (sentence_of_line_fields
                    [u8 "12"; u8 "我喜欢猫"; u8 "34"; u8 "I like cats"]
                    [0x0D; 0x0A]%N
                    ltac:(repeat constructor; vm_compute; intuition discriminate)
                    ltac:(discriminate) eq_refl eq_refl
                    ltac:(repeat constructor))).
  - exact (proj1 (sentence_of_line_fields
                    [u8 "12"; u8 "我喜欢猫"; u8 "34"]
                    [0x09; 0x0A]%N
                    ltac:(repeat constructor; vm_compute; intuition discriminate)
                    ltac:(discriminate) eq_refl eq_refl
                    ltac:(repeat constructor))).
Defined.

End IngestFacts.
